(** * mciso: Monte-Carlo inventory stock optimisation

    A shallow embedding of the package's three source files

      - [src/mciso/utils.py]              (module [Utils])
      - [src/mciso/model.py]              (module [Multi])
      - [src/mciso/model-one-product.py]  (module [Single])

    together with the small part of Python, numpy and pyomo they rely on
    (modules [Py], [Numpy] and [Pyomo]).  Numbers are rationals: the
    optimisation models are linear programmes over the reals with integer
    and binary side conditions, and every constant of the source
    ([1e5], [800 * 0.05], ...) is a rational.  Where the source stores
    numbers in a [float64] array, the rounding to binary64 is written
    out ([Numpy.float64]).

    The definitions come first.  The properties follow: the conversions
    of [utils.py] in [Conversion], the multi-product model in
    [MultiModel], the single-product model in [SingleModel], and the
    comparison of the two formulations in [Equivalence]; the modules
    whose names end in [Facts] hold the lemmas they share. *)

From Stdlib Require Import String.
From Stdlib Require Import ZArith QArith Qround List Bool Lia Lqa FinFun.
Import ListNotations.

Set Implicit Arguments.

(* ================================================================== *)
(** ** Python: exceptions, lists and dictionaries                      *)
(* ================================================================== *)

Module Py.

(** The exceptions the modelled code can raise. *)
Inductive exn : Set :=
| TypeError | ValueError | KeyError | IndexError | ZeroDivisionError
| OverflowError.

(** A computation either returns a value or raises. *)
Inductive result (A : Type) : Type :=
| Ok (a : A)
| Raise (e : exn).
Arguments Ok {A} a.
Arguments Raise {A} e.

Definition bind {A B} (c : result A) (k : A -> result B) : result B :=
  match c with
  | Ok a => k a
  | Raise e => Raise e
  end.

Declare Scope py_scope.
Delimit Scope py_scope with py.
Notation "x <- c ;; k" := (bind c (fun x => k))
  (at level 61, c at next level, right associativity) : py_scope.
Notation "' p <- c ;; k" := (bind c (fun x => match x with p => k end))
  (at level 61, p pattern, c at next level, right associativity) : py_scope.
Open Scope py_scope.

(** A [for] loop that threads an accumulator and may raise. *)
Fixpoint foldM {A B} (f : B -> A -> result B) (l : list A) (acc : B)
  : result B :=
  match l with
  | [] => Ok acc
  | x :: l' => acc' <- f acc x ;; foldM f l' acc'
  end.

(** A list comprehension whose body may raise. *)
Fixpoint mapM {A B} (f : A -> result B) (l : list A) : result (list B) :=
  match l with
  | [] => Ok []
  | x :: l' => y <- f x ;; ys <- mapM f l' ;; Ok (y :: ys)
  end.

(** [range(lo, hi)]. *)
Definition range (lo hi : Z) : list Z :=
  map (fun n => lo + Z.of_nat n)%Z (seq 0 (Z.to_nat (hi - lo))).

(** [enumerate(l)]. *)
Definition enumerate {A} (l : list A) : list (Z * A) :=
  combine (range 0 (Z.of_nat (length l))) l.

(** [itertools.product] of the lists [ls]: tuples in lexicographic order, the last
    coordinate running fastest. *)
Fixpoint product {A} (ls : list (list A)) : list (list A) :=
  match ls with
  | [] => [[]]
  | l :: ls' => flat_map (fun x => map (cons x) (product ls')) l
  end.

(** The mathematical sum of [f i] over the indices [i] of a finite index
    set, as the specification writes it. *)
Definition Qsum (A : list Z) (f : Z -> Q) : Q :=
  fold_right (fun i acc => f i + acc) 0 A.

(** Dictionary keys that occur in the package: [None], strings, integers
    and tuples of integers. *)
Inductive key : Set :=
| KNone
| KStr (s : string)
| KInt (n : Z)
| KTuple (t : list Z).

Definition tuple_eqb (t u : list Z) : bool :=
  if list_eq_dec Z.eq_dec t u then true else false.

Definition key_eqb (a b : key) : bool :=
  match a, b with
  | KNone, KNone => true
  | KStr s, KStr t => String.eqb s t
  | KInt n, KInt m => Z.eqb n m
  | KTuple t, KTuple u => tuple_eqb t u
  | _, _ => false
  end.

(** The values stored in the nested data dictionaries: integers, floats
    and dictionaries. *)
#[warnings="-register-all"]
Inductive value : Type :=
| VInt (n : Z)
| VFloat (q : Q)
| VDict (entries : list (key * value)).

(** [v[k]] for a dictionary value, and [v[k1][k2]...] along a path. *)
Definition lookup (k : key) (v : value) : option value :=
  match v with
  | VDict entries =>
      match find (fun kv => key_eqb (fst kv) k) entries with
      | Some kv => Some (snd kv)
      | None => None
      end
  | _ => None
  end.

Fixpoint lookup_path (path : list key) (v : value) : option value :=
  match path with
  | [] => Some v
  | k :: path' =>
      match lookup k v with
      | Some v' => lookup_path path' v'
      | None => None
      end
  end.

(** A [dict] keeps insertion order and has one entry per key: storing
    under a key already present replaces the value where it stands. *)
Section Dict.
Variables K V : Type.
Variable eqb : K -> K -> bool.

Definition dict := list (K * V).

Fixpoint dict_set (k : K) (v : V) (d : dict) : dict :=
  match d with
  | [] => [(k, v)]
  | (k', v') :: d' =>
      if eqb k' k then (k, v) :: d' else (k', v') :: dict_set k v d'
  end.

(** [dict(pairs)] and [{k: v for k, v in pairs}]. *)
Definition dict_of (pairs : list (K * V)) : dict :=
  fold_left (fun d kv => dict_set (fst kv) (snd kv) d) pairs [].

Definition keys (d : dict) : list K := map fst d.
Definition values (d : dict) : list V := map snd d.
End Dict.

(** [d.get(k)]: the value stored under the key [k], if any. *)
Definition dict_get {K V} (eqb : K -> K -> bool) (k : K) (d : dict K V)
  : option V :=
  match find (fun kv => eqb (fst kv) k) d with
  | Some kv => Some (snd kv)
  | None => None
  end.

End Py.

(* ================================================================== *)
(** ** numpy: dense arrays                                             *)
(* ================================================================== *)

Module Numpy.
Import Py.

(** A cell of a numeric array: a real number, given exactly, or the
    not-a-number sentinel [np.nan]. *)
Inductive cell : Set :=
| Num (q : Q)
| NaN.

(** [2^e] for an integer exponent. *)
Definition pow2 (e : Z) : Q :=
  if (0 <=? e)%Z then inject_Z (2 ^ e) else / inject_Z (2 ^ (- e)).

(** The binade of a positive rational: the largest [e] with [2^e <= q]. *)
Definition binade (q : Q) : Z :=
  let e := (Z.log2 (Qnum q) - Z.log2 (Zpos (Qden q)))%Z in
  if Qle_bool (pow2 e) q then e else (e - 1)%Z.

(** Rounding to the nearest integer, ties to the even one. *)
Definition round_half_even (q : Q) : Z :=
  let f := Qfloor q in
  match Qcompare (q - inject_Z f) (1 # 2) with
  | Lt => f
  | Gt => (f + 1)%Z
  | Eq => if Z.even f then f else (f + 1)%Z
  end.

(** Conversion of a number to [float64], the element type of the array
    that [np.full(shape, np.nan)] creates: the nearest binary64 number
    (53 significant bits, exponents down to -1074, ties to even), in
    lowest terms; a number that rounds beyond the largest binary64
    number is an [OverflowError]. *)
Definition float64 (q : Q) : result Q :=
  if Qeq_bool q 0 then Ok 0
  else
    let a := if Qle_bool 0 q then q else - q in
    let e := Z.max (binade a - 52) (-1074) in
    let r := inject_Z (round_half_even (a / pow2 e)) * pow2 e in
    if Qle_bool (pow2 1024) r then Raise OverflowError
    else Ok (Qred (if Qle_bool 0 q then r else - r)).

(** The cast of a cell on assignment into a [float64] array. *)
Definition as_float64 (c : cell) : result cell :=
  match c with
  | Num q => q' <- float64 q ;; Ok (Num q')
  | NaN => Ok NaN
  end.

(** A cell that a [float64] array holds as it is. *)
Definition is_float64 (c : cell) : Prop := as_float64 c = Ok c.

(** Comparison of cells as [==] does it: [nan] differs from everything,
    itself included. *)
Definition cell_eqb (a b : cell) : bool :=
  match a, b with
  | Num p, Num q => Qeq_bool p q
  | _, _ => false
  end.

(** An array is its shape and its cells in row-major (C) order. *)
Record ndarray : Set := mk_ndarray { shape : list nat; data : list cell }.

Definition size_of (sh : list nat) : nat := fold_right Nat.mul 1%nat sh.

Definition well_formed (X : ndarray) : Prop :=
  length (data X) = size_of (shape X).

Definition ndim (X : ndarray) : nat := length (shape X).
Definition ravel (X : ndarray) : list cell := data X.

(** [(a == b).all()] together with equality of the shapes. *)
Fixpoint cells_eqb (l m : list cell) : bool :=
  match l, m with
  | [], [] => true
  | a :: l', b :: m' => cell_eqb a b && cells_eqb l' m'
  | _, _ => false
  end.

Definition array_equal (a b : ndarray) : bool :=
  (if list_eq_dec Nat.eq_dec (shape a) (shape b) then true else false)
  && cells_eqb (data a) (data b).

(** [np.full(shape, c)]: a negative dimension is a [ValueError]. *)
Definition full (sh : list Z) (c : cell) : result ndarray :=
  if forallb (fun n => 0 <=? n)%Z sh
  then let sh' := map Z.to_nat sh in
       Ok (mk_ndarray sh' (repeat c (size_of sh')))
  else Raise ValueError.

(** Index normalisation along an axis of length [n]: negative indices
    count from the end, anything outside [-n, n) is an [IndexError]. *)
Definition norm_index (n : nat) (i : Z) : result nat :=
  if ((0 <=? i) && (i <? Z.of_nat n))%Z then Ok (Z.to_nat i)
  else if ((- Z.of_nat n <=? i) && (i <? 0))%Z
       then Ok (Z.to_nat (i + Z.of_nat n))
       else Raise IndexError.

(** Position of the cell with index tuple [idx] in the flat data. *)
Fixpoint ravel_index (sh : list nat) (idx : list Z) : result nat :=
  match sh, idx with
  | [], [] => Ok 0%nat
  | n :: sh', i :: idx' =>
      i' <- norm_index n i ;;
      rest <- ravel_index sh' idx' ;;
      Ok (i' * size_of sh' + rest)%nat
  | _, _ => Raise IndexError
  end.

(** The position of an index tuple that needs no normalisation. *)
Fixpoint offset_of (sh : list nat) (idx : list Z) : nat :=
  match sh, idx with
  | _ :: sh', i :: idx' => (Z.to_nat i * size_of sh' + offset_of sh' idx')%nat
  | _, _ => 0%nat
  end.

(** Index tuples that address a cell directly: as many coordinates as
    the array has axes, each in [0, n). *)
Definition in_bounds (sh : list nat) (idx : list Z) : Prop :=
  Forall2 (fun n i => (0 <= i < Z.of_nat n)%Z) sh idx.

Fixpoint list_set {A} (p : nat) (v : A) (l : list A) : list A :=
  match l, p with
  | [], _ => []
  | _ :: l', O => v :: l'
  | x :: l', S p' => x :: list_set p' v l'
  end.

(** One cell assignment, and a sequence of them from left to right. *)
Definition assign {A} (l : list A) (pv : nat * A) : list A :=
  list_set (fst pv) (snd pv) l.

(** [X[idx]] for a full index tuple. *)
Definition getitem (X : ndarray) (idx : list Z) : result cell :=
  p <- ravel_index (shape X) idx ;;
  match nth_error (data X) p with
  | Some c => Ok c
  | None => Raise IndexError
  end.

(** Fancy-index assignment [res[zip of idxs] = vals]: one cell per index tuple, assigned
    in order, so that a later assignment to the same cell wins. *)
Definition setitem (res : ndarray) (idxs : list (list Z)) (vals : list cell)
  : result ndarray :=
  foldM (fun acc iv =>
           p <- ravel_index (shape acc) (fst iv) ;;
           Ok (mk_ndarray (shape acc) (list_set p (snd iv) (data acc))))
        (combine idxs vals) res.

(** [np.array(rows).max(axis=0)]: the rows must be a non-empty rectangle. *)
Fixpoint map2 {A B C} (f : A -> B -> C) (l : list A) (m : list B) : list C :=
  match l, m with
  | a :: l', b :: m' => f a b :: map2 f l' m'
  | _, _ => []
  end.

Definition max_axis0 (rows : list (list Z)) : result (list Z) :=
  match rows with
  | [] => Raise ValueError
  | r :: rs =>
      foldM (fun acc row =>
               if (length row =? length acc)%nat
               then Ok (map2 Z.max acc row)
               else Raise ValueError)
            rs r
  end.

End Numpy.

(* ================================================================== *)
(** ** utils.py                                                        *)
(* ================================================================== *)

Module Utils.
Import Py Numpy.

Definition dok := dict key cell.

(** [array_to_dok]: convert numpy array to dictionary of keys.  Iterating
    a 0-dimensional array (the [else] branch at [ndim = 0]) is a
    [TypeError]. *)
Definition array_to_dok (X : ndarray) : result dok :=
  if (1 <? ndim X)%nat then
    Ok (dict_of key_eqb
          (combine
             (map KTuple
                  (product (map (fun i => range 1 (Z.of_nat i + 1)) (shape X))))
             (ravel X)))
  else
    match shape X with
    | [] => Raise TypeError
    | _ => Ok (dict_of key_eqb
                 (map (fun iv => (KInt (fst iv + 1), snd iv))
                      (enumerate (data X))))
    end.

(** The key of [dok_adj]: tuples are shifted coordinate-wise, anything
    else is shifted and wrapped in a 1-tuple ([None] and strings cannot be
    added to an integer). *)
Definition adjust_key (index_offset : Z) (k : key) : result (list Z) :=
  match k with
  | KTuple t => Ok (map (fun k_i => k_i + index_offset)%Z t)
  | KInt n => Ok [(n + index_offset)%Z]
  | KNone | KStr _ => Raise TypeError
  end.

(** [dok_to_array]: convert dictionary of keys to numpy array.  The
    result of [np.full(shape, np.nan)] is a [float64] array, so the
    assignment converts the values to [float64] before it stores them. *)
Definition dok_to_array (d : dok) (index_offset : Z) : result ndarray :=
  dok_adj <- foldM (fun acc kv =>
                      k' <- adjust_key index_offset (fst kv) ;;
                      Ok (dict_set tuple_eqb k' (snd kv) acc))
                   d [] ;;
  m <- max_axis0 (keys dok_adj) ;;
  let shape := map (fun x => x - index_offset)%Z m in
  res <- full shape NaN ;;
  vals <- mapM as_float64 (values dok_adj) ;;
  setitem res (keys dok_adj) vals.

(** The entries of [dok_adj] when no key fails to adjust and no two
    adjusted keys coincide: one per entry of the map, in order. *)
Definition adjusted (index_offset : Z) (d : dok) : list (list Z * cell) :=
  map (fun kv =>
         (match adjust_key index_offset (fst kv) with
          | Ok t => t
          | Raise _ => []
          end, snd kv))
      d.

(** The entries as the array stores them: the values converted to
    [float64]. *)
Definition stored (index_offset : Z) (d : dok) : list (list Z * cell) :=
  map (fun tv =>
         (fst tv, match as_float64 (snd tv) with
                  | Ok c => c
                  | Raise _ => NaN
                  end))
      (adjusted index_offset d).

(** The key under which the cell with the 0-based index tuple [idx] of
    an array of [ndim] dimensions is filed: the 1-based tuple, or the bare
    1-based integer when the array has one dimension. *)
Definition index_key (ndim : nat) (idx : list Z) : key :=
  if (1 <? ndim)%nat then KTuple (map (fun i => i + 1)%Z idx)
  else KInt (hd 0%Z idx + 1).

(** The number of coordinates of a key: a bare integer counts as a
    1-tuple, [None] and strings are no index. *)
Definition key_arity (k : key) : option nat :=
  match k with
  | KInt _ => Some 1%nat
  | KTuple t => Some (length t)
  | KNone | KStr _ => None
  end.

(** A 1-tuple key and the bare integer address the same cell. *)
Definition canonical_key (k : key) : key :=
  match k with
  | KTuple [n] => KInt n
  | _ => k
  end.

(** The default of the [index_offset] argument. *)
Definition default_index_offset : Z := (-1)%Z.

End Utils.

(* ================================================================== *)
(** ** pyomo: the model-declaration interface                          *)
(* ================================================================== *)

Module Pyomo.
Import Py.

(** Domains of parameters and variables. *)
Inductive domain : Set := NonNegativeIntegers | NonNegativeReals | Binary.

Definition is_integer (q : Q) : bool := Qeq_bool q (inject_Z (Qfloor q)).

Definition within (dom : domain) (q : Q) : bool :=
  match dom with
  | NonNegativeIntegers => Qle_bool 0 q && is_integer q
  | NonNegativeReals => Qle_bool 0 q
  | Binary => Qeq_bool q 0 || Qeq_bool q 1
  end.

(** [pyo.Param(within=dom)] given the value [q]: a value outside the
    domain is a [ValueError] when the instance is constructed. *)
Definition Param (dom : domain) (q : Q) : result Q :=
  if within dom q then Ok q else Raise ValueError.

(** The same for a scalar that the data gives as a Python [int]. *)
Definition IntParam (dom : domain) (n : Z) : result Z :=
  if within dom (inject_Z n) then Ok n else Raise ValueError.

(** [pyo.RangeSet(lo, hi)]: the integers [lo..hi], none when [hi < lo]. *)
Definition RangeSet (lo hi : Z) : list Z := range lo (hi + 1).

Definition mem (i : Z) (A : list Z) : bool := existsb (Z.eqb i) A.

(** Index tuples of a component declared over two or three sets, in the
    order pyomo visits them. *)
Definition cross2 (A B : list Z) : list (Z * Z) :=
  flat_map (fun i => map (fun k => (i, k)) B) A.

Definition cross3 (A B C : list Z) : list (Z * Z * Z) :=
  flat_map (fun i => flat_map (fun j => map (fun k => (i, j, k)) C) B) A.

Inductive sense : Set := minimize | maximize.

Section Expressions.
(** An assignment gives every variable of the model a value. *)
Variable assignment : Type.

(** A numeric expression over the variables, by its value. *)
Definition expr := assignment -> Q.

Definition econst (q : Q) : expr := fun _ => q.
Definition eadd (e f : expr) : expr := fun a => e a + f a.
Definition esub (e f : expr) : expr := fun a => e a - f a.
Definition emul (e f : expr) : expr := fun a => e a * f a.

(** Python's [sum(es)]: a left fold that starts from [0]. *)
Definition esum (es : list expr) : expr :=
  fun a => fold_left (fun acc e => acc + e a) es 0.

(** [e / n] for a scalar integer parameter [n]. *)
Definition ediv (e : expr) (n : Z) : result expr :=
  if (n =? 0)%Z then Raise ZeroDivisionError
  else Ok (fun a => e a / inject_Z n).

(** What a constraint rule returns: an equation, an inequality, or the
    3-tuple [(lo, body, hi)] of a ranged constraint. *)
Inductive relexpr : Type :=
| EqC (l r : expr)
| LeC (l r : expr)
| GeC (l r : expr)
| RangeC (lo : Q) (body : expr) (hi : Q).

Definition holds (a : assignment) (c : relexpr) : Prop :=
  match c with
  | EqC l r => l a == r a
  | LeC l r => l a <= r a
  | GeC l r => r a <= l a
  | RangeC lo body hi => lo <= body a /\ body a <= hi
  end.

Definition holdsb (a : assignment) (c : relexpr) : bool :=
  match c with
  | EqC l r => Qeq_bool (l a) (r a)
  | LeC l r => Qle_bool (l a) (r a)
  | GeC l r => Qle_bool (r a) (l a)
  | RangeC lo body hi => Qle_bool lo (body a) && Qle_bool (body a) hi
  end.

(** [pyo.Constraint(index sets, rule=rule)]: the rule is called at every
    index tuple; [None] stands for [pyo.Constraint.Skip], which
    generates nothing at that index. *)
Fixpoint Constraint {Ix : Type} (indices : list Ix)
         (rule : Ix -> result (option relexpr))
  : result (list (Ix * relexpr)) :=
  match indices with
  | [] => Ok []
  | ix :: rest =>
      c <- rule ix ;;
      cs <- Constraint rest rule ;;
      Ok match c with
         | Some body => (ix, body) :: cs
         | None => cs
         end
  end.

(** Indexed variables and parameters: an index outside the declared
    index set is a [KeyError]. *)
Definition var1 (A : list Z) (x : assignment -> Z -> Q) (i : Z)
  : result expr :=
  if mem i A then Ok (fun a => x a i) else Raise KeyError.

Definition var2 (A B : list Z) (x : assignment -> Z -> Z -> Q) (i k : Z)
  : result expr :=
  if mem i A && mem k B then Ok (fun a => x a i k) else Raise KeyError.

Definition var3 (A B C : list Z) (x : assignment -> Z -> Z -> Z -> Q)
           (i j k : Z) : result expr :=
  if mem i A && mem j B && mem k C then Ok (fun a => x a i j k)
  else Raise KeyError.

Definition par1 (A : list Z) (p : Z -> Q) (k : Z) : result expr :=
  if mem k A then Ok (econst (p k)) else Raise KeyError.

Definition par2 (A B : list Z) (p : Z -> Z -> Q) (i j : Z) : result expr :=
  if mem i A && mem j B then Ok (econst (p i j)) else Raise KeyError.

Definition par3 (A B C : list Z) (p : Z -> Z -> Z -> Q) (i j k : Z)
  : result expr :=
  if mem i A && mem j B && mem k C then Ok (econst (p i j k))
  else Raise KeyError.

(** A value [v] is the optimal objective value of a maximisation
    problem when some feasible assignment attains it and none
    exceeds it. *)
Definition optimal_value (feasible : assignment -> Prop) (obj : expr)
           (v : Q) : Prop :=
  (exists a, feasible a /\ obj a == v) /\
  (forall a, feasible a -> obj a <= v).
End Expressions.

Arguments econst {assignment} q.
Arguments EqC {assignment} l r.
Arguments LeC {assignment} l r.
Arguments GeC {assignment} l r.
Arguments RangeC {assignment} lo body hi.

Declare Scope expr_scope.
Delimit Scope expr_scope with E.
Infix "+" := (@eadd _) : expr_scope.
Infix "-" := (@esub _) : expr_scope.
Infix "*" := (@emul _) : expr_scope.
Notation "l == r" := (EqC l%E r%E) (at level 70, no associativity) : expr_scope.
Notation "l <= r" := (LeC l%E r%E) (at level 70, no associativity) : expr_scope.
Notation "l >= r" := (GeC l%E r%E) (at level 70, no associativity) : expr_scope.

End Pyomo.

(* ================================================================== *)
(** ** model.py: the multi-product model                               *)
(* ================================================================== *)

Module Multi.
Import Py Pyomo.

Definition _bigM : Q := 100000.

(** The data an instance is created from.  Indexed parameters are total
    tables; only their entries at indices of the declared sets are read. *)
Record data : Type := mk_data {
  n_months : Z;
  n_scenarios : Z;
  n_skus : Z;
  D : Z -> Z -> Z -> Q;
  SP : Z -> Q;
  UP : Z -> Q;
  W : Z -> Q;
  O : Z -> Q;
  L : Z -> Q;
  MOQ : Z -> Q;
  BI : Z -> Q;
  UB : Q;
  LB : Z -> Q
}.

(** The decision variables: [X] and [z] per month and SKU, the others per
    month, scenario and SKU. *)
Record assignment : Type := mk_assignment {
  X : Z -> Z -> Q;
  V : Z -> Z -> Z -> Q;
  S : Z -> Z -> Z -> Q;
  s : Z -> Z -> Z -> Q;
  d : Z -> Z -> Z -> Q;
  z : Z -> Z -> Q
}.

(** The [model] argument of the rules: the index sets and parameters. *)
Record model : Type := mk_model {
  params : data;
  I : list Z;
  J : list Z;
  K : list Z
}.

Definition rel := relexpr assignment.

Section Rules.
Variable m : model.

Definition var_X := var2 (I m) (K m) X.
Definition var_V := var3 (I m) (J m) (K m) V.
Definition var_S := var3 (I m) (J m) (K m) S.
Definition var_s := var3 (I m) (J m) (K m) s.
Definition var_d := var3 (I m) (J m) (K m) d.
Definition var_z := var2 (I m) (K m) z.

Definition par_D := @par3 assignment (I m) (J m) (K m) (D (params m)).
Definition par_SP := @par1 assignment (K m) (SP (params m)).
Definition par_UP := @par1 assignment (K m) (UP (params m)).
Definition par_W := @par1 assignment (K m) (W (params m)).
Definition par_O := @par1 assignment (K m) (O (params m)).
Definition par_L := @par1 assignment (K m) (L (params m)).
Definition par_MOQ := @par1 assignment (K m) (MOQ (params m)).
Definition par_BI := @par1 assignment (K m) (BI (params m)).
Definition par_LB := @par1 assignment (K m) (LB (params m)).
Definition par_UB : expr assignment := econst (UB (params m)).

(** volume + surplus = stock *)
Definition _const_surplus_deficit (ix : Z * Z * Z) : result (option rel) :=
  let '(i, j, k) := ix in
  V_ <- var_V i j k ;; s_ <- var_s i j k ;; S_ <- var_S i j k ;;
  Ok (Some (V_ + s_ == S_)%E).

(** Set stock / beginning inventory for first period *)
Definition _const_stock1 (ix : Z * Z) : result (option rel) :=
  let '(j, k) := ix in
  S_ <- var_S 1 j k ;; X_ <- var_X 1 k ;; BI_ <- par_BI k ;;
  Ok (Some (S_ == X_ + BI_)%E).

(** Stock = Order + Previous Surplus *)
Definition _const_stock (ix : Z * Z * Z) : result (option rel) :=
  let '(i, j, k) := ix in
  if (i <=? 1)%Z then Ok None
  else
    S_ <- var_S i j k ;; X_ <- var_X i k ;; s_ <- var_s (i - 1) j k ;;
    Ok (Some (S_ == X_ + s_)%E).

(** Min stock constraint (buffer) *)
Definition _const_stock_buffer (ix : Z * Z * Z) : result (option rel) :=
  let '(i, j, k) := ix in
  S_ <- var_S i j k ;; V_ <- var_V i j k ;; LB_ <- par_LB k ;;
  Ok (Some (S_ - V_ >= LB_)%E).

(** Max stock constraint (capital in inventory).  Without SKUs the
    sum is the integer [0] and [0 <= model.UB] compares two numbers:
    the rule returns a plain [bool], which [pyo.Constraint] rejects
    with a [ValueError]. *)
Definition _const_stock_max (ix : Z * Z) : result (option rel) :=
  let '(i, j) := ix in
  terms <- mapM (fun k =>
                   S_ <- var_S i j k ;; UP_ <- par_UP k ;;
                   Ok (S_ * UP_)%E)
                (K m) ;;
  match terms with
  | [] => Raise ValueError
  | _ :: _ => Ok (Some (esum terms <= par_UB)%E)
  end.

(** volume + deficit = demand constraint *)
Definition _const_volume_bounds_demand (ix : Z * Z * Z)
  : result (option rel) :=
  let '(i, j, k) := ix in
  V_ <- var_V i j k ;; d_ <- var_d i j k ;; D_ <- par_D i j k ;;
  Ok (Some (V_ + d_ == D_)%E).

Definition _const_moq1 (ix : Z * Z) : result (option rel) :=
  let '(i, k) := ix in
  X_ <- var_X i k ;; MOQ_ <- par_MOQ k ;; z_ <- var_z i k ;;
  Ok (Some (X_ >= MOQ_ * z_)%E).

Definition _const_moq2 (ix : Z * Z) : result (option rel) :=
  let '(i, k) := ix in
  X_ <- var_X i k ;; z_ <- var_z i k ;;
  Ok (Some (X_ <= econst _bigM * z_)%E).

Definition obj_expression : result (expr assignment) :=
  margin <- mapM (fun ix : Z * Z * Z =>
                    let '(i, j, k) := ix in
                    SP_ <- par_SP k ;; UP_ <- par_UP k ;;
                    V_ <- var_V i j k ;;
                    W_ <- par_W k ;; s_ <- var_s i j k ;;
                    O_ <- par_O k ;; d_ <- var_d i j k ;;
                    Ok ((SP_ - UP_) * V_ - W_ * s_ - O_ * d_)%E)
                 (cross3 (I m) (J m) (K m)) ;;
  expected <- ediv (esum margin) (n_scenarios (params m)) ;;
  shipping <- mapM (fun ix : Z * Z =>
                      let '(i, k) := ix in
                      L_ <- par_L k ;; z_ <- var_z i k ;;
                      Ok (L_ * z_)%E)
                   (cross2 (I m) (K m)) ;;
  Ok (expected - esum shipping)%E.
End Rules.

(** A constructed instance: sets, parameters, the generated constraints
    of every constraint component, and the objective. *)
Record instance : Type := mk_instance {
  mdl : model;
  const_surplus_deficit : list (Z * Z * Z * rel);
  const_stock1 : list (Z * Z * rel);
  const_stock : list (Z * Z * Z * rel);
  const_stock_buffer : list (Z * Z * Z * rel);
  const_stock_max : list (Z * Z * rel);
  const_volume_bounds_demand : list (Z * Z * Z * rel);
  const_moq1 : list (Z * Z * rel);
  const_moq2 : list (Z * Z * rel);
  OBJ : expr assignment;
  OBJ_sense : sense
}.

(** Validation of an indexed parameter against its domain. *)
Definition Param1 (dom : domain) (A : list Z) (p : Z -> Q) : result unit :=
  if forallb (fun k => within dom (p k)) A then Ok tt else Raise ValueError.

Definition Param3 (dom : domain) (A B C : list Z) (p : Z -> Z -> Z -> Q)
  : result unit :=
  if forallb (fun ix : Z * Z * Z => let '(i, j, k) := ix in within dom (p i j k))
             (cross3 A B C)
  then Ok tt else Raise ValueError.

(** [create_model().create_instance(data)]: the declarations of
    [create_model], executed in order on the given data. *)
Definition create_instance (dt : data) : result instance :=
  (* INDICES *)
  n_months_ <- IntParam NonNegativeIntegers (n_months dt) ;;
  let I_ := RangeSet 1 n_months_ in
  n_scenarios_ <- IntParam NonNegativeIntegers (n_scenarios dt) ;;
  let J_ := RangeSet 1 n_scenarios_ in
  n_skus_ <- IntParam NonNegativeIntegers (n_skus dt) ;;
  let K_ := RangeSet 1 n_skus_ in
  (* PARAMETERS *)
  _ <- Param3 NonNegativeReals I_ J_ K_ (D dt) ;;
  _ <- Param1 NonNegativeReals K_ (SP dt) ;;
  _ <- Param1 NonNegativeReals K_ (UP dt) ;;
  _ <- Param1 NonNegativeReals K_ (W dt) ;;
  _ <- Param1 NonNegativeReals K_ (O dt) ;;
  _ <- Param1 NonNegativeReals K_ (L dt) ;;
  _ <- Param1 NonNegativeReals K_ (MOQ dt) ;;
  _ <- Param1 NonNegativeReals K_ (BI dt) ;;
  _ <- Param NonNegativeReals (UB dt) ;;
  _ <- Param1 NonNegativeReals K_ (LB dt) ;;
  let m := mk_model dt I_ J_ K_ in
  (* CONSTRAINTS *)
  c_surplus_deficit <- Constraint (cross3 I_ J_ K_) (_const_surplus_deficit m) ;;
  c_stock1 <- Constraint (cross2 J_ K_) (_const_stock1 m) ;;
  c_stock <- Constraint (cross3 I_ J_ K_) (_const_stock m) ;;
  c_stock_buffer <- Constraint (cross3 I_ J_ K_) (_const_stock_buffer m) ;;
  c_stock_max <- Constraint (cross2 I_ J_) (_const_stock_max m) ;;
  c_volume_bounds_demand <-
    Constraint (cross3 I_ J_ K_) (_const_volume_bounds_demand m) ;;
  c_moq1 <- Constraint (cross2 I_ K_) (_const_moq1 m) ;;
  c_moq2 <- Constraint (cross2 I_ K_) (_const_moq2 m) ;;
  (* OBJECTIVE *)
  obj <- obj_expression m ;;
  Ok (mk_instance m c_surplus_deficit c_stock1 c_stock c_stock_buffer
                  c_stock_max c_volume_bounds_demand c_moq1 c_moq2
                  obj maximize).

(** All generated constraints of an instance. *)
Definition constraints (inst : instance) : list rel :=
  map snd (const_surplus_deficit inst) ++ map snd (const_stock1 inst)
  ++ map snd (const_stock inst) ++ map snd (const_stock_buffer inst)
  ++ map snd (const_stock_max inst)
  ++ map snd (const_volume_bounds_demand inst)
  ++ map snd (const_moq1 inst) ++ map snd (const_moq2 inst).

(** The domains of the variables, at every index of their index sets. *)
Definition in_domains (m : model) (a : assignment) : bool :=
  forallb (fun ix : Z * Z => let '(i, k) := ix in
             within NonNegativeIntegers (X a i k) && within Binary (z a i k))
          (cross2 (I m) (K m))
  && forallb (fun ix : Z * Z * Z => let '(i, j, k) := ix in
                within NonNegativeReals (V a i j k)
                && within NonNegativeReals (S a i j k)
                && within NonNegativeReals (s a i j k)
                && within NonNegativeReals (d a i j k))
             (cross3 (I m) (J m) (K m)).

(** A feasible solution: every variable in its domain, every generated
    constraint satisfied. *)
Definition feasible (inst : instance) (a : assignment) : Prop :=
  in_domains (mdl inst) a = true /\ Forall (holds a) (constraints inst).

Definition feasibleb (inst : instance) (a : assignment) : bool :=
  in_domains (mdl inst) a && forallb (holdsb a) (constraints inst).

(** What a successful [create_instance] established, statement by
    statement. *)
Record built (dt : data) (inst : instance) : Prop := mk_built {
  b_months : (0 <= n_months dt)%Z;
  b_scenarios : (0 <= n_scenarios dt)%Z;
  b_skus : (0 <= n_skus dt)%Z;
  b_mdl : mdl inst = mk_model dt (RangeSet 1 (n_months dt))
                              (RangeSet 1 (n_scenarios dt))
                              (RangeSet 1 (n_skus dt));
  b_surplus_deficit :
    Constraint (cross3 (I (mdl inst)) (J (mdl inst)) (K (mdl inst)))
               (_const_surplus_deficit (mdl inst))
    = Ok (const_surplus_deficit inst);
  b_stock1 :
    Constraint (cross2 (J (mdl inst)) (K (mdl inst)))
               (_const_stock1 (mdl inst))
    = Ok (const_stock1 inst);
  b_stock :
    Constraint (cross3 (I (mdl inst)) (J (mdl inst)) (K (mdl inst)))
               (_const_stock (mdl inst))
    = Ok (const_stock inst);
  b_stock_buffer :
    Constraint (cross3 (I (mdl inst)) (J (mdl inst)) (K (mdl inst)))
               (_const_stock_buffer (mdl inst))
    = Ok (const_stock_buffer inst);
  b_stock_max :
    Constraint (cross2 (I (mdl inst)) (J (mdl inst)))
               (_const_stock_max (mdl inst))
    = Ok (const_stock_max inst);
  b_volume_bounds_demand :
    Constraint (cross3 (I (mdl inst)) (J (mdl inst)) (K (mdl inst)))
               (_const_volume_bounds_demand (mdl inst))
    = Ok (const_volume_bounds_demand inst);
  b_moq1 :
    Constraint (cross2 (I (mdl inst)) (K (mdl inst))) (_const_moq1 (mdl inst))
    = Ok (const_moq1 inst);
  b_moq2 :
    Constraint (cross2 (I (mdl inst)) (K (mdl inst))) (_const_moq2 (mdl inst))
    = Ok (const_moq2 inst);
  b_obj : obj_expression (mdl inst) = Ok (OBJ inst);
  b_sense : OBJ_sense inst = maximize
}.

(** Some value of the data is negative: the only way to leave the
    declared domains, all of which are non-negative numbers. *)
Definition negative_value (dt : data) : Prop :=
  (n_months dt < 0)%Z \/ (n_scenarios dt < 0)%Z \/ (n_skus dt < 0)%Z \/
  (exists i j k, D dt i j k < 0) \/
  (exists k, SP dt k < 0 \/ UP dt k < 0 \/ W dt k < 0 \/ O dt k < 0 \/
             L dt k < 0 \/ MOQ dt k < 0 \/ BI dt k < 0 \/ LB dt k < 0) \/
  UB dt < 0.

(** The objective as the specification writes it: the scenario average
    of the net margin minus the total shipping cost. *)
Definition spec_objective (dt : data) (a : assignment) : Q :=
  let I_ := RangeSet 1 (n_months dt) in
  let J_ := RangeSet 1 (n_scenarios dt) in
  let K_ := RangeSet 1 (n_skus dt) in
  (1 / inject_Z (n_scenarios dt))
  * Qsum I_ (fun i => Qsum J_ (fun j => Qsum K_ (fun k =>
      (SP dt k - UP dt k) * V a i j k
      - W dt k * s a i j k
      - O dt k * d a i j k)))
  - Qsum I_ (fun i => Qsum K_ (fun k => L dt k * z a i k)).

(** The assignment [a] with [z[i0,k0]] replaced by [b]. *)
Definition set_z (a : assignment) (i0 k0 : Z) (b : Q) : assignment :=
  mk_assignment (X a) (V a) (S a) (s a) (d a)
                (fun i k => if ((i =? i0) && (k =? k0))%Z then b else z a i k).

(** [convert_data]: the body ignores its arguments and returns the
    literal data dictionary of the single-product test fixture. *)
Definition convert_data
           (n_months n_scenarios : Z)
           (D SP UP W O L : Numpy.ndarray)
           (MOQ : Z)
           (BI : Numpy.ndarray)
           (UB : Q)
           (LB : Numpy.ndarray) : value :=
  VDict
    [(KNone,
      VDict
        [(KStr "n_months", VDict [(KNone, VInt 5)]);
         (KStr "n_scenarios", VDict [(KNone, VInt 2)]);
         (KStr "D",
          VDict
            [(KTuple [1; 1]%Z, VInt 100);
             (KTuple [2; 1]%Z, VInt 120);
             (KTuple [3; 1]%Z, VInt 80);
             (KTuple [4; 1]%Z, VInt 90);
             (KTuple [5; 1]%Z, VInt 100);
             (KTuple [1; 2]%Z, VInt 80);
             (KTuple [2; 2]%Z, VInt 100);
             (KTuple [3; 2]%Z, VInt 150);
             (KTuple [4; 2]%Z, VInt 120);
             (KTuple [5; 2]%Z, VInt 80)]);
         (KStr "CM", VDict [(KNone, VFloat 500.0)]);
         (KStr "W", VDict [(KNone, VFloat (800 * 0.05))]);
         (KStr "O", VDict [(KNone, VInt (2 * 500))]);
         (KStr "L", VDict [(KNone, VInt 1000)]);
         (KStr "MOQ", VDict [(KNone, VInt 300)]);
         (KStr "BI", VDict [(KNone, VInt 0)]);
         (KStr "UB", VDict [(KNone, VInt 999999)]);
         (KStr "LB", VDict [(KNone, VInt 0)])])].

End Multi.

(* ================================================================== *)
(** ** model-one-product.py: the single-product model                  *)
(* ================================================================== *)

Module Single.
Import Py Pyomo.

Definition _bigM : Q := 100000.

Record data : Type := mk_data {
  n_months : Z;
  n_scenarios : Z;
  D : Z -> Z -> Q;
  CM : Q;
  W : Q;
  O : Q;
  L : Q;
  MOQ : Q;
  BI : Q;
  UB : Q;
  LB : Q
}.

Record assignment : Type := mk_assignment {
  X : Z -> Q;
  V : Z -> Z -> Q;
  S : Z -> Z -> Q;
  s : Z -> Z -> Q;
  d : Z -> Z -> Q;
  z : Z -> Q
}.

Record model : Type := mk_model {
  params : data;
  I : list Z;
  J : list Z
}.

Definition rel := relexpr assignment.

Section Rules.
Variable m : model.

Definition var_X := var1 (I m) X.
Definition var_V := var2 (I m) (J m) V.
Definition var_S := var2 (I m) (J m) S.
Definition var_s := var2 (I m) (J m) s.
Definition var_d := var2 (I m) (J m) d.
Definition var_z := var1 (I m) z.

Definition par_D := @par2 assignment (I m) (J m) (D (params m)).
Definition par_CM : expr assignment := econst (CM (params m)).
Definition par_W : expr assignment := econst (W (params m)).
Definition par_O : expr assignment := econst (O (params m)).
Definition par_L : expr assignment := econst (L (params m)).
Definition par_MOQ : expr assignment := econst (MOQ (params m)).
Definition par_BI : expr assignment := econst (BI (params m)).

(** Set surplus and deficit auxiliary variables *)
Definition _const_surplus_deficit (ix : Z * Z) : result (option rel) :=
  let '(i, j) := ix in
  V_ <- var_V i j ;; s_ <- var_s i j ;; d_ <- var_d i j ;;
  D_ <- par_D i j ;;
  Ok (Some (V_ + s_ - d_ == D_)%E).

(** Set stock / beginning inventory for first period *)
Definition _const_stock1 (j : Z) : result (option rel) :=
  S_ <- var_S 1 j ;; X_ <- var_X 1 ;;
  Ok (Some (S_ == X_ + par_BI)%E).

(** Set stock auxiliary variable *)
Definition _const_stock (ix : Z * Z) : result (option rel) :=
  let '(i, j) := ix in
  if (i <=? 1)%Z then Ok None
  else
    S_ <- var_S i j ;; X_ <- var_X i ;;
    Sprev <- var_S (i - 1) j ;; Vprev <- var_V (i - 1) j ;;
    Ok (Some (S_ == X_ + Sprev - Vprev)%E).

(** Min (buffer) / Max (capital in inventory) stock constraint *)
Definition _const_stock_bounds (ix : Z * Z) : result (option rel) :=
  let '(i, j) := ix in
  S_ <- var_S i j ;;
  Ok (Some (RangeC (LB (params m)) S_ (UB (params m)))).

(** volume <= stock constraint *)
Definition _const_volume_bounds (ix : Z * Z) : result (option rel) :=
  let '(i, j) := ix in
  V_ <- var_V i j ;; S_ <- var_S i j ;;
  Ok (Some (V_ <= S_)%E).

Definition _const_moq1 (i : Z) : result (option rel) :=
  X_ <- var_X i ;; z_ <- var_z i ;;
  Ok (Some (X_ >= par_MOQ * z_)%E).

Definition _const_moq2 (i : Z) : result (option rel) :=
  X_ <- var_X i ;; z_ <- var_z i ;;
  Ok (Some (X_ <= econst _bigM * z_)%E).

Definition obj_expression : result (expr assignment) :=
  margin <- mapM (fun ix : Z * Z =>
                    let '(i, j) := ix in
                    V_ <- var_V i j ;; s_ <- var_s i j ;; d_ <- var_d i j ;;
                    Ok (par_CM * V_ - par_W * s_ - par_O * d_)%E)
                 (cross2 (I m) (J m)) ;;
  expected <- ediv (esum margin) (n_scenarios (params m)) ;;
  shipping <- mapM (fun i => z_ <- var_z i ;; Ok (par_L * z_)%E) (I m) ;;
  Ok (expected - esum shipping)%E.
End Rules.

Record instance : Type := mk_instance {
  mdl : model;
  const_surplus_deficit : list (Z * Z * rel);
  const_stock1 : list (Z * rel);
  const_stock : list (Z * Z * rel);
  const_stock_bounds : list (Z * Z * rel);
  const_volume_bounds : list (Z * Z * rel);
  const_moq1 : list (Z * rel);
  const_moq2 : list (Z * rel);
  OBJ : expr assignment;
  OBJ_sense : sense
}.

Definition Param2 (dom : domain) (A B : list Z) (p : Z -> Z -> Q)
  : result unit :=
  if forallb (fun ix : Z * Z => let '(i, j) := ix in within dom (p i j))
             (cross2 A B)
  then Ok tt else Raise ValueError.

(** [create_model().create_instance(data)]. *)
Definition create_instance (dt : data) : result instance :=
  (* INDICES *)
  n_months_ <- IntParam NonNegativeIntegers (n_months dt) ;;
  let I_ := RangeSet 1 n_months_ in
  n_scenarios_ <- IntParam NonNegativeIntegers (n_scenarios dt) ;;
  let J_ := RangeSet 1 n_scenarios_ in
  (* PARAMETERS *)
  _ <- Param2 NonNegativeIntegers I_ J_ (D dt) ;;
  _ <- Param NonNegativeReals (CM dt) ;;
  _ <- Param NonNegativeReals (W dt) ;;
  _ <- Param NonNegativeReals (O dt) ;;
  _ <- Param NonNegativeReals (L dt) ;;
  _ <- Param NonNegativeIntegers (MOQ dt) ;;
  _ <- Param NonNegativeIntegers (BI dt) ;;
  _ <- Param NonNegativeReals (UB dt) ;;
  _ <- Param NonNegativeReals (LB dt) ;;
  let m := mk_model dt I_ J_ in
  (* CONSTRAINTS *)
  c_surplus_deficit <- Constraint (cross2 I_ J_) (_const_surplus_deficit m) ;;
  c_stock1 <- Constraint J_ (_const_stock1 m) ;;
  c_stock <- Constraint (cross2 I_ J_) (_const_stock m) ;;
  c_stock_bounds <- Constraint (cross2 I_ J_) (_const_stock_bounds m) ;;
  c_volume_bounds <- Constraint (cross2 I_ J_) (_const_volume_bounds m) ;;
  c_moq1 <- Constraint I_ (_const_moq1 m) ;;
  c_moq2 <- Constraint I_ (_const_moq2 m) ;;
  (* OBJECTIVE *)
  obj <- obj_expression m ;;
  Ok (mk_instance m c_surplus_deficit c_stock1 c_stock c_stock_bounds
                  c_volume_bounds c_moq1 c_moq2 obj maximize).

Definition constraints (inst : instance) : list rel :=
  map snd (const_surplus_deficit inst) ++ map snd (const_stock1 inst)
  ++ map snd (const_stock inst) ++ map snd (const_stock_bounds inst)
  ++ map snd (const_volume_bounds inst)
  ++ map snd (const_moq1 inst) ++ map snd (const_moq2 inst).

Definition in_domains (m : model) (a : assignment) : bool :=
  forallb (fun i => within NonNegativeIntegers (X a i) && within Binary (z a i))
          (I m)
  && forallb (fun ix : Z * Z => let '(i, j) := ix in
                within NonNegativeIntegers (V a i j)
                && within NonNegativeIntegers (S a i j)
                && within NonNegativeIntegers (s a i j)
                && within NonNegativeIntegers (d a i j))
             (cross2 (I m) (J m)).

Definition feasible (inst : instance) (a : assignment) : Prop :=
  in_domains (mdl inst) a = true /\ Forall (holds a) (constraints inst).

Definition feasibleb (inst : instance) (a : assignment) : bool :=
  in_domains (mdl inst) a && forallb (holdsb a) (constraints inst).

(** What a successful [create_instance] established, statement by
    statement. *)
Record built (dt : data) (inst : instance) : Prop := mk_built {
  b_months : (0 <= n_months dt)%Z;
  b_scenarios : (0 <= n_scenarios dt)%Z;
  b_mdl : mdl inst = mk_model dt (RangeSet 1 (n_months dt))
                              (RangeSet 1 (n_scenarios dt));
  b_surplus_deficit :
    Constraint (cross2 (I (mdl inst)) (J (mdl inst)))
               (_const_surplus_deficit (mdl inst))
    = Ok (const_surplus_deficit inst);
  b_stock1 :
    Constraint (J (mdl inst)) (_const_stock1 (mdl inst))
    = Ok (const_stock1 inst);
  b_stock :
    Constraint (cross2 (I (mdl inst)) (J (mdl inst)))
               (_const_stock (mdl inst))
    = Ok (const_stock inst);
  b_stock_bounds :
    Constraint (cross2 (I (mdl inst)) (J (mdl inst)))
               (_const_stock_bounds (mdl inst))
    = Ok (const_stock_bounds inst);
  b_volume_bounds :
    Constraint (cross2 (I (mdl inst)) (J (mdl inst)))
               (_const_volume_bounds (mdl inst))
    = Ok (const_volume_bounds inst);
  b_moq1 :
    Constraint (I (mdl inst)) (_const_moq1 (mdl inst)) = Ok (const_moq1 inst);
  b_moq2 :
    Constraint (I (mdl inst)) (_const_moq2 (mdl inst)) = Ok (const_moq2 inst);
  b_obj : obj_expression (mdl inst) = Ok (OBJ inst);
  b_sense : OBJ_sense inst = maximize
}.

(** Every value of the data lies in the domain its parameter declares. *)
Definition values_in_domain (dt : data) : Prop :=
  (forall i j, within NonNegativeIntegers (D dt i j) = true) /\
  within NonNegativeReals (CM dt) = true /\
  within NonNegativeReals (W dt) = true /\
  within NonNegativeReals (O dt) = true /\
  within NonNegativeReals (L dt) = true /\
  within NonNegativeIntegers (MOQ dt) = true /\
  within NonNegativeIntegers (BI dt) = true /\
  within NonNegativeReals (UB dt) = true /\
  within NonNegativeReals (LB dt) = true.

(** The objective as the specification writes it, without the SKU
    index. *)
Definition spec_objective (dt : data) (a : assignment) : Q :=
  let I_ := RangeSet 1 (n_months dt) in
  let J_ := RangeSet 1 (n_scenarios dt) in
  (1 / inject_Z (n_scenarios dt))
  * Qsum I_ (fun i => Qsum J_ (fun j =>
      CM dt * V a i j - W dt * s a i j - O dt * d a i j))
  - Qsum I_ (fun i => L dt * z a i).

(** [generate_test_data]: generate data for debugging. *)
Definition generate_test_data : value :=
  VDict
    [(KNone,
      VDict
        [(KStr "n_months", VDict [(KNone, VInt 5)]);
         (KStr "n_scenarios", VDict [(KNone, VInt 2)]);
         (KStr "D",
          VDict
            [(KTuple [1; 1]%Z, VInt 100);
             (KTuple [2; 1]%Z, VInt 120);
             (KTuple [3; 1]%Z, VInt 80);
             (KTuple [4; 1]%Z, VInt 90);
             (KTuple [5; 1]%Z, VInt 100);
             (KTuple [1; 2]%Z, VInt 80);
             (KTuple [2; 2]%Z, VInt 100);
             (KTuple [3; 2]%Z, VInt 150);
             (KTuple [4; 2]%Z, VInt 120);
             (KTuple [5; 2]%Z, VInt 80)]);
         (KStr "CM", VDict [(KNone, VFloat 500.0)]);
         (KStr "W", VDict [(KNone, VFloat (800 * 0.05))]);
         (KStr "O", VDict [(KNone, VInt (2 * 500))]);
         (KStr "L", VDict [(KNone, VInt 1000)]);
         (KStr "MOQ", VDict [(KNone, VInt 300)]);
         (KStr "BI", VDict [(KNone, VInt 0)]);
         (KStr "UB", VDict [(KNone, VInt 999999)]);
         (KStr "LB", VDict [(KNone, VInt 0)])])].

End Single.

(* ================================================================== *)
(** ** The two formulations side by side, and sample data              *)
(* ================================================================== *)

Module Compare.

(** Data of the single-product model equivalent to data of the
    multi-product model with one SKU: the contribution margin is
    [SP - UP], every other parameter is the same. *)
Definition equivalent_data (md : Multi.data) (sd : Single.data) : Prop :=
  Multi.n_skus md = 1%Z /\
  Multi.n_months md = Single.n_months sd /\
  Multi.n_scenarios md = Single.n_scenarios sd /\
  (forall i j, Multi.D md i j 1%Z == Single.D sd i j) /\
  Multi.SP md 1%Z - Multi.UP md 1%Z == Single.CM sd /\
  Multi.W md 1%Z == Single.W sd /\
  Multi.O md 1%Z == Single.O sd /\
  Multi.L md 1%Z == Single.L sd /\
  Multi.MOQ md 1%Z == Single.MOQ sd /\
  Multi.BI md 1%Z == Single.BI sd /\
  Multi.UB md == Single.UB sd /\
  Multi.LB md 1%Z == Single.LB sd.

(** A multi-product assignment read as a single-product one, at SKU 1. *)
Definition drop_sku (a : Multi.assignment) : Single.assignment :=
  Single.mk_assignment
    (fun i => Multi.X a i 1%Z)
    (fun i j => Multi.V a i j 1%Z)
    (fun i j => Multi.S a i j 1%Z)
    (fun i j => Multi.s a i j 1%Z)
    (fun i j => Multi.d a i j 1%Z)
    (fun i => Multi.z a i 1%Z).

End Compare.

Module Examples.

(** One month, one scenario, one SKU: a demand of 100 units and the
    prices of the test fixture (margin 500, storage 40, stock-out 1000,
    shipping 1000, minimum order 300). *)
Definition multi_data : Multi.data :=
  Multi.mk_data 1 1 1 (fun _ _ _ => 100)
                (fun _ => 1300) (fun _ => 800) (fun _ => 800 * 0.05)
                (fun _ => 2 * 500) (fun _ => 1000) (fun _ => 300)
                (fun _ => 0) 999999 (fun _ => 0).

Definition single_data : Single.data :=
  Single.mk_data 1 1 (fun _ _ => 100) 500.0 (800 * 0.05) (2 * 500) 1000 300
                 0 999999 0.

(** Order the minimum quantity, sell the demand, keep the rest. *)
Definition multi_plan : Multi.assignment :=
  Multi.mk_assignment (fun _ _ => 300) (fun _ _ _ => 100) (fun _ _ _ => 300)
                      (fun _ _ _ => 200) (fun _ _ _ => 0) (fun _ _ => 1).

(** Order nothing, sell nothing. *)
Definition idle_plan : Multi.assignment :=
  Multi.mk_assignment (fun _ _ => 0) (fun _ _ _ => 0) (fun _ _ _ => 0)
                      (fun _ _ _ => 0) (fun _ _ _ => 100) (fun _ _ => 0).

(** The single-product model accepts the same order with no surplus
    recorded. *)
Definition single_plan : Single.assignment :=
  Single.mk_assignment (fun _ => 300) (fun _ _ => 100) (fun _ _ => 300)
                       (fun _ _ => 0) (fun _ _ => 0) (fun _ => 1).

(** Two months of the same demand, served from one order. *)
Definition two_month_data : Multi.data :=
  Multi.mk_data 2 1 1 (fun _ _ _ => 100)
                (fun _ => 1300) (fun _ => 800) (fun _ => 800 * 0.05)
                (fun _ => 2 * 500) (fun _ => 1000) (fun _ => 300)
                (fun _ => 0) 999999 (fun _ => 0).

Definition two_month_plan : Multi.assignment :=
  Multi.mk_assignment
    (fun i _ => if (i =? 1)%Z then 300 else 0)
    (fun _ _ _ => 100)
    (fun i _ _ => if (i =? 1)%Z then 300 else 200)
    (fun i _ _ => if (i =? 1)%Z then 200 else 100)
    (fun _ _ _ => 0)
    (fun i _ => if (i =? 1)%Z then 1 else 0).

(** No months and no SKUs, one scenario. *)
Definition empty_data : Multi.data :=
  Multi.mk_data 0 1 0 (fun _ _ _ => 0)
                (fun _ => 0) (fun _ => 0) (fun _ => 0)
                (fun _ => 0) (fun _ => 0) (fun _ => 0)
                (fun _ => 0) 0 (fun _ => 0).

End Examples.

Unset Implicit Arguments.

(* ================================================================== *)
(** ** Facts about the Python and pyomo layer                          *)
(* ================================================================== *)

Module PyFacts.
Import Py Pyomo.

Lemma bind_Ok {A B} (c : result A) (k : A -> result B) (b : B) :
  bind c k = Ok b -> exists a, c = Ok a /\ k a = Ok b.
Proof.
  destruct c as [a | e]; simpl; intros H.
  - exists a; split; [reflexivity | exact H].
  - discriminate H.
Qed.

(** Inversion of a successful sequence of statements, one [bind] at a
    time. *)
Ltac bind_inv H :=
  let x := fresh "x" in
  let Hx := fresh "Hx" in
  apply bind_Ok in H; destruct H as (x & Hx & H).

Lemma In_range (lo hi i : Z) :
  In i (range lo hi) <-> (lo <= i < hi)%Z.
Proof.
  unfold range. rewrite in_map_iff. split.
  - intros (n & <- & Hn). apply in_seq in Hn. lia.
  - intros Hi. exists (Z.to_nat (i - lo)). split; [lia |].
    apply in_seq. lia.
Qed.

Lemma In_RangeSet (n i : Z) :
  In i (RangeSet 1 n) <-> (1 <= i <= n)%Z.
Proof. unfold RangeSet. rewrite In_range. lia. Qed.

Lemma mem_In (i : Z) (A : list Z) : mem i A = true <-> In i A.
Proof.
  unfold mem. rewrite existsb_exists. split.
  - intros (x & Hx & Heq). apply Z.eqb_eq in Heq. subst. exact Hx.
  - intros Hi. exists i. split; [exact Hi | apply Z.eqb_refl].
Qed.

Lemma In_cross2 (A B : list Z) (i k : Z) :
  In (i, k) (cross2 A B) <-> In i A /\ In k B.
Proof.
  unfold cross2. rewrite in_flat_map. split.
  - intros (x & Hx & Hin). apply in_map_iff in Hin.
    destruct Hin as (y & Heq & Hy). inversion Heq; subst. tauto.
  - intros [Hi Hk]. exists i. split; [exact Hi |].
    apply in_map_iff. exists k. tauto.
Qed.

Lemma In_cross3 (A B C : list Z) (i j k : Z) :
  In (i, j, k) (cross3 A B C) <-> In i A /\ In j B /\ In k C.
Proof.
  unfold cross3. rewrite in_flat_map. split.
  - intros (x & Hx & Hin). apply in_flat_map in Hin.
    destruct Hin as (y & Hy & Hin). apply in_map_iff in Hin.
    destruct Hin as (w & Heq & Hw). inversion Heq; subst. tauto.
  - intros (Hi & Hj & Hk). exists i. split; [exact Hi |].
    apply in_flat_map. exists j. split; [exact Hj |].
    apply in_map_iff. exists k. tauto.
Qed.

Section ConstraintFacts.
Variable assignment : Type.
Variable Ix : Type.
Variable rule : Ix -> result (option (relexpr assignment)).

(** Every generated constraint comes from the rule at an index of the
    index set. *)
Lemma Constraint_sound (indices : list Ix) cs ix c :
  Constraint indices rule = Ok cs ->
  In (ix, c) cs -> In ix indices /\ rule ix = Ok (Some c).
Proof.
  revert cs. induction indices as [| i0 rest IH]; simpl; intros cs H Hin.
  - inversion H; subst. destruct Hin.
  - bind_inv H. bind_inv H. inversion H; subst; clear H.
    destruct x as [body |].
    + destruct Hin as [Heq | Hin].
      * inversion Heq; subst. split; [now left | exact Hx].
      * destruct (IH _ Hx0 Hin). split; [now right | assumption].
    + destruct (IH _ Hx0 Hin). split; [now right | assumption].
Qed.

(** The rule raised at no index, and whatever it returned other than
    [Skip] was generated. *)
Lemma Constraint_complete (indices : list Ix) cs ix :
  Constraint indices rule = Ok cs ->
  In ix indices ->
  exists oc, rule ix = Ok oc /\ forall c, oc = Some c -> In (ix, c) cs.
Proof.
  revert cs. induction indices as [| i0 rest IH]; simpl; intros cs H Hin.
  - destruct Hin.
  - bind_inv H. bind_inv H. inversion H; subst; clear H.
    destruct Hin as [-> | Hin].
    + exists x. split; [exact Hx |]. intros c ->. now left.
    + destruct (IH _ Hx0 Hin) as (oc & Hoc & Hc).
      exists oc. split; [exact Hoc |]. intros c Heq.
      destruct x; [right |]; now apply Hc.
Qed.

Lemma Constraint_holds (indices : list Ix) cs ix c (a : assignment) :
  Constraint indices rule = Ok cs ->
  Forall (holds a) (map snd cs) ->
  In ix indices -> rule ix = Ok (Some c) -> holds a c.
Proof.
  intros H Hall Hin Hr.
  destruct (Constraint_complete _ _ _ H Hin) as (oc & Hoc & Hc).
  rewrite Hr in Hoc. inversion Hoc; subst.
  rewrite Forall_forall in Hall. apply Hall.
  apply in_map_iff. exists (ix, c). split; [reflexivity | now apply Hc].
Qed.

(** The indices at which a constraint was generated are those where
    the rule did not skip. *)
Lemma Constraint_indices (indices : list Ix) cs ix :
  Constraint indices rule = Ok cs ->
  (In ix (map fst cs) <->
   In ix indices /\ exists c, rule ix = Ok (Some c)).
Proof.
  intros H. split.
  - intros Hin. apply in_map_iff in Hin.
    destruct Hin as ([ix' c] & Heq & Hin). simpl in Heq. subst.
    destruct (Constraint_sound _ _ _ _ H Hin). eauto.
  - intros (Hin & c & Hr).
    destruct (Constraint_complete _ _ _ H Hin) as (oc & Hoc & Hc).
    rewrite Hr in Hoc. inversion Hoc; subst.
    apply in_map_iff. exists (ix, c). split; [reflexivity | now apply Hc].
Qed.

Lemma holdsb_holds (a : assignment) (c : relexpr assignment) :
  holdsb a c = true <-> holds a c.
Proof.
  destruct c; simpl.
  - apply Qeq_bool_iff.
  - apply Qle_bool_iff.
  - apply Qle_bool_iff.
  - rewrite andb_true_iff, !Qle_bool_iff. tauto.
Qed.

Lemma forallb_holdsb (a : assignment) (cs : list (relexpr assignment)) :
  forallb (holdsb a) cs = true <-> Forall (holds a) cs.
Proof.
  rewrite forallb_forall, Forall_forall.
  split; intros H c Hc; apply holdsb_holds; auto.
Qed.
End ConstraintFacts.

Lemma within_reals (q : Q) : within NonNegativeReals q = true <-> 0 <= q.
Proof. simpl. apply Qle_bool_iff. Qed.

Lemma within_integers_nonneg (q : Q) :
  within NonNegativeIntegers q = true -> 0 <= q.
Proof. simpl. rewrite andb_true_iff, Qle_bool_iff. tauto. Qed.

Lemma within_binary (q : Q) :
  within Binary q = true <-> q == 0 \/ q == 1.
Proof. simpl. rewrite orb_true_iff, !Qeq_bool_iff. tauto. Qed.

Lemma IntParam_Ok (n v : Z) :
  IntParam NonNegativeIntegers n = Ok v -> v = n /\ (0 <= n)%Z.
Proof.
  unfold IntParam. destruct (within _ _) eqn:Hw; [| discriminate].
  intros H; inversion H; subst. split; [reflexivity |].
  apply within_integers_nonneg in Hw.
  unfold Qle in Hw. simpl in Hw. lia.
Qed.

Lemma IntParam_nonneg (n : Z) :
  (0 <= n)%Z -> IntParam NonNegativeIntegers n = Ok n.
Proof.
  intros Hn. unfold IntParam, within, is_integer.
  replace (Qle_bool 0 (inject_Z n)) with true.
  - rewrite Qfloor_Z. simpl.
    replace (Qeq_bool (inject_Z n) (inject_Z n)) with true; [reflexivity |].
    symmetry. apply Qeq_bool_iff. reflexivity.
  - symmetry. apply Qle_bool_iff. unfold Qle. simpl. lia.
Qed.

Section Access.
Variable assignment : Type.

Lemma var1_Ok A (x : assignment -> Z -> Q) i :
  In i A -> var1 A x i = Ok (fun a => x a i).
Proof. intros Hi. unfold var1. apply mem_In in Hi. now rewrite Hi. Qed.

Lemma var2_Ok A B (x : assignment -> Z -> Z -> Q) i k :
  In i A -> In k B -> var2 A B x i k = Ok (fun a => x a i k).
Proof.
  intros Hi Hk. unfold var2. apply mem_In in Hi, Hk. now rewrite Hi, Hk.
Qed.

Lemma var3_Ok A B C (x : assignment -> Z -> Z -> Z -> Q) i j k :
  In i A -> In j B -> In k C ->
  var3 A B C x i j k = Ok (fun a => x a i j k).
Proof.
  intros Hi Hj Hk. unfold var3. apply mem_In in Hi, Hj, Hk.
  now rewrite Hi, Hj, Hk.
Qed.

Lemma par1_Ok A (p : Z -> Q) k :
  In k A -> @par1 assignment A p k = Ok (econst (p k)).
Proof. intros Hk. unfold par1. apply mem_In in Hk. now rewrite Hk. Qed.

Lemma par2_Ok A B (p : Z -> Z -> Q) i j :
  In i A -> In j B -> @par2 assignment A B p i j = Ok (econst (p i j)).
Proof.
  intros Hi Hj. unfold par2. apply mem_In in Hi, Hj. now rewrite Hi, Hj.
Qed.

Lemma par3_Ok A B C (p : Z -> Z -> Z -> Q) i j k :
  In i A -> In j B -> In k C ->
  @par3 assignment A B C p i j k = Ok (econst (p i j k)).
Proof.
  intros Hi Hj Hk. unfold par3. apply mem_In in Hi, Hj, Hk.
  now rewrite Hi, Hj, Hk.
Qed.

Lemma var2_inv A B (x : assignment -> Z -> Z -> Q) i k e :
  var2 A B x i k = Ok e -> e = (fun a => x a i k) /\ In i A /\ In k B.
Proof.
  unfold var2. destruct (mem i A) eqn:Hi; [| discriminate].
  destruct (mem k B) eqn:Hk; [| discriminate]. simpl.
  intros H; inversion H. apply mem_In in Hi, Hk. auto.
Qed.

Lemma var3_inv A B C (x : assignment -> Z -> Z -> Z -> Q) i j k e :
  var3 A B C x i j k = Ok e ->
  e = (fun a => x a i j k) /\ In i A /\ In j B /\ In k C.
Proof.
  unfold var3. destruct (mem i A) eqn:Hi; [| discriminate].
  destruct (mem j B) eqn:Hj; [| discriminate].
  destruct (mem k C) eqn:Hk; [| discriminate]. simpl.
  intros H; inversion H. apply mem_In in Hi, Hj, Hk. auto.
Qed.

Lemma par1_inv A (p : Z -> Q) k e :
  @par1 assignment A p k = Ok e -> e = econst (p k) /\ In k A.
Proof.
  unfold par1. destruct (mem k A) eqn:Hk; [| discriminate].
  intros H; inversion H. apply mem_In in Hk. auto.
Qed.

Lemma par3_inv A B C (p : Z -> Z -> Z -> Q) i j k e :
  @par3 assignment A B C p i j k = Ok e -> e = econst (p i j k).
Proof.
  unfold par3. destruct (_ && _); [| discriminate].
  intros H; now inversion H.
Qed.

(** A comprehension whose body succeeds at every element. *)
Lemma mapM_Ok {A B} (f : A -> result B) (g : A -> B) (l : list A) :
  (forall x, In x l -> f x = Ok (g x)) -> mapM f l = Ok (map g l).
Proof.
  induction l as [| x l IH]; simpl; intros H; [reflexivity |].
  rewrite (H x) by now left. simpl.
  rewrite IH by (intros y Hy; apply H; now right). reflexivity.
Qed.

Lemma mapM_inv {A B} (f : A -> result B) (l : list A) ys :
  mapM f l = Ok ys -> Forall2 (fun x y => f x = Ok y) l ys.
Proof.
  revert ys. induction l as [| x l IH]; simpl; intros ys H.
  - inversion H. constructor.
  - bind_inv H. bind_inv H. inversion H; subst. constructor; auto.
Qed.

(** Python's [sum] against the mathematical sum. *)
Lemma fold_sum_acc (es : list (expr assignment)) (a : assignment) (acc : Q) :
  fold_left (fun r e => r + e a) es acc
  == acc + fold_right (fun e r => e a + r) 0 es.
Proof.
  revert acc. induction es as [| e es IH]; simpl; intros acc.
  - lra.
  - rewrite IH. lra.
Qed.

Lemma esum_map {Ix} (g : Ix -> expr assignment) (l : list Ix) a :
  esum (map g l) a == fold_right (fun x r => g x a + r) 0 l.
Proof.
  unfold esum. rewrite fold_sum_acc.
  induction l as [| x l IH]; simpl; [lra |].
  rewrite Qplus_0_l in IH. rewrite <- IH. lra.
Qed.

Lemma fold_right_sum_app {Ix} (g : Ix -> Q) (l l' : list Ix) :
  fold_right (fun x r => g x + r) 0 (l ++ l')
  == fold_right (fun x r => g x + r) 0 l
     + fold_right (fun x r => g x + r) 0 l'.
Proof. induction l as [| x l IH]; simpl; [lra | rewrite IH; lra]. Qed.

Lemma sum_cross2 (g : Z * Z -> Q) (A B : list Z) :
  fold_right (fun x r => g x + r) 0 (cross2 A B)
  == Qsum A (fun i => Qsum B (fun k => g (i, k))).
Proof.
  unfold cross2, Qsum. induction A as [| i A IH]; simpl; [lra |].
  rewrite fold_right_sum_app, IH. apply Qplus_inj_r.
  clear IH. induction B as [| k B IH]; simpl; [lra | rewrite IH; lra].
Qed.

Lemma sum_cross3 (g : Z * Z * Z -> Q) (A B C : list Z) :
  fold_right (fun x r => g x + r) 0 (cross3 A B C)
  == Qsum A (fun i => Qsum B (fun j => Qsum C (fun k => g (i, j, k)))).
Proof.
  unfold cross3, Qsum. induction A as [| i A IH]; simpl; [lra |].
  rewrite fold_right_sum_app, IH. apply Qplus_inj_r.
  clear IH. induction B as [| j B IH]; simpl; [lra |].
  rewrite fold_right_sum_app, IH. apply Qplus_inj_r.
  clear IH. induction C as [| k C IH]; simpl; [lra | rewrite IH; lra].
Qed.
End Access.

End PyFacts.

(* ================================================================== *)
(** ** Facts about lists, dictionaries and arrays                      *)
(* ================================================================== *)

Module NumpyFacts.
Import Py Numpy PyFacts.

(** *** Dictionaries *)

Lemma tuple_eqb_eq (t u : list Z) : tuple_eqb t u = true <-> t = u.
Proof.
  unfold tuple_eqb. destruct (list_eq_dec Z.eq_dec t u); split; congruence.
Qed.

Lemma key_eqb_eq (a b : key) : key_eqb a b = true <-> a = b.
Proof.
  destruct a, b; simpl; try (split; [discriminate | congruence]).
  - tauto.
  - rewrite String.eqb_eq. split; congruence.
  - rewrite Z.eqb_eq. split; congruence.
  - rewrite tuple_eqb_eq. split; congruence.
Qed.

Section DictFacts.
Variables K V : Type.
Variable eqb : K -> K -> bool.
Hypothesis eqb_eq : forall a b, eqb a b = true <-> a = b.

(** Storing under a key that is not there appends the entry. *)
Lemma dict_set_fresh (k : K) (v : V) (d : dict K V) :
  ~ In k (keys d) -> dict_set eqb k v d = d ++ [(k, v)].
Proof.
  induction d as [| [k' v'] d IH]; simpl; intros Hk; [reflexivity |].
  destruct (eqb k' k) eqn:Heq.
  - apply eqb_eq in Heq. tauto.
  - rewrite IH by tauto. reflexivity.
Qed.

Lemma dict_of_acc (pairs acc : list (K * V)) :
  NoDup (map fst (acc ++ pairs)) ->
  fold_left (fun d kv => dict_set eqb (fst kv) (snd kv) d) pairs acc
  = acc ++ pairs.
Proof.
  revert acc. induction pairs as [| [k v] pairs IH]; simpl; intros acc Hnd.
  - now rewrite app_nil_r.
  - rewrite dict_set_fresh.
    + rewrite IH; rewrite <- app_assoc; [reflexivity | exact Hnd].
    + rewrite map_app in Hnd. simpl in Hnd.
      apply NoDup_remove_2 in Hnd. intros Hin. apply Hnd.
      apply in_or_app. now left.
Qed.

(** With pairwise distinct keys, the dictionary is the list of pairs. *)
Lemma dict_of_NoDup (pairs : list (K * V)) :
  NoDup (map fst pairs) -> dict_of eqb pairs = pairs.
Proof. intros H. unfold dict_of. now rewrite dict_of_acc. Qed.
End DictFacts.

(** *** Ranges and products *)

Lemma range_length (lo hi : Z) : length (range lo hi) = Z.to_nat (hi - lo).
Proof. unfold range. now rewrite length_map, length_seq. Qed.

Lemma range_NoDup (lo hi : Z) : NoDup (range lo hi).
Proof.
  unfold range. apply Injective_map_NoDup; [| apply seq_NoDup].
  intros x y H. lia.
Qed.

Lemma range_shift (lo hi c : Z) :
  map (fun x => x + c)%Z (range lo hi) = range (lo + c) (hi + c).
Proof.
  unfold range. rewrite map_map.
  replace (hi + c - (lo + c))%Z with (hi - lo)%Z by lia.
  apply map_ext. intros n. lia.
Qed.

Lemma range_0_seq (n : nat) : range 0 (Z.of_nat n) = map Z.of_nat (seq 0 n).
Proof.
  unfold range. rewrite Z.sub_0_r, Nat2Z.id. apply map_ext. intros; lia.
Qed.

Lemma product_map {A B} (f : A -> B) (ls : list (list A)) :
  product (map (map f) ls) = map (map f) (product ls).
Proof.
  induction ls as [| l ls IH]; simpl; [reflexivity |].
  rewrite IH. induction l as [| x l IHl]; simpl; [reflexivity |].
  rewrite map_app, IHl. f_equal. rewrite !map_map. reflexivity.
Qed.

Lemma product_single {A} (l : list A) :
  product [l] = map (fun x => [x]) l.
Proof.
  simpl. induction l as [| x l IH]; simpl; [reflexivity | now rewrite IH].
Qed.

Lemma product_NoDup {A} (ls : list (list A)) :
  Forall (@NoDup A) ls -> NoDup (product ls).
Proof.
  induction ls as [| l ls IH]; simpl; intros H.
  - constructor; [intros [] | constructor].
  - inversion H as [| l' ls' Hl Hls]; subst. specialize (IH Hls).
    clear H. induction l as [| x l IHl]; simpl; [constructor |].
    inversion Hl as [| x' l' Hx Hl']; subst.
    apply NoDup_app.
    + apply Injective_map_NoDup; [| exact IH].
      intros t u Heq. now inversion Heq.
    + now apply IHl.
    + intros t Ht Hin. apply in_map_iff in Ht.
      destruct Ht as (t' & <- & _). apply in_flat_map in Hin.
      destruct Hin as (y & Hy & Hin). apply in_map_iff in Hin.
      destruct Hin as (u & Heq & _). inversion Heq; subst. tauto.
Qed.

Lemma product_length {A} (ls : list (list A)) :
  length (product ls) = size_of (map (@length A) ls).
Proof.
  induction ls as [| l ls IH]; simpl; [reflexivity |].
  rewrite <- IH. induction l as [| x l IHl]; simpl; [reflexivity |].
  rewrite length_app, length_map, IHl. reflexivity.
Qed.

(** *** Cells of an array *)

Lemma list_set_length {A} (p : nat) (v : A) (l : list A) :
  length (list_set p v l) = length l.
Proof.
  revert p. induction l as [| x l IH]; intros [| p]; simpl; auto.
Qed.

Lemma nth_error_list_set_eq {A} (p : nat) (v : A) (l : list A) :
  (p < length l)%nat -> nth_error (list_set p v l) p = Some v.
Proof.
  revert p. induction l as [| x l IH]; intros [| p]; simpl; intros H;
    try lia; [reflexivity | apply IH; lia].
Qed.

Lemma nth_error_list_set_neq {A} (p q : nat) (v : A) (l : list A) :
  p <> q -> nth_error (list_set p v l) q = nth_error l q.
Proof.
  revert p q. induction l as [| x l IH]; intros [| p] [| q]; simpl;
    intros H; try reflexivity; try lia.
  apply IH. lia.
Qed.

Lemma list_set_middle {A} (pre : list A) (x v : A) (post : list A) :
  list_set (length pre) v (pre ++ x :: post) = pre ++ v :: post.
Proof. induction pre as [| y pre IH]; simpl; [reflexivity | now rewrite IH]. Qed.

Lemma assign_all_length {A} (pvs : list (nat * A)) (l : list A) :
  length (fold_left assign pvs l) = length l.
Proof.
  revert l. induction pvs as [| pv pvs IH]; simpl; intros l; [reflexivity |].
  rewrite IH. apply list_set_length.
Qed.

(** A cell no assignment addresses keeps its value. *)
Lemma assign_all_other {A} (pvs : list (nat * A)) (l : list A) (q : nat) :
  ~ In q (map fst pvs) ->
  nth_error (fold_left assign pvs l) q = nth_error l q.
Proof.
  revert l. induction pvs as [| [p v] pvs IH]; simpl; intros l Hq;
    [reflexivity |].
  rewrite IH by tauto. unfold assign. simpl.
  apply nth_error_list_set_neq. tauto.
Qed.

(** With pairwise distinct positions, every assignment is visible in
    the result. *)
Lemma assign_all_hit {A} (pvs : list (nat * A)) (l : list A) (p : nat) (v : A) :
  NoDup (map fst pvs) ->
  Forall (fun pv => (fst pv < length l)%nat) pvs ->
  In (p, v) pvs ->
  nth_error (fold_left assign pvs l) p = Some v.
Proof.
  revert l. induction pvs as [| [p' v'] pvs IH]; simpl; intros l Hnd Hlt Hin;
    [destruct Hin |].
  inversion Hnd as [| ? ? Hp' Hnd']; subst.
  inversion Hlt as [| ? ? Hlt1 Hlt']; subst. simpl in Hlt1.
  destruct Hin as [Heq | Hin].
  - inversion Heq; subst. rewrite assign_all_other by exact Hp'.
    unfold assign. simpl. now apply nth_error_list_set_eq.
  - apply IH; auto. unfold assign. simpl.
    rewrite Forall_forall in *. intros pv Hpv.
    rewrite list_set_length. now apply Hlt'.
Qed.

(** Assigning the cells [0, 1, ...] in order writes the list of values. *)
Lemma assign_all_seq {A} (vals base pre : list A) :
  length base = length vals ->
  fold_left assign (combine (seq (length pre) (length vals)) vals)
            (pre ++ base)
  = pre ++ vals.
Proof.
  revert base pre. induction vals as [| v vals IH]; intros base pre Hlen.
  - destruct base; [reflexivity | discriminate].
  - destruct base as [| b base]; [discriminate |]. simpl.
    unfold assign at 2. simpl. rewrite list_set_middle.
    replace (pre ++ v :: base) with ((pre ++ [v]) ++ base)
      by (rewrite <- app_assoc; reflexivity).
    replace (S (length pre)) with (length (pre ++ [v]))
      by (rewrite length_app; simpl; lia).
    rewrite IH by (simpl in Hlen; lia).
    rewrite <- app_assoc. reflexivity.
Qed.

(** *** Index tuples *)

Lemma norm_index_in_range (n : nat) (i : Z) :
  (0 <= i < Z.of_nat n)%Z -> norm_index n i = Ok (Z.to_nat i).
Proof.
  intros H. unfold norm_index.
  destruct (Z.leb_spec 0 i); [| lia].
  destruct (Z.ltb_spec i (Z.of_nat n)); [reflexivity | lia].
Qed.

Lemma offset_of_lt (sh : list nat) (idx : list Z) :
  in_bounds sh idx -> (offset_of sh idx < size_of sh)%nat.
Proof.
  induction 1 as [| n i sh idx Hi _ IH]; simpl; [lia |].
  assert (Z.to_nat i < n)%nat by lia. nia.
Qed.

Lemma ravel_index_in_bounds (sh : list nat) (idx : list Z) :
  in_bounds sh idx -> ravel_index sh idx = Ok (offset_of sh idx).
Proof.
  induction 1 as [| n i sh idx Hi _ IH]; simpl; [reflexivity |].
  rewrite norm_index_in_range by exact Hi. simpl. rewrite IH. reflexivity.
Qed.

(** Distinct index tuples address distinct cells. *)
Lemma offset_of_inj (sh : list nat) (idx idx' : list Z) :
  in_bounds sh idx -> in_bounds sh idx' ->
  offset_of sh idx = offset_of sh idx' -> idx = idx'.
Proof.
  intros H. revert idx'.
  induction H as [| n i sh idx Hi Hb IH]; intros idx' H' Heq.
  - inversion H'. reflexivity.
  - inversion H' as [| n' i' sh' idx'' Hi' Hb']; subst. simpl in Heq.
    pose proof (offset_of_lt _ _ Hb) as L1.
    pose proof (offset_of_lt _ _ Hb') as L2.
    assert (Hq : Z.to_nat i = Z.to_nat i' /\
                 offset_of sh idx = offset_of sh idx'').
    { apply (Nat.div_mod_unique (size_of sh)); [exact L1 | exact L2 | lia]. }
    destruct Hq as [Hq1 Hq2].
    f_equal; [lia | now apply IH].
Qed.

Lemma seq_base (c s n : nat) :
  map (fun r => c + r)%nat (seq s n) = seq (c + s) n.
Proof.
  revert s. induction n as [| n IH]; intros s; simpl; [reflexivity |].
  rewrite IH. f_equal. f_equal. lia.
Qed.

(** The tuples of [product] of the axes' ranges are the cells in
    row-major order. *)
Lemma offset_of_product (sh : list nat) :
  map (offset_of sh) (product (map (fun n => range 0 (Z.of_nat n)) sh))
  = seq 0 (size_of sh).
Proof.
  induction sh as [| n sh IH]; [reflexivity |].
  cbn [map product size_of fold_right].
  fold (size_of sh).
  set (rows := product (map (fun n => range 0 (Z.of_nat n)) sh)) in *.
  rewrite range_0_seq.
  assert (G : forall b m,
             map (offset_of (n :: sh))
                 (flat_map (fun x => map (cons x) rows)
                           (map Z.of_nat (seq b m)))
             = seq (b * size_of sh) (m * size_of sh)).
  { intros b m. revert b. induction m as [| m IHm]; intros b;
      [reflexivity |].
    cbn [seq map flat_map]. rewrite map_app, IHm, map_map.
    cbn [offset_of]. rewrite Nat2Z.id.
    rewrite <- (map_map (offset_of sh) (fun r => b * size_of sh + r)%nat).
    rewrite IH, seq_base.
    replace (S m * size_of sh)%nat with (size_of sh + m * size_of sh)%nat
      by lia.
    rewrite seq_app. f_equal; f_equal; lia. }
  apply (G 0%nat n).
Qed.

Lemma in_bounds_length (sh : list nat) (idx : list Z) :
  in_bounds sh idx -> length idx = length sh.
Proof. induction 1; simpl; congruence. Qed.

Lemma In_product_ranges (sh : list nat) (t : list Z) :
  In t (product (map (fun n => range 0 (Z.of_nat n)) sh)) <-> in_bounds sh t.
Proof.
  revert t. induction sh as [| n sh IH]; simpl; intros t.
  - split.
    + intros [<- | []]. constructor.
    + intros H. inversion H. now left.
  - rewrite in_flat_map. split.
    + intros (x & Hx & Hin). apply in_map_iff in Hin.
      destruct Hin as (t' & <- & Ht'). apply In_range in Hx.
      constructor; [lia | now apply IH].
    + intros H. inversion H as [| n' x sh' t' Hx Hrest]; subst.
      exists x. split; [apply In_range; lia |]. apply in_map_iff.
      exists t'. split; [reflexivity | now apply IH].
Qed.

(** *** Assignment through index tuples *)

Lemma setitem_in_bounds (sh : list nat) (idxs : list (list Z))
      (vals data : list cell) :
  Forall (in_bounds sh) idxs ->
  setitem (mk_ndarray sh data) idxs vals
  = Ok (mk_ndarray sh
          (fold_left assign (combine (map (offset_of sh) idxs) vals) data)).
Proof.
  unfold setitem. revert vals data.
  induction idxs as [| idx idxs IH]; intros vals data H; [reflexivity |].
  inversion H as [| ? ? Hb Hrest]; subst.
  destruct vals as [| v vals]; [reflexivity |].
  cbn [combine map foldM fold_left fst snd shape Numpy.data].
  rewrite ravel_index_in_bounds by exact Hb.
  cbn [bind]. rewrite IH by exact Hrest. reflexivity.
Qed.

Lemma combine_map_fst {A B C} (f : A -> C) (l : list (A * B)) :
  combine (map f (map fst l)) (map snd l)
  = map (fun tv => (f (fst tv), snd tv)) l.
Proof. induction l as [| [a b] l IH]; simpl; [reflexivity | now rewrite IH]. Qed.

Lemma NoDup_map_on {A B} (f : A -> B) (l : list A) :
  (forall x y, In x l -> In y l -> f x = f y -> x = y) ->
  NoDup l -> NoDup (map f l).
Proof.
  induction l as [| a l IH]; simpl; intros Hinj Hnd; [constructor |].
  inversion Hnd as [| ? ? Ha Hnd']; subst. constructor.
  - intros Hin. apply in_map_iff in Hin. destruct Hin as (y & Heq & Hy).
    assert (y = a) by (apply Hinj; auto). subst. tauto.
  - apply IH; auto.
Qed.

(** *** The column maxima of a table of integers *)

Lemma map2_length {A B C} (f : A -> B -> C) (l : list A) (m : list B) :
  length l = length m -> length (map2 f l m) = length l.
Proof.
  revert m. induction l as [| a l IH]; intros [| b m]; simpl; intros H;
    try discriminate; [reflexivity |]. rewrite IH; [reflexivity | lia].
Qed.

Lemma nth_map2_max (l m : list Z) (j : nat) :
  length l = length m ->
  nth j (map2 Z.max l m) 0%Z = Z.max (nth j l 0%Z) (nth j m 0%Z).
Proof.
  revert m j. induction l as [| a l IH]; intros [| b m] [| j]; simpl;
    intros H; try discriminate; try reflexivity.
  apply IH. lia.
Qed.

Lemma max_axis0_loop (r : nat) (rs : list (list Z)) (acc : list Z) :
  length acc = r ->
  Forall (fun row => length row = r) rs ->
  exists m,
    foldM (fun acc row =>
             if (length row =? length acc)%nat
             then Ok (map2 Z.max acc row)
             else Raise ValueError) rs acc = Ok m /\
    length m = r /\
    (forall j, (nth j acc 0 <= nth j m 0)%Z) /\
    (forall row, In row rs -> forall j, (nth j row 0 <= nth j m 0)%Z) /\
    (forall j, nth j m 0%Z = nth j acc 0%Z \/
               exists row, In row rs /\ nth j m 0%Z = nth j row 0%Z).
Proof.
  intros Hacc Hrs. revert acc Hacc.
  induction Hrs as [| row rs Hrow _ IH]; intros acc Hacc.
  - exists acc. simpl. repeat split; auto; try lia; tauto.
  - cbn [foldM]. rewrite Hrow, Hacc, Nat.eqb_refl. cbn [bind].
    destruct (IH (map2 Z.max acc row)) as (m & Hm & Hlen & H1 & H2 & H3).
    { rewrite map2_length; congruence. }
    exists m. split; [exact Hm |]. split; [exact Hlen |].
    assert (Hnth : forall j, nth j (map2 Z.max acc row) 0%Z
                             = Z.max (nth j acc 0%Z) (nth j row 0%Z))
      by (intros j; apply nth_map2_max; congruence).
    split; [| split].
    + intros j. specialize (H1 j). rewrite Hnth in H1. lia.
    + intros row' [<- | Hin] j.
      * specialize (H1 j). rewrite Hnth in H1. lia.
      * now apply H2.
    + intros j. destruct (H3 j) as [Heq | (row' & Hin & Heq)].
      * rewrite Hnth in Heq.
        destruct (Z.max_spec (nth j acc 0%Z) (nth j row 0%Z)) as [[_ E] | [_ E]];
          rewrite E in Heq.
        -- right. exists row. split; [now left | exact Heq].
        -- now left.
      * right. exists row'. split; [now right | exact Heq].
Qed.

(** [max_axis0] on a non-empty rectangle returns, for every column, a
    bound of the column that one of the rows attains. *)
Lemma max_axis0_spec (r : nat) (rows : list (list Z)) :
  rows <> [] ->
  Forall (fun row => length row = r) rows ->
  exists m,
    max_axis0 rows = Ok m /\
    length m = r /\
    (forall row, In row rows -> forall j, (nth j row 0 <= nth j m 0)%Z) /\
    (forall j, exists row, In row rows /\ nth j m 0%Z = nth j row 0%Z).
Proof.
  intros Hne Hall. destruct rows as [| r0 rs]; [congruence |].
  inversion Hall as [| ? ? Hr0 Hrs]; subst.
  destruct (max_axis0_loop (length r0) rs r0 eq_refl Hrs)
    as (m & Hm & Hlen & H1 & H2 & H3).
  exists m. split; [exact Hm |]. split; [exact Hlen |]. split.
  - intros row [<- | Hin] j; [apply H1 | now apply H2].
  - intros j. destruct (H3 j) as [Heq | (row & Hin & Heq)].
    + exists r0. split; [now left | exact Heq].
    + exists row. split; [now right | exact Heq].
Qed.

End NumpyFacts.

(* ================================================================== *)
(** ** utils.py: conversion between arrays and keyed maps              *)
(* ================================================================== *)

Module UtilsFacts.
Import Py Numpy Utils PyFacts NumpyFacts.

(** The loop that builds [dok_adj]. *)
Lemma adjust_loop (off : Z) (d : dok) (items acc : list (list Z * cell)) :
  Forall2 (fun kv tv => adjust_key off (fst kv) = Ok (fst tv)
                        /\ snd tv = snd kv) d items ->
  NoDup (map fst (acc ++ items)) ->
  foldM (fun acc kv =>
           k' <- adjust_key off (fst kv) ;;
           Ok (dict_set tuple_eqb k' (snd kv) acc)) d acc
  = Ok (acc ++ items).
Proof.
  intros H. revert acc.
  induction H as [| kv tv d items [Hk Hv] _ IH]; intros acc Hnd.
  - now rewrite app_nil_r.
  - cbn [foldM]. rewrite Hk. cbn [bind].
    rewrite dict_set_fresh.
    + rewrite IH; rewrite <- app_assoc; simpl; rewrite <- Hv;
        destruct tv; [reflexivity | exact Hnd].
    + exact tuple_eqb_eq.
    + rewrite map_app in Hnd. simpl in Hnd.
      apply NoDup_remove_2 in Hnd. intros Hin. apply Hnd.
      apply in_or_app. now left.
Qed.

(** [dok_to_array], once the adjusted entries are known to be distinct
    and to fit the shape they determine, and the values to convert to
    [float64]. *)
Lemma dok_to_array_run (off : Z) (d : dok) (items : list (list Z * cell))
      (m : list Z) (vals : list cell) :
  Forall2 (fun kv tv => adjust_key off (fst kv) = Ok (fst tv)
                        /\ snd tv = snd kv) d items ->
  NoDup (map fst items) ->
  max_axis0 (map fst items) = Ok m ->
  Forall (fun x => 0 <= x - off)%Z m ->
  Forall (in_bounds (map Z.to_nat (map (fun x => x - off)%Z m)))
         (map fst items) ->
  mapM as_float64 (map snd items) = Ok vals ->
  dok_to_array d off
  = Ok (mk_ndarray
          (map Z.to_nat (map (fun x => x - off)%Z m))
          (fold_left assign
             (combine
                (map (offset_of (map Z.to_nat (map (fun x => x - off)%Z m)))
                     (map fst items))
                vals)
             (repeat NaN
                (size_of (map Z.to_nat (map (fun x => x - off)%Z m)))))).
Proof.
  intros HF Hnd Hmax Hpos Hin Hvals. unfold dok_to_array.
  rewrite (adjust_loop off d items []) by assumption.
  cbn [bind app]. unfold keys, values. rewrite Hmax. cbn [bind].
  unfold full.
  replace (forallb (fun n => 0 <=? n)%Z (map (fun x => x - off)%Z m))
    with true.
  - cbn [bind]. rewrite Hvals. cbn [bind].
    now rewrite setitem_in_bounds by exact Hin.
  - symmetry. apply forallb_forall. intros x Hx.
    apply in_map_iff in Hx. destruct Hx as (y & <- & Hy).
    rewrite Forall_forall in Hpos. apply Z.leb_le. now apply Hpos.
Qed.

Section Adjusted.
Variables (off : Z) (d : dok).
Hypothesis Hkeys :
  forall k, In k (keys d) -> exists t, adjust_key off k = Ok t.

Lemma adjusted_Forall2 :
  Forall2 (fun kv tv => adjust_key off (fst kv) = Ok (fst tv)
                        /\ snd tv = snd kv) d (adjusted off d).
Proof.
  unfold adjusted. revert Hkeys.
  induction d as [| [k v] d' IH]; intros H; simpl; constructor.
  - destruct (H k) as (t & Ht); [now left |]. simpl. rewrite Ht. auto.
  - apply IH. intros k' Hk'. apply H. now right.
Qed.

Lemma adjusted_keys :
  map Ok (map fst (adjusted off d)) = map (adjust_key off) (keys d).
Proof.
  unfold adjusted, keys. revert Hkeys.
  induction d as [| [k v] d' IH]; intros H; simpl; [reflexivity |].
  destruct (H k) as (t & Ht); [now left |]. rewrite Ht. f_equal.
  apply IH. intros k' Hk'. apply H. now right.
Qed.


Lemma adjusted_row (t : list Z) :
  In t (map fst (adjusted off d)) ->
  exists k, In k (keys d) /\ adjust_key off k = Ok t.
Proof.
  unfold adjusted. rewrite map_map. simpl. intros Hin.
  apply in_map_iff in Hin. destruct Hin as ([k v] & Heq & Hin).
  simpl in Heq. exists k. split.
  - unfold keys. apply in_map_iff. exists (k, v). auto.
  - destruct (Hkeys k) as (t' & Ht').
    + unfold keys. apply in_map_iff. exists (k, v). auto.
    + rewrite Ht' in Heq. congruence.
Qed.
End Adjusted.

(** The stored entries: the adjusted keys, with the converted values. *)
Lemma stored_keys (off : Z) (d : dok) :
  map fst (stored off d) = map fst (adjusted off d).
Proof. unfold stored. rewrite map_map. reflexivity. Qed.

Lemma stored_values (off : Z) (d : dok) :
  (forall v, In v (values d) -> exists c, as_float64 v = Ok c) ->
  mapM as_float64 (map snd (adjusted off d)) = Ok (map snd (stored off d)).
Proof.
  intros Hv. unfold stored. rewrite map_map. cbn [snd].
  rewrite <- (map_map snd (fun v => match as_float64 v with
                                    | Ok c => c
                                    | Raise _ => NaN
                                    end)).
  apply mapM_Ok. intros v Hin.
  assert (Hin' : In v (values d)).
  { unfold adjusted in Hin. rewrite map_map in Hin. exact Hin. }
  destruct (Hv v Hin') as (c & Hc). now rewrite Hc.
Qed.

Lemma stored_In (off : Z) (d : dok) (k : key) (v c : cell) (t : list Z) :
  In (k, v) d -> adjust_key off k = Ok t -> as_float64 v = Ok c ->
  In (t, c) (stored off d).
Proof.
  intros Hin Ht Hc. unfold stored, adjusted. rewrite map_map.
  apply in_map_iff. exists (k, v). simpl. rewrite Ht, Hc. auto.
Qed.

Lemma Forall2_of_nth {A B} (P : A -> B -> Prop) (da : A) (db : B)
      (l : list A) (m : list B) :
  length l = length m ->
  (forall j, (j < length l)%nat -> P (nth j l da) (nth j m db)) ->
  Forall2 P l m.
Proof.
  revert m. induction l as [| a l IH]; intros [| b m] Hlen H;
    try discriminate; constructor.
  - apply (H 0%nat). simpl. lia.
  - apply IH; [simpl in Hlen; lia |].
    intros j Hj. apply (H (S j)). simpl. lia.
Qed.

Lemma nth_nonneg (t : list Z) (j : nat) :
  Forall (fun c => 0 <= c)%Z t -> (0 <= nth j t 0)%Z.
Proof.
  intros H. revert j. induction H as [| c t Hc _ IH]; intros [| j]; simpl;
    auto; lia.
Qed.

Lemma nth_shape (off : Z) (m : list Z) (j : nat) :
  (j < length m)%nat ->
  nth j (map Z.to_nat (map (fun x => x - off)%Z m)) 0%nat
  = Z.to_nat (nth j m 0%Z - off).
Proof.
  intros Hj. rewrite map_map.
  rewrite (nth_indep _ 0%nat (Z.to_nat (0 - off)))
    by (rewrite length_map; exact Hj).
  apply (map_nth (fun x => Z.to_nat (x - off))).
Qed.

(** What [dok_to_array] returns on a non-empty map whose keys adjust to
    distinct tuples of one arity with non-negative coordinates, under a
    negative offset, and whose values convert to [float64]. *)
Lemma dok_to_array_result (d : dok) (off : Z) (r : nat) :
  d <> [] ->
  (off < 0)%Z ->
  (forall k, In k (keys d) ->
             exists t, adjust_key off k = Ok t /\ length t = r /\
                       Forall (fun c => 0 <= c)%Z t) ->
  NoDup (map (adjust_key off) (keys d)) ->
  (forall v, In v (values d) -> exists c, as_float64 v = Ok c) ->
  exists m,
    let sh := map Z.to_nat (map (fun x => x - off)%Z m) in
    length m = r /\
    (forall t, In t (map fst (adjusted off d)) ->
               forall j, (nth j t 0 <= nth j m 0)%Z) /\
    (forall j, exists t, In t (map fst (adjusted off d)) /\
                         nth j m 0%Z = nth j t 0%Z) /\
    NoDup (map fst (adjusted off d)) /\
    Forall (in_bounds sh) (map fst (adjusted off d)) /\
    dok_to_array d off
    = Ok (mk_ndarray sh
            (fold_left assign
               (map (fun tv => (offset_of sh (fst tv), snd tv))
                    (stored off d))
               (repeat NaN (size_of sh)))).
Proof.
  intros Hne Hoff Hkeys Hnd Hvals.
  assert (Hk' : forall k, In k (keys d) -> exists t, adjust_key off k = Ok t).
  { intros k Hk. destruct (Hkeys k Hk) as (t & Ht & _). eauto. }
  assert (Hrow : forall t, In t (map fst (adjusted off d)) ->
                           length t = r /\ Forall (fun c => 0 <= c)%Z t).
  { intros t Ht. destruct (adjusted_row off d Hk' t Ht) as (k & Hk & Hkt).
    destruct (Hkeys k Hk) as (t' & Ht' & Hlen & Hpos).
    rewrite Hkt in Ht'. inversion Ht'; subst. auto. }
  assert (Hnd' : NoDup (map fst (adjusted off d))).
  { rewrite <- (adjusted_keys off d Hk') in Hnd.
    now apply NoDup_map_inv in Hnd. }
  destruct (max_axis0_spec r (map fst (adjusted off d)))
    as (m & Hmax & Hlen & Hub & Hatt).
  { destruct d; [congruence | discriminate]. }
  { apply Forall_forall. intros t Ht. now apply Hrow. }
  assert (Hm0 : forall j, (0 <= nth j m 0)%Z).
  { intros j. destruct (Hatt j) as (t & Ht & ->).
    apply nth_nonneg. now apply Hrow. }
  assert (Hb : Forall (in_bounds (map Z.to_nat (map (fun x => x - off)%Z m)))
                      (map fst (adjusted off d))).
  { apply Forall_forall. intros t Ht. destruct (Hrow t Ht) as [Hlt Hpos].
    apply (Forall2_of_nth _ 0%nat 0%Z).
    - rewrite !length_map. congruence.
    - intros j Hj. rewrite !length_map in Hj. rewrite nth_shape by exact Hj.
      pose proof (nth_nonneg t j Hpos). specialize (Hub t Ht j).
      specialize (Hm0 j). lia. }
  exists m. cbv zeta.
  split; [exact Hlen |]. split; [exact Hub |]. split; [exact Hatt |].
  split; [exact Hnd' |]. split; [exact Hb |].
  rewrite <- combine_map_fst, stored_keys.
  apply dok_to_array_run; auto.
  - now apply adjusted_Forall2.
  - apply Forall_forall. intros x Hx.
    destruct (In_nth m x 0%Z Hx) as (j & _ & <-). specialize (Hm0 j). lia.
  - now apply stored_values.
Qed.

End UtilsFacts.

(* ================================================================== *)
(** ** The conversions of utils.py                                     *)
(* ================================================================== *)

Module Conversion.
Import Py Numpy Utils PyFacts NumpyFacts UtilsFacts.

Lemma keys_In (d : dok) (k : key) :
  In k (keys d) <-> exists v, In (k, v) d.
Proof.
  unfold keys. rewrite in_map_iff. split.
  - intros ([k' v] & Heq & Hin). simpl in Heq. subst. eauto.
  - intros (v & Hin). exists (k, v). auto.
Qed.

(** C8, as stated, fails, by a slip of the code: [dok_to_array] should
    turn every non-empty keyed map with keys of one arity into an array,
    under the index offset the caller gives, with every keyed cell
    holding its key's value; but it computes the shape as the largest
    adjusted coordinate minus the offset, which is the needed length
    (the largest coordinate plus one) at the default offset -1 only.
    With the offset 0 the one-entry map [{(1,): 7}] gets the shape
    [(1,)] and the index 1, which is out of bounds: an [IndexError], and
    no array. *)
Lemma dok_to_array_counterexample :
  dok_to_array [(KTuple [1%Z], Num 7)] 0 = Raise IndexError.
Proof. vm_compute. reflexivity. Qed.



Lemma combine_map_l {A B C} (f : A -> C) (l : list A) (vs : list B) :
  combine (map f l) vs = map (fun tv => (f (fst tv), snd tv)) (combine l vs).
Proof.
  revert vs. induction l as [| a l IH]; intros [| v vs]; simpl;
    try reflexivity. now rewrite IH.
Qed.

Lemma map_fst_combine {A B} (l : list A) (vs : list B) :
  length l = length vs -> map fst (combine l vs) = l.
Proof.
  revert vs. induction l as [| a l IH]; intros [| v vs]; simpl; intros H;
    try discriminate; [reflexivity |]. rewrite IH; [reflexivity | lia].
Qed.

Lemma rows_length (sh : list nat) :
  length (product (map (fun n => range 0 (Z.of_nat n)) sh)) = size_of sh.
Proof.
  rewrite product_length, map_map. f_equal.
  rewrite <- (map_id sh) at 2. apply map_ext. intros n.
  rewrite range_length. lia.
Qed.

Lemma rows_NoDup (sh : list nat) :
  NoDup (product (map (fun n => range 0 (Z.of_nat n)) sh)).
Proof.
  apply product_NoDup. apply Forall_forall. intros l Hl.
  apply in_map_iff in Hl. destruct Hl as (n & <- & _). apply range_NoDup.
Qed.

Lemma shift_back (t : list Z) :
  map (fun x => x + -1)%Z (map (fun x => x + 1)%Z t) = t.
Proof.
  rewrite map_map. rewrite <- (map_id t) at 2. apply map_ext. intros; lia.
Qed.

(** The keyed map of an array: one entry per cell, in row-major order,
    under a key that the default offset takes back to the cell's index
    tuple. *)
Lemma array_to_dok_entries (sh : list nat) (cells : list cell) :
  (1 <= length sh)%nat ->
  length cells = size_of sh ->
  exists key_of : list Z -> key,
    array_to_dok (mk_ndarray sh cells)
    = Ok (map (fun tv => (key_of (fst tv), snd tv))
              (combine (product (map (fun n => range 0 (Z.of_nat n)) sh))
                       cells)) /\
    forall t, In t (product (map (fun n => range 0 (Z.of_nat n)) sh)) ->
              adjust_key (-1) (key_of t) = Ok t.
Proof.
  intros Hdim Hlen. unfold array_to_dok, ndim, ravel. cbn [shape data].
  pose proof (rows_length sh) as Hrows.
  pose proof (rows_NoDup sh) as Hnd.
  set (rows := product (map (fun n => range 0 (Z.of_nat n)) sh)) in *.
  destruct (Nat.ltb_spec 1 (length sh)) as [Hnd2 | H1d].
  - exists (fun t => KTuple (map (fun x => x + 1)%Z t)). split.
    + replace (map (fun i => range 1 (Z.of_nat i + 1)) sh)
        with (map (map (fun x => x + 1)%Z)
                  (map (fun n => range 0 (Z.of_nat n)) sh)).
      2:{ rewrite map_map. apply map_ext. intros n.
          now rewrite range_shift. }
      rewrite product_map. fold rows. rewrite map_map, combine_map_l.
      rewrite dict_of_NoDup; [reflexivity | exact key_eqb_eq |].
      rewrite map_map. cbn [fst].
      rewrite <- (map_map fst (fun t => KTuple (map (fun x => x + 1)%Z t))).
      rewrite map_fst_combine by congruence.
      apply Injective_map_NoDup; [| exact Hnd].
      intros t u Heq. inversion Heq as [Hm].
      apply (f_equal (map (fun x => x + -1)%Z)) in Hm.
      now rewrite !shift_back in Hm.
    + intros t _. simpl. now rewrite shift_back.
  - destruct sh as [| n [| n' sh']]; simpl in Hdim, H1d; try lia.
    exists (fun t => KInt (hd 0%Z t + 1)).
    unfold rows in *. cbn [map] in *. rewrite product_single in *.
    assert (Hn : length cells = n) by (simpl in Hlen; lia).
    split.
    + unfold enumerate. rewrite Hn, combine_map_l, map_map. cbn [fst snd hd].
      rewrite dict_of_NoDup; [reflexivity | exact key_eqb_eq |].
      rewrite map_map. cbn [fst].
      rewrite <- (map_map fst (fun x => KInt (x + 1))).
      rewrite map_fst_combine by (rewrite range_length; lia).
      apply Injective_map_NoDup; [| apply range_NoDup].
      intros x y Heq. inversion Heq. lia.
    + intros t Ht. apply in_map_iff in Ht. destruct Ht as (x & <- & _).
      simpl. do 2 f_equal. lia.
Qed.

Lemma Forall2_nth_elim {A B} (P : A -> B -> Prop) (da : A) (db : B)
      (l : list A) (m : list B) (j : nat) :
  Forall2 P l m -> (j < length l)%nat -> P (nth j l da) (nth j m db).
Proof.
  intros H. revert j. induction H as [| a b l m Hab _ IH]; intros [| j];
    simpl; intros Hj; try lia; [exact Hab | apply IH; lia].
Qed.

Lemma nth_corner (sh : list nat) (j : nat) :
  (j < length sh)%nat ->
  nth j (map (fun n => Z.of_nat n - 1)%Z sh) 0%Z
  = (Z.of_nat (nth j sh 0%nat) - 1)%Z.
Proof.
  intros Hj.
  rewrite (nth_indep _ 0%Z (Z.of_nat 0 - 1)%Z) by (now rewrite length_map).
  apply (map_nth (fun n => Z.of_nat n - 1)%Z).
Qed.

(** The column maxima of the index tuples of an array without empty
    axes are its last indices. *)
Lemma max_axis0_rows (sh : list nat) :
  Forall (fun n => 1 <= n)%nat sh ->
  max_axis0 (product (map (fun n => range 0 (Z.of_nat n)) sh))
  = Ok (map (fun n => Z.of_nat n - 1)%Z sh).
Proof.
  intros Hpos.
  assert (Hcorner : in_bounds sh (map (fun n => Z.of_nat n - 1)%Z sh)).
  { induction Hpos as [| n sh Hn _ IH]; simpl; constructor; [lia | exact IH]. }
  apply In_product_ranges in Hcorner.
  destruct (max_axis0_spec (length sh)
              (product (map (fun n => range 0 (Z.of_nat n)) sh)))
    as (m & Hm & Hlen & Hub & Hatt).
  { intros Hnil. rewrite Hnil in Hcorner. destruct Hcorner. }
  { apply Forall_forall. intros t Ht. apply In_product_ranges in Ht.
    now apply in_bounds_length. }
  rewrite Hm. f_equal.
  apply (nth_ext _ _ 0%Z 0%Z); [now rewrite length_map |].
  intros j Hj. rewrite Hlen in Hj. rewrite nth_corner by exact Hj.
  pose proof (Hub _ Hcorner j) as Hlo. rewrite nth_corner in Hlo by exact Hj.
  destruct (Hatt j) as (t & Ht & Heq). apply In_product_ranges in Ht.
  pose proof (Forall2_nth_elim _ 0%nat 0%Z sh t j Ht Hj) as Hhi.
  simpl in Hhi. lia.
Qed.

Lemma cells_eqb_refl (l : list cell) :
  Forall (fun c => c <> NaN) l -> cells_eqb l l = true.
Proof.
  induction 1 as [| c l Hc _ IH]; simpl; [reflexivity |].
  rewrite IH, andb_true_r. destruct c as [q |]; [| congruence].
  simpl. apply Qeq_bool_iff. reflexivity.
Qed.

(** C7, as stated, fails twice.  On an array without cells: the keyed
    map of the empty 1-dimensional array is empty, and [dok_to_array]
    raises on the empty map.  And on a cell that [float64] cannot hold:
    the array returned is a [float64] array, so the integer [2^53 + 1]
    comes back as [2^53], and the arrays differ. *)
Lemma roundtrip_counterexample :
  (well_formed (mk_ndarray [0%nat] []) /\
   Forall (fun c => c <> NaN) (data (mk_ndarray [0%nat] [])) /\
   array_to_dok (mk_ndarray [0%nat] []) = Ok [] /\
   dok_to_array [] default_index_offset = Raise ValueError) /\
  (well_formed (mk_ndarray [1%nat] [Num 9007199254740993]) /\
   array_to_dok (mk_ndarray [1%nat] [Num 9007199254740993])
   = Ok [(KInt 1, Num 9007199254740993)] /\
   dok_to_array [(KInt 1, Num 9007199254740993)] default_index_offset
   = Ok (mk_ndarray [1%nat] [Num 9007199254740992]) /\
   array_equal (mk_ndarray [1%nat] [Num 9007199254740992])
               (mk_ndarray [1%nat] [Num 9007199254740993]) = false).
Proof.
  split.
  - repeat split. constructor.
  - repeat split; vm_compute; reflexivity.
Qed.

(** C7, amended. For every array [X] of one or more dimensions that has
    at least one cell (no axis of length 0), no missing cell, and only
    cells that are [float64] values (the conversion to [float64] leaves
    them as they are), [dok_to_array(array_to_dok(X))] with the default
    index offset of -1 returns an array equal to [X]: same shape, same
    cell values. *)
Theorem roundtrip (X : ndarray) :
  well_formed X ->
  (1 <= ndim X)%nat ->
  Forall (fun n => 1 <= n)%nat (shape X) ->
  Forall (fun c => c <> NaN) (data X) ->
  Forall is_float64 (data X) ->
  exists d res,
    array_to_dok X = Ok d /\
    dok_to_array d default_index_offset = Ok res /\
    shape res = shape X /\ data res = data X /\
    array_equal res X = true.
Proof.
  destruct X as [sh cells]. unfold well_formed, ndim. cbn [shape data].
  intros Hwf Hdim Hpos Hnan Hf64.
  destruct (array_to_dok_entries sh cells Hdim Hwf) as (key_of & Hd & Hadj).
  pose proof (rows_length sh) as Hrows.
  set (rows := product (map (fun n => range 0 (Z.of_nat n)) sh)) in *.
  set (items := combine rows cells) in *.
  assert (Hfst : map fst items = rows)
    by (apply map_fst_combine; congruence).
  assert (Hsh : map Z.to_nat
                    (map (fun x => x - default_index_offset)%Z
                         (map (fun n => Z.of_nat n - 1)%Z sh)) = sh).
  { rewrite !map_map. rewrite <- (map_id sh) at 2. apply map_ext.
    intros n. unfold default_index_offset. lia. }
  eexists. eexists. split; [exact Hd |].
  assert (Hsnd : map snd items = cells).
  { unfold items. clear - Hwf Hrows. rewrite <- Hrows in Hwf.
    revert cells Hwf. generalize rows. clear.
    induction rows as [| r rows IH]; intros [| c cells] H; simpl in *;
      try discriminate; [reflexivity |]. f_equal. apply IH. lia. }
  rewrite (dok_to_array_run default_index_offset _ items
                            (map (fun n => Z.of_nat n - 1)%Z sh) cells).
  - rewrite Hsh. split; [reflexivity |]. cbn [shape data].
    assert (Hdata : fold_left assign
                      (combine (map (offset_of sh) (map fst items)) cells)
                      (repeat NaN (size_of sh)) = cells).
    { rewrite Hfst. unfold rows.
      rewrite offset_of_product, <- Hwf.
      apply (assign_all_seq cells (repeat NaN (length cells)) []).
      apply repeat_length. }
    rewrite Hdata. split; [reflexivity |]. split; [reflexivity |].
    unfold array_equal. cbn [shape data].
    destruct (list_eq_dec Nat.eq_dec sh sh); [| congruence].
    simpl. now apply cells_eqb_refl.
  - assert (Hall : forall tv, In tv items ->
                              adjust_key default_index_offset (key_of (fst tv))
                              = Ok (fst tv)).
    { intros tv Htv. apply Hadj. rewrite <- Hfst. now apply in_map. }
    clear - Hall. induction items as [| tv items IH]; simpl; constructor.
    + split; [apply Hall; now left | reflexivity].
    + apply IH. intros tv' H'. apply Hall. now right.
  - rewrite Hfst. apply rows_NoDup.
  - rewrite Hfst. now apply max_axis0_rows.
  - apply Forall_forall. intros x Hx. apply in_map_iff in Hx.
    destruct Hx as (n & <- & _). unfold default_index_offset. lia.
  - rewrite Hsh, Hfst. apply Forall_forall. intros t Ht.
    now apply In_product_ranges.
  - rewrite Hsnd. rewrite <- (map_id cells) at 2.
    apply mapM_Ok. intros c Hc. rewrite Forall_forall in Hf64.
    exact (Hf64 c Hc).
Qed.

Lemma roundtrip_witness :
  exists d res,
    array_to_dok (mk_ndarray [2; 3]%nat
                             [Num 1; Num 2; Num 3; Num 4; Num 5; Num 6])
    = Ok d /\
    dok_to_array d default_index_offset = Ok res /\
    shape res = [2; 3]%nat /\
    data res = [Num 1; Num 2; Num 3; Num 4; Num 5; Num 6] /\
    array_equal res (mk_ndarray [2; 3]%nat
                                [Num 1; Num 2; Num 3; Num 4; Num 5; Num 6])
    = true.
Proof.
  apply (roundtrip (mk_ndarray [2; 3]%nat
                               [Num 1; Num 2; Num 3; Num 4; Num 5; Num 6])).
  - reflexivity.
  - unfold ndim. simpl. lia.
  - simpl. repeat constructor.
  - simpl. repeat constructor; discriminate.
  - simpl. repeat constructor; vm_compute; reflexivity.
Defined.

End Conversion.

(* ================================================================== *)
(** ** Facts about the multi-product model                             *)
(* ================================================================== *)

Module MultiFacts.
Import Py Pyomo PyFacts Multi.

Lemma create_instance_built dt inst :
  create_instance dt = Ok inst -> built dt inst.
Proof.
  unfold create_instance. intros H.
  bind_inv H. apply IntParam_Ok in Hx. destruct Hx as [-> Hm].
  bind_inv H. apply IntParam_Ok in Hx. destruct Hx as [-> Hs].
  bind_inv H. apply IntParam_Ok in Hx. destruct Hx as [-> Hk].
  do 10 (let x := fresh "u" in let Hx := fresh "Hu" in
         apply bind_Ok in H; destruct H as (x & Hx & H)).
  do 9 (let x := fresh "c" in let Hx := fresh "Hc" in
        apply bind_Ok in H; destruct H as (x & Hx & H)).
  inversion H; subst; clear H. constructor; simpl; auto.
Qed.

Section Built.
Variables (dt : data) (inst : instance).
Hypothesis HB : built dt inst.

Let m := mdl inst.

Lemma In_I i : In i (I m) <-> (1 <= i <= n_months dt)%Z.
Proof. unfold m. rewrite (b_mdl HB). simpl. apply In_RangeSet. Qed.

Lemma In_J j : In j (J m) <-> (1 <= j <= n_scenarios dt)%Z.
Proof. unfold m. rewrite (b_mdl HB). simpl. apply In_RangeSet. Qed.

Lemma In_K k : In k (K m) <-> (1 <= k <= n_skus dt)%Z.
Proof. unfold m. rewrite (b_mdl HB). simpl. apply In_RangeSet. Qed.

Lemma params_m : params m = dt.
Proof. unfold m. now rewrite (b_mdl HB). Qed.

Variable a : assignment.
Hypothesis HF : feasible inst a.

Lemma feasible_parts :
  Forall (holds a) (map snd (const_surplus_deficit inst)) /\
  Forall (holds a) (map snd (const_stock1 inst)) /\
  Forall (holds a) (map snd (const_stock inst)) /\
  Forall (holds a) (map snd (const_stock_buffer inst)) /\
  Forall (holds a) (map snd (const_stock_max inst)) /\
  Forall (holds a) (map snd (const_volume_bounds_demand inst)) /\
  Forall (holds a) (map snd (const_moq1 inst)) /\
  Forall (holds a) (map snd (const_moq2 inst)).
Proof.
  destruct HF as [_ H]. unfold constraints in H.
  repeat rewrite Forall_app in H. tauto.
Qed.

Section Index3.
Variables i j k : Z.
Hypothesis Hi : In i (I m).
Hypothesis Hj : In j (J m).
Hypothesis Hk : In k (K m).

Lemma feasible_domains3 :
  0 <= V a i j k /\ 0 <= S a i j k /\ 0 <= s a i j k /\ 0 <= d a i j k.
Proof.
  destruct HF as [Hd _]. unfold in_domains in Hd.
  apply andb_true_iff in Hd. destruct Hd as [_ Hd].
  rewrite forallb_forall in Hd.
  specialize (Hd (i, j, k)). simpl in Hd.
  rewrite !andb_true_iff, !Qle_bool_iff in Hd.
  assert (Hin : In (i, j, k) (cross3 (I m) (J m) (K m)))
    by (apply In_cross3; auto).
  specialize (Hd Hin). tauto.
Qed.

Lemma feasible_surplus_deficit : V a i j k + s a i j k == S a i j k.
Proof.
  destruct feasible_parts as (H & _).
  eassert (P : holds a _).
  { eapply (Constraint_holds _ _ _ _ _ (i, j, k) _ a
                             (b_surplus_deficit HB) H).
    - apply In_cross3; auto.
    - unfold _const_surplus_deficit, var_V, var_s, var_S.
      rewrite !var3_Ok by assumption. reflexivity. }
  exact P.
Qed.

Lemma feasible_stock_buffer : LB dt k <= S a i j k - V a i j k.
Proof.
  destruct feasible_parts as (_ & _ & _ & H & _).
  rewrite <- params_m.
  eassert (P : holds a _).
  { eapply (Constraint_holds _ _ _ _ _ (i, j, k) _ a
                             (b_stock_buffer HB) H).
    - apply In_cross3; auto.
    - unfold _const_stock_buffer, var_V, var_S, par_LB.
      rewrite !var3_Ok, par1_Ok by assumption. reflexivity. }
  exact P.
Qed.

Lemma feasible_volume_bounds_demand :
  V a i j k + d a i j k == D dt i j k.
Proof.
  destruct feasible_parts as (_ & _ & _ & _ & _ & H & _).
  rewrite <- params_m.
  eassert (P : holds a _).
  { eapply (Constraint_holds _ _ _ _ _ (i, j, k) _ a
                             (b_volume_bounds_demand HB) H).
    - apply In_cross3; auto.
    - unfold _const_volume_bounds_demand, var_V, var_d, par_D.
      rewrite !var3_Ok, par3_Ok by assumption. reflexivity. }
  exact P.
Qed.

Lemma feasible_stock :
  (1 < i)%Z -> S a i j k == X a i k + s a (i - 1) j k.
Proof.
  intros Hlt. destruct feasible_parts as (_ & _ & H & _).
  assert (Hp : In (i - 1)%Z (I m)).
  { apply In_I. apply In_I in Hi. lia. }
  eassert (P : holds a _).
  { eapply (Constraint_holds _ _ _ _ _ (i, j, k) _ a (b_stock HB) H).
    - apply In_cross3; auto.
    - unfold _const_stock, var_X, var_s, var_S.
      destruct (Z.leb_spec i 1); [lia |].
      rewrite !var3_Ok, var2_Ok by assumption. reflexivity. }
  exact P.
Qed.
End Index3.

Section Index2.
Variables i k : Z.
Hypothesis Hi : In i (I m).
Hypothesis Hk : In k (K m).

Lemma feasible_domains2 :
  within NonNegativeIntegers (X a i k) = true /\
  (z a i k == 0 \/ z a i k == 1).
Proof.
  destruct HF as [Hd _]. unfold in_domains in Hd.
  apply andb_true_iff in Hd. destruct Hd as [Hd _].
  rewrite forallb_forall in Hd.
  specialize (Hd (i, k)). cbv beta iota in Hd.
  rewrite andb_true_iff, within_binary in Hd.
  apply Hd. apply In_cross2. auto.
Qed.

Lemma feasible_moq1 : MOQ dt k * z a i k <= X a i k.
Proof.
  destruct feasible_parts as (_ & _ & _ & _ & _ & _ & H & _).
  rewrite <- params_m.
  eassert (P : holds a _).
  { eapply (Constraint_holds _ _ _ _ _ (i, k) _ a (b_moq1 HB) H).
    - apply In_cross2; auto.
    - unfold _const_moq1, var_X, var_z, par_MOQ.
      rewrite !var2_Ok, par1_Ok by assumption. reflexivity. }
  exact P.
Qed.

Lemma feasible_moq2 : X a i k <= _bigM * z a i k.
Proof.
  destruct feasible_parts as (_ & _ & _ & _ & _ & _ & _ & H).
  eassert (P : holds a _).
  { eapply (Constraint_holds _ _ _ _ _ (i, k) _ a (b_moq2 HB) H).
    - apply In_cross2; auto.
    - unfold _const_moq2, var_X, var_z.
      rewrite !var2_Ok by assumption. reflexivity. }
  exact P.
Qed.
End Index2.

Lemma feasible_stock1 j k :
  In j (J m) -> In k (K m) -> S a 1 j k == X a 1 k + BI dt k.
Proof.
  intros Hj Hk. destruct feasible_parts as (_ & H & _).
  assert (Hin : In (j, k) (cross2 (J m) (K m))) by (apply In_cross2; auto).
  destruct (Constraint_complete _ _ _ _ _ (j, k) (b_stock1 HB) Hin)
    as (oc & Hoc & Hc).
  unfold _const_stock1 in Hoc.
  bind_inv Hoc. bind_inv Hoc. bind_inv Hoc.
  apply var3_inv in Hx. destruct Hx as (-> & _).
  apply var2_inv in Hx0. destruct Hx0 as (-> & _).
  apply par1_inv in Hx1. destruct Hx1 as (-> & _).
  inversion Hoc; subst oc.
  pose proof params_m as Pm. unfold m in Pm. rewrite Pm in Hc.
  rewrite Forall_forall in H.
  apply (H (EqC (fun a0 => S a0 1 j k)
                (eadd (fun a0 => X a0 1 k) (econst (BI dt k))))).
  apply in_map_iff. eexists (_, _). split; [reflexivity |].
  apply Hc. reflexivity.
Qed.
End Built.

(** The objective a successful construction produces. *)
Lemma OBJ_closed_form dt inst (a : assignment) :
  built dt inst ->
  n_scenarios dt <> 0%Z /\
  OBJ inst a ==
    Qsum (RangeSet 1 (n_months dt)) (fun i =>
      Qsum (RangeSet 1 (n_scenarios dt)) (fun j =>
        Qsum (RangeSet 1 (n_skus dt)) (fun k =>
          (SP dt k - UP dt k) * V a i j k
          - W dt k * s a i j k - O dt k * d a i j k)))
    / inject_Z (n_scenarios dt)
    - Qsum (RangeSet 1 (n_months dt)) (fun i =>
        Qsum (RangeSet 1 (n_skus dt)) (fun k => L dt k * z a i k)).
Proof.
  intros HB. pose proof (b_obj HB) as H. rewrite (b_mdl HB) in H.
  unfold obj_expression in H. simpl in H.
  set (I_ := RangeSet 1 (n_months dt)) in *.
  set (J_ := RangeSet 1 (n_scenarios dt)) in *.
  set (K_ := RangeSet 1 (n_skus dt)) in *.
  rewrite (mapM_Ok _
             (fun ix : Z * Z * Z => let '(i, j, k) := ix in
                (fun a0 : assignment =>
                   (SP dt k - UP dt k) * V a0 i j k
                   - W dt k * s a0 i j k - O dt k * d a0 i j k)))
    in H.
  2:{ intros [[i j] k] Hin. apply In_cross3 in Hin.
      destruct Hin as (Hi & Hj & Hk).
      unfold par_SP, par_UP, par_W, par_O, var_V, var_s, var_d. simpl.
      rewrite !par1_Ok, !var3_Ok by assumption. reflexivity. }
  simpl in H. unfold ediv in H.
  destruct (Z.eqb_spec (n_scenarios dt) 0) as [| Hn]; [discriminate |].
  simpl in H.
  rewrite (mapM_Ok _
             (fun ix : Z * Z => let '(i, k) := ix in
                (fun a0 : assignment => L dt k * z a0 i k)))
    in H.
  2:{ intros [i k] Hin. apply In_cross2 in Hin. destruct Hin as (Hi & Hk).
      unfold par_L, var_z. simpl.
      rewrite par1_Ok, var2_Ok by assumption. reflexivity. }
  simpl in H. inversion H as [Hobj]. clear H.
  split; [exact Hn |].
  unfold esub. rewrite !esum_map.
  rewrite <- (sum_cross3
                (fun ix : Z * Z * Z => let '(i, j, k) := ix in
                   (SP dt k - UP dt k) * V a i j k
                   - W dt k * s a i j k - O dt k * d a i j k)).
  rewrite <- (sum_cross2 (fun ix : Z * Z => let '(i, k) := ix in
                            L dt k * z a i k)).
  apply Qplus_comp; [apply Qmult_comp; [| reflexivity] |].
  - clear. induction (cross3 I_ J_ K_) as [| [[i j] k] l IH]; simpl;
      [reflexivity | rewrite IH; reflexivity].
  - apply Qopp_comp.
    clear. induction (cross2 I_ K_) as [| [i k] l IH]; simpl;
      [reflexivity | rewrite IH; reflexivity].
Qed.

End MultiFacts.

(* ================================================================== *)
(** ** Facts about the single-product model                            *)
(* ================================================================== *)

Module SingleFacts.
Import Py Pyomo PyFacts Single.

Lemma single_create_instance_built dt inst :
  create_instance dt = Ok inst -> built dt inst.
Proof.
  unfold create_instance. intros H.
  bind_inv H. apply IntParam_Ok in Hx. destruct Hx as [-> Hm].
  bind_inv H. apply IntParam_Ok in Hx. destruct Hx as [-> Hs].
  do 9 (let x := fresh "u" in let Hx := fresh "Hu" in
        apply bind_Ok in H; destruct H as (x & Hx & H)).
  do 8 (let x := fresh "c" in let Hx := fresh "Hc" in
        apply bind_Ok in H; destruct H as (x & Hx & H)).
  inversion H; subst; clear H. constructor; simpl; auto.
Qed.

Section Built.
Variables (dt : data) (inst : instance).
Hypothesis HB : built dt inst.

Let m := mdl inst.

Lemma single_In_I i : In i (I m) <-> (1 <= i <= n_months dt)%Z.
Proof. unfold m. rewrite (b_mdl HB). simpl. apply In_RangeSet. Qed.

Lemma single_In_J j : In j (J m) <-> (1 <= j <= n_scenarios dt)%Z.
Proof. unfold m. rewrite (b_mdl HB). simpl. apply In_RangeSet. Qed.

Lemma single_params_m : params (mdl inst) = dt.
Proof. now rewrite (b_mdl HB). Qed.

Variable a : assignment.
Hypothesis HF : feasible inst a.

Lemma single_feasible_parts :
  Forall (holds a) (map snd (const_surplus_deficit inst)) /\
  Forall (holds a) (map snd (const_stock1 inst)) /\
  Forall (holds a) (map snd (const_stock inst)) /\
  Forall (holds a) (map snd (const_stock_bounds inst)) /\
  Forall (holds a) (map snd (const_volume_bounds inst)) /\
  Forall (holds a) (map snd (const_moq1 inst)) /\
  Forall (holds a) (map snd (const_moq2 inst)).
Proof.
  destruct HF as [_ H]. unfold constraints in H.
  repeat rewrite Forall_app in H. tauto.
Qed.

Section Index2.
Variables i j : Z.
Hypothesis Hi : In i (I m).
Hypothesis Hj : In j (J m).

Lemma single_feasible_domains2 :
  0 <= V a i j /\ 0 <= S a i j /\ 0 <= s a i j /\ 0 <= d a i j.
Proof.
  destruct HF as [Hd _]. unfold in_domains in Hd.
  apply andb_true_iff in Hd. destruct Hd as [_ Hd].
  rewrite forallb_forall in Hd.
  assert (Hin : In (i, j) (cross2 (I m) (J m)))
    by (apply In_cross2; auto).
  specialize (Hd (i, j) Hin). cbv beta iota in Hd.
  rewrite !andb_true_iff in Hd.
  destruct Hd as (((HV & HS) & Hs) & Hd).
  apply within_integers_nonneg in HV, HS, Hs, Hd. tauto.
Qed.

Lemma single_feasible_surplus_deficit :
  V a i j + s a i j - d a i j == D dt i j.
Proof.
  destruct single_feasible_parts as (H & _).
  rewrite <- single_params_m.
  eassert (P : holds a _).
  { eapply (Constraint_holds _ _ _ _ _ (i, j) _ a
                             (b_surplus_deficit HB) H).
    - apply In_cross2; auto.
    - unfold _const_surplus_deficit, var_V, var_s, var_d, par_D.
      rewrite !var2_Ok, par2_Ok by assumption. reflexivity. }
  exact P.
Qed.

Lemma single_feasible_stock_bounds : LB dt <= S a i j /\ S a i j <= UB dt.
Proof.
  destruct single_feasible_parts as (_ & _ & _ & H & _).
  rewrite <- single_params_m.
  eassert (P : holds a _).
  { eapply (Constraint_holds _ _ _ _ _ (i, j) _ a
                             (b_stock_bounds HB) H).
    - apply In_cross2; auto.
    - unfold _const_stock_bounds, var_S.
      rewrite !var2_Ok by assumption. reflexivity. }
  exact P.
Qed.

Lemma single_feasible_volume_bounds : V a i j <= S a i j.
Proof.
  destruct single_feasible_parts as (_ & _ & _ & _ & H & _).
  eassert (P : holds a _).
  { eapply (Constraint_holds _ _ _ _ _ (i, j) _ a
                             (b_volume_bounds HB) H).
    - apply In_cross2; auto.
    - unfold _const_volume_bounds, var_V, var_S.
      rewrite !var2_Ok by assumption. reflexivity. }
  exact P.
Qed.

Lemma single_feasible_stock :
  (1 < i)%Z -> S a i j == X a i + S a (i - 1) j - V a (i - 1) j.
Proof.
  intros Hlt. destruct single_feasible_parts as (_ & _ & H & _).
  assert (Hp : In (i - 1)%Z (I m)).
  { apply single_In_I. apply single_In_I in Hi. lia. }
  eassert (P : holds a _).
  { eapply (Constraint_holds _ _ _ _ _ (i, j) _ a (b_stock HB) H).
    - apply In_cross2; auto.
    - unfold _const_stock, var_X, var_V, var_S.
      destruct (Z.leb_spec i 1); [lia |].
      rewrite !var2_Ok, var1_Ok by assumption. reflexivity. }
  exact P.
Qed.
End Index2.

Section Index1.
Variable i : Z.
Hypothesis Hi : In i (I m).

Lemma single_feasible_domains1 :
  0 <= X a i /\ (z a i == 0 \/ z a i == 1).
Proof.
  destruct HF as [Hd _]. unfold in_domains in Hd.
  apply andb_true_iff in Hd. destruct Hd as [Hd _].
  rewrite forallb_forall in Hd.
  specialize (Hd i Hi). cbv beta in Hd.
  rewrite andb_true_iff, within_binary in Hd.
  destruct Hd as [HX Hz]. apply within_integers_nonneg in HX. tauto.
Qed.

Lemma single_feasible_moq1 : MOQ dt * z a i <= X a i.
Proof.
  destruct single_feasible_parts as (_ & _ & _ & _ & _ & H & _).
  rewrite <- single_params_m.
  eassert (P : holds a _).
  { eapply (Constraint_holds _ _ _ _ _ i _ a (b_moq1 HB) H).
    - exact Hi.
    - unfold _const_moq1, var_X, var_z.
      rewrite !var1_Ok by assumption. reflexivity. }
  exact P.
Qed.

Lemma single_feasible_moq2 : X a i <= _bigM * z a i.
Proof.
  destruct single_feasible_parts as (_ & _ & _ & _ & _ & _ & H).
  eassert (P : holds a _).
  { eapply (Constraint_holds _ _ _ _ _ i _ a (b_moq2 HB) H).
    - exact Hi.
    - unfold _const_moq2, var_X, var_z.
      rewrite !var1_Ok by assumption. reflexivity. }
  exact P.
Qed.
End Index1.

Lemma single_feasible_stock1 j :
  In j (J m) -> S a 1 j == X a 1 + BI dt.
Proof.
  intros Hj. destruct single_feasible_parts as (_ & H & _).
  destruct (Constraint_complete _ _ _ _ _ j (b_stock1 HB) Hj)
    as (oc & Hoc & Hc).
  unfold _const_stock1 in Hoc.
  bind_inv Hoc. bind_inv Hoc.
  apply var2_inv in Hx. destruct Hx as (-> & _).
  unfold var_X, var1 in Hx0.
  destruct (mem 1 (I (mdl inst))); [| discriminate].
  inversion Hx0; subst x0; clear Hx0.
  inversion Hoc; subst oc.
  unfold par_BI in Hc. rewrite single_params_m in Hc.
  rewrite Forall_forall in H.
  apply (H (EqC (fun a0 => S a0 1 j)
                (eadd (fun a0 => X a0 1) (econst (BI dt))))).
  apply in_map_iff. eexists (_, _). split; [reflexivity |].
  apply Hc. reflexivity.
Qed.
End Built.

(** The objective a successful construction produces. *)
Lemma single_OBJ_closed_form dt inst (a : assignment) :
  built dt inst ->
  n_scenarios dt <> 0%Z /\
  OBJ inst a ==
    Qsum (RangeSet 1 (n_months dt)) (fun i =>
      Qsum (RangeSet 1 (n_scenarios dt)) (fun j =>
        CM dt * V a i j - W dt * s a i j - O dt * d a i j))
    / inject_Z (n_scenarios dt)
    - Qsum (RangeSet 1 (n_months dt)) (fun i => L dt * z a i).
Proof.
  intros HB. pose proof (b_obj HB) as H. rewrite (b_mdl HB) in H.
  unfold obj_expression in H. simpl in H.
  set (I_ := RangeSet 1 (n_months dt)) in *.
  set (J_ := RangeSet 1 (n_scenarios dt)) in *.
  rewrite (mapM_Ok _
             (fun ix : Z * Z => let '(i, j) := ix in
                (fun a0 : assignment =>
                   CM dt * V a0 i j - W dt * s a0 i j - O dt * d a0 i j)))
    in H.
  2:{ intros [i j] Hin. apply In_cross2 in Hin. destruct Hin as (Hi & Hj).
      unfold var_V, var_s, var_d. simpl.
      rewrite !var2_Ok by assumption. reflexivity. }
  simpl in H. unfold ediv in H.
  destruct (Z.eqb_spec (n_scenarios dt) 0) as [| Hn]; [discriminate |].
  simpl in H.
  rewrite (mapM_Ok _ (fun i (a0 : assignment) => L dt * z a0 i)) in H.
  2:{ intros i Hi. unfold var_z. simpl.
      rewrite var1_Ok by assumption. reflexivity. }
  simpl in H. inversion H as [Hobj]. clear H.
  split; [exact Hn |].
  unfold esub. rewrite !esum_map.
  rewrite <- (sum_cross2
                (fun ix : Z * Z => let '(i, j) := ix in
                   CM dt * V a i j - W dt * s a i j - O dt * d a i j)).
  apply Qplus_comp; [apply Qmult_comp; [| reflexivity] |].
  - clear. induction (cross2 I_ J_) as [| [i j] l IH]; simpl;
      [reflexivity | rewrite IH; reflexivity].
  - apply Qopp_comp. unfold Qsum. reflexivity.
Qed.

End SingleFacts.

(* ================================================================== *)
(** ** The multi-product formulation                                   *)
(* ================================================================== *)

Module MultiModel.
Import Py Pyomo PyFacts Multi MultiFacts.

Lemma feasibleb_feasible inst a :
  feasibleb inst a = true <-> feasible inst a.
Proof.
  unfold feasibleb, feasible.
  rewrite andb_true_iff, forallb_holdsb. tauto.
Qed.

(** Feasibility of a sample plan, by evaluation of the constructed
    instance. *)
Lemma feasible_by_evaluation dt inst a :
  create_instance dt = Ok inst ->
  match create_instance dt with
  | Ok i => feasibleb i a
  | Raise _ => false
  end = true ->
  feasible inst a.
Proof. intros E H. rewrite E in H. now apply feasibleb_feasible. Defined.

(** C3. In every feasible solution of the multi-product model the stock
    of the first month is the first order plus the beginning inventory,
    [S[1,j,k] = X[1,k] + BI[k]]; from the second month on the stock is
    the order plus the surplus of the month before,
    [S[i,j,k] = X[i,k] + s[i-1,j,k]]; and the recursion constraint
    [const_stock] is generated at exactly the months [2..n_months]
    (skipped at month 1). *)
Theorem stock_recursion dt inst a :
  create_instance dt = Ok inst ->
  feasible inst a ->
  (forall j k,
      (1 <= j <= n_scenarios dt)%Z -> (1 <= k <= n_skus dt)%Z ->
      S a 1 j k == X a 1 k + BI dt k) /\
  (forall i j k,
      (2 <= i <= n_months dt)%Z ->
      (1 <= j <= n_scenarios dt)%Z -> (1 <= k <= n_skus dt)%Z ->
      S a i j k == X a i k + s a (i - 1) j k) /\
  (forall i j k,
      In (i, j, k) (map fst (const_stock inst)) <->
      (2 <= i <= n_months dt)%Z /\
      (1 <= j <= n_scenarios dt)%Z /\ (1 <= k <= n_skus dt)%Z).
Proof.
  intros E HF. pose proof (create_instance_built _ _ E) as HB.
  split; [| split].
  - intros j k Hj Hk.
    apply (feasible_stock1 dt inst HB a HF);
      [now apply (In_J dt inst HB) | now apply (In_K dt inst HB)].
  - intros i j k Hi Hj Hk.
    apply (feasible_stock dt inst HB a HF).
    + apply (In_I dt inst HB). lia.
    + now apply (In_J dt inst HB).
    + now apply (In_K dt inst HB).
    + lia.
  - intros i j k.
    rewrite (Constraint_indices _ _ _ _ _ (i, j, k) (b_stock HB)).
    rewrite In_cross3, (In_I dt inst HB), (In_J dt inst HB),
      (In_K dt inst HB).
    split.
    + intros ((Hi & Hj & Hk) & c & Hc).
      unfold _const_stock in Hc.
      destruct (Z.leb_spec i 1); [discriminate | lia].
    + intros (Hi & Hj & Hk). split; [lia |].
      unfold _const_stock, var_S, var_X, var_s.
      destruct (Z.leb_spec i 1); [lia |].
      rewrite !var3_Ok, var2_Ok;
        try (apply (In_I dt inst HB); lia);
        try (apply (In_J dt inst HB); lia);
        try (apply (In_K dt inst HB); lia).
      eexists. reflexivity.
Qed.

Lemma stock_recursion_witness :
  exists inst,
    create_instance Examples.two_month_data = Ok inst /\
    S Examples.two_month_plan 1 1 1
    == X Examples.two_month_plan 1 1 + BI Examples.two_month_data 1 /\
    S Examples.two_month_plan 2 1 1
    == X Examples.two_month_plan 2 1 + s Examples.two_month_plan 1 1 1 /\
    (In (2, 1, 1)%Z (map fst (const_stock inst)) /\
     ~ In (1, 1, 1)%Z (map fst (const_stock inst))).
Proof.
  destruct (create_instance Examples.two_month_data) as [inst | e] eqn:E.
  - exists inst. split; [reflexivity |].
    assert (HF : feasible inst Examples.two_month_plan).
    { apply (feasible_by_evaluation Examples.two_month_data); [exact E |].
      vm_compute. reflexivity. }
    destruct (stock_recursion Examples.two_month_data inst
                              Examples.two_month_plan E HF)
      as (H1 & H2 & H3).
    split; [apply H1; simpl; lia |].
    split; [apply (H2 2%Z); simpl; lia |].
    split.
    + apply H3. simpl. lia.
    + intros Hin. apply H3 in Hin. lia.
  - vm_compute in E. discriminate E.
Defined.

(** C4. The objective of the multi-product model is, at every
    assignment, [(1/n_scenarios)] times the sum over all months,
    scenarios and SKUs of
    [(SP[k]-UP[k])*V[i,j,k] - W[k]*s[i,j,k] - O[k]*d[i,j,k]], minus the
    sum over all months and SKUs of [L[k]*z[i,k]]; and the model
    maximises it. *)
Theorem objective_is_expected_margin dt inst :
  create_instance dt = Ok inst ->
  OBJ_sense inst = maximize /\
  forall a, OBJ inst a == spec_objective dt a.
Proof.
  intros E. pose proof (create_instance_built _ _ E) as HB.
  split; [exact (b_sense HB) |].
  intros a. destruct (OBJ_closed_form dt inst a HB) as [_ H].
  rewrite H. unfold spec_objective, Qdiv. ring.
Qed.

Lemma objective_is_expected_margin_witness :
  exists inst,
    create_instance Examples.multi_data = Ok inst /\
    OBJ_sense inst = maximize /\
    OBJ inst Examples.multi_plan
    == spec_objective Examples.multi_data Examples.multi_plan.
Proof.
  destruct (create_instance Examples.multi_data) as [inst | e] eqn:E.
  - exists inst. split; [reflexivity |].
    destruct (objective_is_expected_margin Examples.multi_data inst E)
      as [H1 H2].
    split; [exact H1 | apply H2].
  - vm_compute in E. discriminate E.
Defined.

(** C10. In the multi-product model the sold volume is bounded by the
    stock and by the demand, [V[i,j,k] <= S[i,j,k]] and
    [V[i,j,k] <= D[i,j,k]], although no constraint says so: it follows
    from the stock split [V + s = S], the demand split [V + d = D] and
    the non-negative domains of [s] and [d] alone.  No other constraint
    of the model is assumed to hold. *)
Theorem sales_bounded_by_stock_and_demand dt inst a i j k :
  create_instance dt = Ok inst ->
  Forall (holds a) (map snd (const_surplus_deficit inst)) ->
  Forall (holds a) (map snd (const_volume_bounds_demand inst)) ->
  within NonNegativeReals (s a i j k) = true ->
  within NonNegativeReals (d a i j k) = true ->
  (1 <= i <= n_months dt)%Z ->
  (1 <= j <= n_scenarios dt)%Z ->
  (1 <= k <= n_skus dt)%Z ->
  V a i j k <= S a i j k /\ V a i j k <= D dt i j k.
Proof.
  intros E Hsplit Hdemand Hs Hd Hi Hj Hk.
  pose proof (create_instance_built _ _ E) as HB.
  apply (In_I dt inst HB) in Hi.
  apply (In_J dt inst HB) in Hj.
  apply (In_K dt inst HB) in Hk.
  apply within_reals in Hs, Hd.
  assert (H1 : V a i j k + s a i j k == S a i j k).
  { eassert (P : holds a _).
    { eapply (Constraint_holds _ _ _ _ _ (i, j, k) _ a
                               (b_surplus_deficit HB) Hsplit).
      - apply In_cross3; auto.
      - unfold _const_surplus_deficit, var_V, var_s, var_S.
        rewrite !var3_Ok by assumption. reflexivity. }
    exact P. }
  assert (H2 : V a i j k + d a i j k == D dt i j k).
  { rewrite <- (params_m dt inst HB).
    eassert (P : holds a _).
    { eapply (Constraint_holds _ _ _ _ _ (i, j, k) _ a
                               (b_volume_bounds_demand HB) Hdemand).
      - apply In_cross3; auto.
      - unfold _const_volume_bounds_demand, var_V, var_d, par_D.
        rewrite !var3_Ok, par3_Ok by assumption. reflexivity. }
    exact P. }
  split; lra.
Qed.

Lemma sales_bounded_by_stock_and_demand_witness :
  exists inst,
    create_instance Examples.multi_data = Ok inst /\
    V Examples.multi_plan 1 1 1 <= S Examples.multi_plan 1 1 1 /\
    V Examples.multi_plan 1 1 1 <= D Examples.multi_data 1 1 1.
Proof.
  destruct (create_instance Examples.multi_data) as [inst | e] eqn:E.
  - exists inst. split; [reflexivity |].
    assert (HF : feasible inst Examples.multi_plan).
    { apply (feasible_by_evaluation Examples.multi_data); [exact E |].
      vm_compute. reflexivity. }
    pose proof (feasible_parts inst Examples.multi_plan HF)
      as (P1 & _ & _ & _ & _ & P6 & _).
    apply (sales_bounded_by_stock_and_demand
             Examples.multi_data inst Examples.multi_plan 1 1 1 E P1 P6).
    + vm_compute. reflexivity.
    + vm_compute. reflexivity.
    + simpl. lia.
    + simpl. lia.
    + simpl. lia.
  - vm_compute in E. discriminate E.
Defined.

(** Expressions that do not mention [z] keep their value when one
    [z[i0,k0]] is replaced. *)
Lemma esum_ext (es : list (expr assignment)) (a a' : assignment) :
  Forall (fun e => e a' = e a) es -> esum es a' = esum es a.
Proof.
  unfold esum. generalize 0. induction es as [| e es IH]; simpl; intros q H.
  - reflexivity.
  - inversion H; subst. rewrite H2. now apply IH.
Qed.

Ltac inv_access :=
  repeat match goal with
    | H : _ = Ok _ |- _ =>
        first [ apply var3_inv in H; destruct H as (-> & _)
              | apply var2_inv in H; destruct H as (-> & _)
              | apply par1_inv in H; destruct H as (-> & _)
              | apply par3_inv in H; subst ]
    end.

(** Every generated constraint of a component follows from what the
    component's rule returns at the indices of its index set. *)
Ltac by_component Hb P :=
  apply Forall_forall; intros c Hc;
  apply in_map_iff in Hc; destruct Hc as ([ix c'] & Hc & Hin);
  simpl in Hc; subst c;
  assert (Ha : holds _ c') by (apply P, in_map_iff; exists (ix, c'); auto);
  destruct (Constraint_sound _ _ _ _ _ _ _ Hb Hin) as [_ Hr].

Lemma set_z_feasible dt inst a i0 k0 b :
  built dt inst ->
  feasible inst a ->
  X a i0 k0 == 0 -> MOQ dt k0 == 0 -> (b == 0 \/ b == 1) ->
  feasible inst (set_z a i0 k0 b).
Proof.
  intros HB HF HX HM Hb.
  pose proof (feasible_parts inst a HF)
    as (P1 & P2 & P3 & P4 & P5 & P6 & P7 & P8).
  rewrite Forall_forall in P1, P2, P3, P4, P5, P6, P7, P8.
  split.
  - destruct HF as [Hd _]. unfold in_domains in *.
    apply andb_true_iff in Hd. destruct Hd as [Hd2 Hd3].
    apply andb_true_iff. split; [| exact Hd3].
    rewrite forallb_forall in *. intros [i k] Hin.
    specialize (Hd2 (i, k) Hin). cbv beta iota in Hd2.
    apply andb_true_iff in Hd2. destruct Hd2 as [H1 H2].
    apply andb_true_iff. split; [exact H1 |].
    unfold set_z. cbn [z].
    destruct ((i =? i0)%Z && (k =? k0)%Z); [| exact H2].
    now apply within_binary.
  - unfold constraints. repeat rewrite Forall_app. repeat split.
    + by_component (b_surplus_deficit HB) P1.
      destruct ix as [[i j] k]. unfold _const_surplus_deficit in Hr.
      repeat bind_inv Hr. inv_access. inversion Hr; subst. exact Ha.
    + by_component (b_stock1 HB) P2.
      destruct ix as [j k]. unfold _const_stock1 in Hr.
      repeat bind_inv Hr. inv_access. inversion Hr; subst. exact Ha.
    + by_component (b_stock HB) P3.
      destruct ix as [[i j] k]. unfold _const_stock in Hr.
      destruct (i <=? 1)%Z; [discriminate |].
      repeat bind_inv Hr. inv_access. inversion Hr; subst. exact Ha.
    + by_component (b_stock_buffer HB) P4.
      destruct ix as [[i j] k]. unfold _const_stock_buffer in Hr.
      repeat bind_inv Hr. inv_access. inversion Hr; subst. exact Ha.
    + by_component (b_stock_max HB) P5.
      destruct ix as [i j]. unfold _const_stock_max in Hr.
      bind_inv Hr.
      assert (Hc : c' = LeC (esum x) (par_UB (mdl inst)))
        by (destruct x; [discriminate | now inversion Hr]).
      subst c'. cbn [holds] in *. unfold par_UB, econst in *.
      rewrite (esum_ext x a); [exact Ha |].
      apply mapM_inv in Hx. clear - Hx.
      induction Hx as [| k e ks es Hk _ IH]; constructor; [| exact IH].
      repeat bind_inv Hk. inv_access. inversion Hk; subst. reflexivity.
    + by_component (b_volume_bounds_demand HB) P6.
      destruct ix as [[i j] k]. unfold _const_volume_bounds_demand in Hr.
      repeat bind_inv Hr. inv_access. inversion Hr; subst. exact Ha.
    + by_component (b_moq1 HB) P7.
      destruct ix as [i k]. unfold _const_moq1 in Hr.
      repeat bind_inv Hr. inv_access. inversion Hr; subst.
      rewrite (params_m dt inst HB) in *.
      unfold holds, set_z, eadd, emul, econst in *. cbn [X z] in *.
      destruct (Z.eqb_spec i i0) as [-> |]; [| exact Ha].
      destruct (Z.eqb_spec k k0) as [-> |]; [| exact Ha].
      simpl. rewrite HX, HM. lra.
    + by_component (b_moq2 HB) P8.
      destruct ix as [i k]. unfold _const_moq2 in Hr.
      repeat bind_inv Hr. inv_access. inversion Hr; subst.
      unfold holds, set_z, eadd, emul, econst in *. cbn [X z] in *.
      destruct (Z.eqb_spec i i0) as [-> |]; [| exact Ha].
      destruct (Z.eqb_spec k k0) as [-> |]; [| exact Ha].
      simpl. rewrite HX. unfold _bigM. destruct Hb as [-> | ->]; lra.
Qed.

(** C5, as stated, fails where it says that [z[i,k]] may be 0 or 1
    whenever [X[i,k] = 0]: with the fixture's minimum order quantity of
    300 the plan that orders nothing is feasible with [z[1,1] = 0], and
    switching [z[1,1]] to 1 violates [X[i,k] >= MOQ[k] * z[i,k]]. *)
Lemma moq_switch_counterexample :
  exists inst,
    create_instance Examples.multi_data = Ok inst /\
    feasible inst Examples.idle_plan /\
    X Examples.idle_plan 1 1 == 0 /\
    ~ feasible inst (set_z Examples.idle_plan 1 1 1).
Proof.
  destruct (create_instance Examples.multi_data) as [inst | e] eqn:E.
  - exists inst. split; [reflexivity |].
    split; [| split].
    + apply (feasible_by_evaluation Examples.multi_data); [exact E |].
      vm_compute. reflexivity.
    + reflexivity.
    + intros HF. apply feasibleb_feasible in HF.
      assert (H : match create_instance Examples.multi_data with
                  | Ok i => feasibleb i (set_z Examples.idle_plan 1 1 1)
                  | Raise _ => false
                  end = false) by (vm_compute; reflexivity).
      rewrite E in H. congruence.
  - vm_compute in E. discriminate E.
Qed.

(** C5, amended. In every feasible solution of the multi-product model
    [MOQ[k] * z[i,k] <= X[i,k] <= 100000 * z[i,k]] for every month and
    SKU; so whenever [X[i,k] > 0], [z[i,k] = 1] and [X[i,k] >= MOQ[k]];
    whenever [X[i,k] = 0] and [MOQ[k] > 0], [z[i,k] = 0]; and whenever
    [X[i,k] = 0] and [MOQ[k] = 0], [z[i,k]] may be 0 or 1: the solution
    stays feasible with either value. *)
Theorem moq_linkage dt inst a i k :
  create_instance dt = Ok inst ->
  feasible inst a ->
  (1 <= i <= n_months dt)%Z ->
  (1 <= k <= n_skus dt)%Z ->
  (MOQ dt k * z a i k <= X a i k /\ X a i k <= 100000 * z a i k) /\
  (0 < X a i k -> z a i k == 1 /\ MOQ dt k <= X a i k) /\
  (X a i k == 0 -> 0 < MOQ dt k -> z a i k == 0) /\
  (X a i k == 0 -> MOQ dt k == 0 ->
   forall b, b == 0 \/ b == 1 -> feasible inst (set_z a i k b)).
Proof.
  intros E HF Hi Hk. pose proof (create_instance_built _ _ E) as HB.
  apply (In_I dt inst HB) in Hi. apply (In_K dt inst HB) in Hk.
  pose proof (feasible_moq1 dt inst HB a HF i k Hi Hk) as H1.
  pose proof (feasible_moq2 dt inst HB a HF i k Hi Hk) as H2.
  pose proof (feasible_domains2 inst a HF i k Hi Hk) as [_ Hz].
  unfold _bigM in H2.
  split; [split; assumption |].
  split; [| split].
  - intros Hpos. destruct Hz as [Hz | Hz]; rewrite Hz in *.
    + lra.
    + split; [reflexivity | lra].
  - intros HX HM. destruct Hz as [Hz | Hz]; [exact Hz |].
    rewrite Hz, HX in H1. lra.
  - intros HX HM b Hb. now apply (set_z_feasible dt).
Qed.

Lemma moq_linkage_witness :
  exists inst,
    create_instance Examples.multi_data = Ok inst /\
    (MOQ Examples.multi_data 1 * z Examples.multi_plan 1 1
     <= X Examples.multi_plan 1 1 /\
     X Examples.multi_plan 1 1 <= 100000 * z Examples.multi_plan 1 1) /\
    z Examples.multi_plan 1 1 == 1.
Proof.
  destruct (create_instance Examples.multi_data) as [inst | e] eqn:E.
  - exists inst. split; [reflexivity |].
    assert (HF : feasible inst Examples.multi_plan).
    { apply (feasible_by_evaluation Examples.multi_data); [exact E |].
      vm_compute. reflexivity. }
    destruct (moq_linkage Examples.multi_data inst Examples.multi_plan 1 1
                          E HF)
      as (H1 & H2 & _); [simpl; lia | simpl; lia |].
    split; [exact H1 |].
    apply H2. reflexivity.
  - vm_compute in E. discriminate E.
Defined.

Lemma IntParam_negative (n : Z) :
  (n < 0)%Z -> IntParam NonNegativeIntegers n = Raise ValueError.
Proof.
  intros Hn. unfold IntParam, within.
  replace (Qle_bool 0 (inject_Z n)) with false; [reflexivity |].
  symmetry. apply not_true_is_false. rewrite Qle_bool_iff.
  unfold Qle. simpl. lia.
Qed.

Lemma cross2_nil_r (A : list Z) : cross2 A [] = [].
Proof. unfold cross2. induction A; simpl; auto. Qed.

(** C6, as stated, fails: with no months (and no SKUs, one scenario) the
    construction raises nothing and returns an instance, which has an
    empty month set and no constraints. *)
Lemma zero_months_counterexample :
  n_months Examples.empty_data = 0%Z /\
  exists inst,
    create_instance Examples.empty_data = Ok inst /\
    I (mdl inst) = [] /\ constraints inst = [].
Proof.
  split; [reflexivity |].
  eexists. split; [vm_compute; reflexivity |].
  split; reflexivity.
Qed.

(** C9. [convert_data] returns the same value whatever its arguments:
    the hard-coded data dictionary of the test fixture, with 5 months
    and 2 scenarios. *)
Theorem convert_data_ignores_arguments
        (n_months n_scenarios : Z) (D SP UP W O L : Numpy.ndarray)
        (MOQ : Z) (BI : Numpy.ndarray) (UB : Q) (LB : Numpy.ndarray)
        (n_months' n_scenarios' : Z) (D' SP' UP' W' O' L' : Numpy.ndarray)
        (MOQ' : Z) (BI' : Numpy.ndarray) (UB' : Q) (LB' : Numpy.ndarray) :
  let r := convert_data n_months n_scenarios D SP UP W O L MOQ BI UB LB in
  r = convert_data n_months' n_scenarios' D' SP' UP' W' O' L' MOQ' BI' UB' LB'
  /\ r = Single.generate_test_data
  /\ lookup_path [KNone; KStr "n_months"; KNone] r = Some (VInt 5)
  /\ lookup_path [KNone; KStr "n_scenarios"; KNone] r = Some (VInt 2).
Proof. repeat split. Qed.

End MultiModel.

(* ================================================================== *)
(** ** The single-product formulation                                  *)
(* ================================================================== *)

Module SingleModel.
Import Py Pyomo PyFacts Single SingleFacts.

Lemma single_feasibleb_feasible inst a :
  feasibleb inst a = true <-> feasible inst a.
Proof.
  unfold feasibleb, feasible.
  rewrite andb_true_iff, forallb_holdsb. tauto.
Qed.

Lemma single_feasible_by_evaluation dt inst a :
  create_instance dt = Ok inst ->
  match create_instance dt with
  | Ok i => feasibleb i a
  | Raise _ => false
  end = true ->
  feasible inst a.
Proof. intros E H. rewrite E in H. now apply single_feasibleb_feasible. Defined.

(** C2, as stated, fails, by a defect of the code: the stock should
    split into sold volume and surplus, [S[i,j] = V[i,j] + s[i,j]], in
    every feasible solution of the single-product model, but its
    [_const_surplus_deficit] reads [V + s - d == D], against the
    comments of the same file, which declare [s] the surplus and [d] the
    deficit of the month, and against [model.py], whose rule of the same
    name is [V + s == S].  On the one-month fixture the plan that orders
    300 units, sells 100 and records no surplus is feasible, and its
    stock of 300 is not [V + s = 100]. *)
Lemma stock_split_counterexample :
  exists inst,
    create_instance Examples.single_data = Ok inst /\
    feasible inst Examples.single_plan /\
    ~ S Examples.single_plan 1 1
      == V Examples.single_plan 1 1 + s Examples.single_plan 1 1.
Proof.
  destruct (create_instance Examples.single_data) as [inst | e] eqn:E.
  - exists inst. split; [reflexivity |]. split.
    + apply (single_feasible_by_evaluation Examples.single_data); [exact E |].
      vm_compute. reflexivity.
    + simpl. lra.
  - vm_compute in E. discriminate E.
Qed.

(** X21. What the single-product model, as it is coded, does enforce
    between sales, stock and demand: in every feasible solution the sold
    volume does not exceed the stock, [V[i,j] <= S[i,j]], and surplus
    and deficit are tied to the demand, not to the stock,
    [V[i,j] + s[i,j] - d[i,j] = D[i,j]], for every month and scenario. *)
Theorem sales_within_stock dt inst a i j :
  create_instance dt = Ok inst ->
  feasible inst a ->
  (1 <= i <= n_months dt)%Z ->
  (1 <= j <= n_scenarios dt)%Z ->
  V a i j <= S a i j /\ V a i j + s a i j - d a i j == D dt i j.
Proof.
  intros E HF Hi Hj. pose proof (single_create_instance_built _ _ E) as HB.
  apply (single_In_I dt inst HB) in Hi. apply (single_In_J dt inst HB) in Hj.
  split.
  - exact (single_feasible_volume_bounds dt inst HB a HF i j Hi Hj).
  - exact (single_feasible_surplus_deficit dt inst HB a HF i j Hi Hj).
Qed.

Lemma sales_within_stock_witness :
  exists inst,
    create_instance Examples.single_data = Ok inst /\
    V Examples.single_plan 1 1 <= S Examples.single_plan 1 1 /\
    V Examples.single_plan 1 1 + s Examples.single_plan 1 1
    - d Examples.single_plan 1 1 == D Examples.single_data 1 1.
Proof.
  destruct (create_instance Examples.single_data) as [inst | e] eqn:E.
  - exists inst. split; [reflexivity |].
    apply (sales_within_stock Examples.single_data inst
                              Examples.single_plan 1 1 E).
    + apply (single_feasible_by_evaluation Examples.single_data); [exact E |].
      vm_compute. reflexivity.
    + simpl. lia.
    + simpl. lia.
  - vm_compute in E. discriminate E.
Defined.

End SingleModel.

(* ================================================================== *)
(** ** The two formulations compared                                   *)
(* ================================================================== *)

Module Equivalence.
Import Py Pyomo PyFacts Compare.

Lemma Qsum_ext (A : list Z) (f g : Z -> Q) :
  (forall i, In i A -> f i == g i) -> Qsum A f == Qsum A g.
Proof.
  unfold Qsum. induction A as [| i A IH]; simpl; intros H; [reflexivity |].
  rewrite (H i) by now left.
  rewrite IH by (intros; apply H; now right). reflexivity.
Qed.

Lemma Qsum_one (f : Z -> Q) : Qsum (RangeSet 1 1) f == f 1%Z.
Proof. unfold Qsum. simpl. lra. Qed.

Lemma Qdiv_one (q : Q) : q / inject_Z 1 == q.
Proof. unfold Qdiv. change (/ inject_Z 1) with 1. ring. Qed.

Lemma equivalent_sample_data :
  equivalent_data Examples.multi_data Examples.single_data.
Proof. unfold equivalent_data. simpl. repeat split; try lra. Qed.

(** The optimum of the multi-product model on the one-month fixture:
    order the minimum quantity of 300, sell the demand of 100 and store
    the remaining 200. *)
Lemma multi_optimum inst :
  Multi.create_instance Examples.multi_data = Ok inst ->
  optimal_value (Multi.feasible inst) (Multi.OBJ inst) 41000.
Proof.
  intros E. pose proof (MultiFacts.create_instance_built _ _ E) as HB.
  split.
  - exists Examples.multi_plan. split.
    + apply (MultiModel.feasible_by_evaluation Examples.multi_data);
        [exact E | vm_compute; reflexivity].
    + destruct (MultiFacts.OBJ_closed_form _ _ Examples.multi_plan HB)
        as [_ H].
      rewrite H. vm_compute. reflexivity.
  - intros a HF.
    destruct (MultiFacts.OBJ_closed_form _ _ a HB) as [_ H]. rewrite H.
    assert (H1 : In 1%Z (Multi.I (Multi.mdl inst)))
      by (apply (MultiFacts.In_I _ _ HB); simpl; lia).
    assert (HJ : In 1%Z (Multi.J (Multi.mdl inst)))
      by (apply (MultiFacts.In_J _ _ HB); simpl; lia).
    assert (HK : In 1%Z (Multi.K (Multi.mdl inst)))
      by (apply (MultiFacts.In_K _ _ HB); simpl; lia).
    pose proof (MultiFacts.feasible_domains3 _ _ HF 1 1 1 H1 HJ HK)
      as (HV & HS & Hs & Hd).
    pose proof (MultiFacts.feasible_domains2 _ _ HF 1 1 H1 HK) as [HX Hz].
    apply within_integers_nonneg in HX.
    pose proof (MultiFacts.feasible_surplus_deficit _ _ HB _ HF 1 1 1 H1 HJ HK)
      as C1.
    pose proof (MultiFacts.feasible_stock1 _ _ HB _ HF 1 1 HJ HK) as C2.
    pose proof (MultiFacts.feasible_volume_bounds_demand
                  _ _ HB _ HF 1 1 1 H1 HJ HK) as C3.
    pose proof (MultiFacts.feasible_moq1 _ _ HB _ HF 1 1 H1 HK) as C4.
    pose proof (MultiFacts.feasible_moq2 _ _ HB _ HF 1 1 H1 HK) as C5.
    rewrite !Qsum_one. simpl in *. unfold Multi._bigM in C5.
    rewrite Qdiv_one.
    destruct Hz as [Hz | Hz]; rewrite Hz in *; lra.
Qed.

(** The optimum of the single-product model on the same data: order
    300 and sell 100; nothing makes the 200 left in stock a surplus, so
    no storage cost is charged. *)
Lemma single_optimum inst :
  Single.create_instance Examples.single_data = Ok inst ->
  optimal_value (Single.feasible inst) (Single.OBJ inst) 49000.
Proof.
  intros E. pose proof (SingleFacts.single_create_instance_built _ _ E) as HB.
  split.
  - exists Examples.single_plan. split.
    + apply (SingleModel.single_feasible_by_evaluation Examples.single_data);
        [exact E | vm_compute; reflexivity].
    + destruct (SingleFacts.single_OBJ_closed_form _ _ Examples.single_plan HB)
        as [_ H].
      rewrite H. vm_compute. reflexivity.
  - intros a HF.
    destruct (SingleFacts.single_OBJ_closed_form _ _ a HB) as [_ H]. rewrite H.
    assert (H1 : In 1%Z (Single.I (Single.mdl inst)))
      by (apply (SingleFacts.single_In_I _ _ HB); simpl; lia).
    assert (HJ : In 1%Z (Single.J (Single.mdl inst)))
      by (apply (SingleFacts.single_In_J _ _ HB); simpl; lia).
    pose proof (SingleFacts.single_feasible_domains2 _ _ HF 1 1 H1 HJ)
      as (HV & HS & Hs & Hd).
    pose proof (SingleFacts.single_feasible_domains1 _ _ HF 1 H1) as [HX Hz].
    pose proof (SingleFacts.single_feasible_surplus_deficit _ _ HB _ HF 1 1 H1 HJ)
      as C1.
    pose proof (SingleFacts.single_feasible_stock1 _ _ HB _ HF 1 HJ) as C2.
    pose proof (SingleFacts.single_feasible_volume_bounds _ _ HB _ HF 1 1 H1 HJ)
      as C3.
    pose proof (SingleFacts.single_feasible_moq1 _ _ HB _ HF 1 H1) as C4.
    pose proof (SingleFacts.single_feasible_moq2 _ _ HB _ HF 1 H1) as C5.
    rewrite !Qsum_one. simpl in *. unfold Single._bigM in C5.
    rewrite Qdiv_one.
    destruct Hz as [Hz | Hz]; rewrite Hz in *; lra.
Qed.

(** C1, as stated, fails, by the same defect of the code: with one SKU
    and equivalent data the two formulations should have the same
    optimal objective value, but the single-product
    [_const_surplus_deficit] reads [V + s - d == D] where [model.py] has
    [V + s == S], so the single-product model never charges the storage
    cost of unsold stock.  On the one-month fixture, with one SKU and
    equivalent data, the optimal objective value of the multi-product
    formulation is 41000 and that of the single-product formulation is
    49000. *)
Lemma optimal_values_counterexample :
  equivalent_data Examples.multi_data Examples.single_data /\
  exists mi si,
    Multi.create_instance Examples.multi_data = Ok mi /\
    Single.create_instance Examples.single_data = Ok si /\
    optimal_value (Multi.feasible mi) (Multi.OBJ mi) 41000 /\
    optimal_value (Single.feasible si) (Single.OBJ si) 49000 /\
    ~ 41000 == 49000.
Proof.
  split; [exact equivalent_sample_data |].
  destruct (Multi.create_instance Examples.multi_data) as [mi | e] eqn:E1;
    [| vm_compute in E1; discriminate E1].
  destruct (Single.create_instance Examples.single_data) as [si | e] eqn:E2;
    [| vm_compute in E2; discriminate E2].
  exists mi, si. repeat split; try reflexivity.
  - apply (multi_optimum mi E1).
  - apply (multi_optimum mi E1).
  - apply (single_optimum si E2).
  - apply (single_optimum si E2).
  - lra.
Qed.

(** X22. With one SKU and equivalent data the two formulations have the
    same objective function: at every assignment the objective of the
    multi-product model built by [create_model] of [model.py] equals the
    objective of the single-product model built by [create_model] of
    [model-one-product.py] at the same values (the SKU index dropped). *)
Theorem objectives_agree md sd mi si :
  equivalent_data md sd ->
  Multi.create_instance md = Ok mi ->
  Single.create_instance sd = Ok si ->
  forall a, Multi.OBJ mi a == Single.OBJ si (drop_sku a).
Proof.
  intros (Hk & Hm & Hs & HD & HCM & HW & HO & HL & _) E1 E2 a.
  pose proof (MultiFacts.create_instance_built _ _ E1) as HB1.
  pose proof (SingleFacts.single_create_instance_built _ _ E2) as HB2.
  destruct (MultiFacts.OBJ_closed_form _ _ a HB1) as [_ H1].
  destruct (SingleFacts.single_OBJ_closed_form _ _ (drop_sku a) HB2) as [_ H2].
  rewrite H1, H2, Hk, Hm, Hs. unfold Qdiv.
  apply Qplus_comp; [apply Qmult_comp; [| reflexivity] | apply Qopp_comp].
  - apply Qsum_ext. intros i _. apply Qsum_ext. intros j _.
    rewrite Qsum_one. simpl. rewrite HCM, HW, HO. reflexivity.
  - apply Qsum_ext. intros i _.
    rewrite Qsum_one. simpl. rewrite HL. reflexivity.
Qed.

Lemma objectives_agree_witness :
  exists mi si,
    Multi.create_instance Examples.multi_data = Ok mi /\
    Single.create_instance Examples.single_data = Ok si /\
    Multi.OBJ mi Examples.multi_plan
    == Single.OBJ si (drop_sku Examples.multi_plan).
Proof.
  destruct (Multi.create_instance Examples.multi_data) as [mi | e] eqn:E1;
    [| vm_compute in E1; discriminate E1].
  destruct (Single.create_instance Examples.single_data) as [si | e] eqn:E2;
    [| vm_compute in E2; discriminate E2].
  exists mi, si. split; [reflexivity |]. split; [reflexivity |].
  apply (objectives_agree Examples.multi_data Examples.single_data mi si).
  - unfold equivalent_data. simpl.
    repeat split; try reflexivity; vm_compute; reflexivity.
  - exact E1.
  - exact E2.
Defined.

End Equivalence.

(* ================================================================== *)
(** ** Further properties of the multi-product model                   *)
(* ================================================================== *)

Module MultiPlans.
Import Py Pyomo PyFacts Multi MultiFacts.

(** *** Sums over index sets *)

Lemma Qsum_app (A B : list Z) (f : Z -> Q) :
  Qsum (A ++ B) f == Qsum A f + Qsum B f.
Proof.
  unfold Qsum. induction A as [| i A IH]; simpl; [lra | rewrite IH; lra].
Qed.

Lemma Qsum_le (A : list Z) (f g : Z -> Q) :
  (forall i, In i A -> f i <= g i) -> Qsum A f <= Qsum A g.
Proof.
  unfold Qsum. induction A as [| i A IH]; simpl; intros H; [lra |].
  assert (f i <= g i) by (apply H; now left).
  assert (fold_right (fun i acc => f i + acc) 0 A
          <= fold_right (fun i acc => g i + acc) 0 A)
    by (apply IH; intros; apply H; now right).
  lra.
Qed.

Lemma Qsum_nonneg (A : list Z) (f : Z -> Q) :
  (forall i, In i A -> 0 <= f i) -> 0 <= Qsum A f.
Proof.
  unfold Qsum. induction A as [| i A IH]; simpl; intros H; [lra |].
  assert (0 <= f i) by (apply H; now left).
  assert (0 <= fold_right (fun i acc => f i + acc) 0 A)
    by (apply IH; intros; apply H; now right).
  lra.
Qed.

Lemma Qsum_term_le (A : list Z) (f : Z -> Q) (k : Z) :
  (forall i, In i A -> 0 <= f i) -> In k A -> f k <= Qsum A f.
Proof.
  unfold Qsum. induction A as [| i A IH]; simpl; intros H Hk; [tauto |].
  assert (0 <= f i) by (apply H; now left).
  assert (0 <= fold_right (fun i acc => f i + acc) 0 A)
    by (apply (Qsum_nonneg A f); intros; apply H; now right).
  destruct Hk as [-> | Hk]; [lra |].
  assert (f k <= fold_right (fun i acc => f i + acc) 0 A)
    by (apply IH; [intros; apply H; now right | exact Hk]).
  lra.
Qed.

Lemma RangeSet_snoc (m : Z) :
  (0 <= m)%Z -> RangeSet 1 (m + 1) = RangeSet 1 m ++ [(m + 1)%Z].
Proof.
  intros Hm. unfold RangeSet, range.
  replace (Z.to_nat (m + 1 + 1 - 1)) with (Datatypes.S (Z.to_nat m)) by lia.
  replace (Z.to_nat (m + 1 - 1)) with (Z.to_nat m) by lia.
  rewrite seq_S, map_app. cbn [map]. do 2 f_equal. lia.
Qed.

(** *** What the validation of the parameters established *)

Lemma Param1_Ok (A : list Z) (p : Z -> Q) (u : unit) :
  Param1 NonNegativeReals A p = Ok u -> forall k, In k A -> 0 <= p k.
Proof.
  unfold Param1. destruct (forallb _ A) eqn:Hf; [| discriminate].
  intros _ k Hk. rewrite forallb_forall in Hf.
  apply within_reals. now apply Hf.
Qed.

Lemma Param3_Ok (A B C : list Z) (p : Z -> Z -> Z -> Q) (u : unit) :
  Param3 NonNegativeReals A B C p = Ok u ->
  forall i j k, In i A -> In j B -> In k C -> 0 <= p i j k.
Proof.
  unfold Param3. destruct (forallb _ _) eqn:Hf; [| discriminate].
  intros _ i j k Hi Hj Hk. rewrite forallb_forall in Hf.
  apply within_reals. apply (Hf (i, j, k)). apply In_cross3. auto.
Qed.

Lemma valid_values dt inst :
  create_instance dt = Ok inst ->
  (forall i j k,
      (1 <= i <= n_months dt)%Z -> (1 <= j <= n_scenarios dt)%Z ->
      (1 <= k <= n_skus dt)%Z -> 0 <= D dt i j k) /\
  (forall k,
      (1 <= k <= n_skus dt)%Z ->
      0 <= SP dt k /\ 0 <= UP dt k /\ 0 <= W dt k /\ 0 <= O dt k /\
      0 <= L dt k /\ 0 <= MOQ dt k /\ 0 <= BI dt k /\ 0 <= LB dt k) /\
  0 <= UB dt.
Proof.
  unfold create_instance. intros H.
  bind_inv H. apply IntParam_Ok in Hx. destruct Hx as [-> Hm].
  bind_inv H. apply IntParam_Ok in Hx. destruct Hx as [-> Hs].
  bind_inv H. apply IntParam_Ok in Hx. destruct Hx as [-> Hk].
  do 10 (let x := fresh "u" in let Hx := fresh "Hu" in
         apply bind_Ok in H; destruct H as (x & Hx & H)).
  clear H. split; [| split].
  - intros i j k Hi Hj Hk'.
    apply (Param3_Ok _ _ _ _ _ Hu); now apply In_RangeSet.
  - intros k Hk'. apply In_RangeSet in Hk'.
    repeat split; eapply Param1_Ok; eauto.
  - unfold Param in Hu7. destruct (within _ (UB dt)) eqn:Hw; [| discriminate].
    now apply within_reals.
Qed.

(** *** Invariants of feasible plans *)

Lemma feasible_stock_max dt inst a i j :
  built dt inst -> feasible inst a ->
  In i (I (mdl inst)) -> In j (J (mdl inst)) ->
  Qsum (RangeSet 1 (n_skus dt)) (fun k => S a i j k * UP dt k) <= UB dt.
Proof.
  intros HB HF Hi Hj.
  destruct (feasible_parts inst a HF) as (_ & _ & _ & _ & H & _).
  assert (Hin : In (i, j) (cross2 (I (mdl inst)) (J (mdl inst))))
    by (apply In_cross2; auto).
  destruct (Constraint_complete _ _ _ _ _ (i, j) (b_stock_max HB) Hin)
    as (oc & Hoc & Hc).
  unfold _const_stock_max in Hoc.
  rewrite (mapM_Ok _ (fun k (a0 : assignment) =>
                        S a0 i j k * UP (params (mdl inst)) k)) in Hoc.
  2:{ intros k Hk. unfold var_S, par_UP.
      rewrite var3_Ok, par1_Ok by assumption. reflexivity. }
  cbn [bind] in Hoc.
  remember (map (fun k (a0 : assignment) =>
                   S a0 i j k * UP (params (mdl inst)) k)
                (K (mdl inst))) as terms eqn:Et.
  assert (Hoc' : oc = Some (LeC (esum terms) (par_UB (mdl inst))))
    by (destruct terms; [discriminate | now inversion Hoc]).
  assert (P : holds a (LeC (esum terms) (par_UB (mdl inst)))).
  { rewrite Forall_forall in H. apply H. apply in_map_iff.
    eexists (_, _). split; [reflexivity |]. now apply Hc. }
  subst terms. cbn [holds] in P. rewrite esum_map in P.
  unfold par_UB, econst in P. rewrite (params_m dt inst HB) in P.
  rewrite (b_mdl HB) in P. cbn [K] in P. exact P.
Qed.

(** X1. In every feasible solution of the multi-product model the value
    of the stock on hand, summed over the SKUs, stays within the
    budget: [sum over k of S[i,j,k] * UP[k] <= UB] for every month and
    scenario; and so does the stock value of every single SKU. *)
Theorem inventory_value_cap dt inst a i j :
  create_instance dt = Ok inst ->
  feasible inst a ->
  (1 <= i <= n_months dt)%Z ->
  (1 <= j <= n_scenarios dt)%Z ->
  Qsum (RangeSet 1 (n_skus dt)) (fun k => S a i j k * UP dt k) <= UB dt /\
  forall k, (1 <= k <= n_skus dt)%Z -> S a i j k * UP dt k <= UB dt.
Proof.
  intros E HF Hi Hj. pose proof (create_instance_built _ _ E) as HB.
  apply (In_I dt inst HB) in Hi. apply (In_J dt inst HB) in Hj.
  pose proof (feasible_stock_max dt inst a i j HB HF Hi Hj) as Hcap.
  split; [exact Hcap |]. intros k Hk.
  apply Qle_trans with (2 := Hcap).
  apply (Qsum_term_le _ (fun k => S a i j k * UP dt k)).
  - intros k' Hk'. apply In_RangeSet in Hk'.
    destruct (valid_values dt inst E) as (_ & Hv & _).
    destruct (Hv k' Hk') as (_ & HUP & _).
    assert (Hk'' : In k' (K (mdl inst))) by now apply (In_K dt inst HB).
    pose proof (feasible_domains3 inst a HF i j k' Hi Hj Hk'')
      as (_ & HS & _).
    now apply Qmult_le_0_compat.
  - now apply In_RangeSet.
Qed.

Lemma inventory_value_cap_witness :
  exists inst,
    create_instance Examples.multi_data = Ok inst /\
    S Examples.multi_plan 1 1 1 * UP Examples.multi_data 1
    <= UB Examples.multi_data.
Proof.
  destruct (create_instance Examples.multi_data) as [inst | e] eqn:E.
  - exists inst. split; [reflexivity |].
    apply (inventory_value_cap Examples.multi_data inst
                               Examples.multi_plan 1 1 E).
    + apply (MultiModel.feasible_by_evaluation Examples.multi_data);
        [exact E | vm_compute; reflexivity].
    + simpl. lia.
    + simpl. lia.
    + simpl. lia.
  - vm_compute in E. discriminate E.
Defined.

(** X2. In every feasible solution of the multi-product model sales and
    deficit make up the demand, [V + d = D]; what is left after the
    sales of a month is at least the stock buffer, [S - V >= LB]; and
    therefore the surplus is at least the buffer and the deficit at
    most the demand: [s >= LB] and [d <= D]. *)
Theorem demand_split_and_buffer dt inst a i j k :
  create_instance dt = Ok inst ->
  feasible inst a ->
  (1 <= i <= n_months dt)%Z ->
  (1 <= j <= n_scenarios dt)%Z ->
  (1 <= k <= n_skus dt)%Z ->
  V a i j k + d a i j k == D dt i j k /\
  LB dt k <= S a i j k - V a i j k /\
  LB dt k <= s a i j k /\
  d a i j k <= D dt i j k.
Proof.
  intros E HF Hi Hj Hk. pose proof (create_instance_built _ _ E) as HB.
  apply (In_I dt inst HB) in Hi.
  apply (In_J dt inst HB) in Hj.
  apply (In_K dt inst HB) in Hk.
  pose proof (feasible_domains3 inst a HF i j k Hi Hj Hk) as (HV & _).
  pose proof (feasible_surplus_deficit dt inst HB a HF i j k Hi Hj Hk) as H1.
  pose proof (feasible_volume_bounds_demand dt inst HB a HF i j k Hi Hj Hk)
    as H2.
  pose proof (feasible_stock_buffer dt inst HB a HF i j k Hi Hj Hk) as H3.
  repeat split; lra.
Qed.

Lemma demand_split_and_buffer_witness :
  exists inst,
    create_instance Examples.multi_data = Ok inst /\
    LB Examples.multi_data 1 <= s Examples.multi_plan 1 1 1.
Proof.
  destruct (create_instance Examples.multi_data) as [inst | e] eqn:E.
  - exists inst. split; [reflexivity |].
    apply (demand_split_and_buffer Examples.multi_data inst
                                   Examples.multi_plan 1 1 1 E).
    + apply (MultiModel.feasible_by_evaluation Examples.multi_data);
        [exact E | vm_compute; reflexivity].
    + simpl. lia.
    + simpl. lia.
    + simpl. lia.
  - vm_compute in E. discriminate E.
Defined.

(** X3. Inventory balance.  In every feasible solution of the
    multi-product model the stock of month [i] is the beginning
    inventory plus everything ordered up to month [i] minus everything
    sold before month [i]:
    [S[i,j,k] = BI[k] + sum_{t<=i} X[t,k] - sum_{t<i} V[t,j,k]]. *)
Theorem stock_balance dt inst a i j k :
  create_instance dt = Ok inst ->
  feasible inst a ->
  (1 <= i <= n_months dt)%Z ->
  (1 <= j <= n_scenarios dt)%Z ->
  (1 <= k <= n_skus dt)%Z ->
  S a i j k ==
  BI dt k + Qsum (RangeSet 1 i) (fun t => X a t k)
  - Qsum (RangeSet 1 (i - 1)) (fun t => V a t j k).
Proof.
  intros E HF Hi Hj Hk. pose proof (create_instance_built _ _ E) as HB.
  apply (In_J dt inst HB) in Hj. apply (In_K dt inst HB) in Hk.
  assert (G : forall n : nat,
             (1 + Z.of_nat n <= n_months dt)%Z ->
             S a (1 + Z.of_nat n) j k ==
             BI dt k + Qsum (RangeSet 1 (1 + Z.of_nat n)) (fun t => X a t k)
             - Qsum (RangeSet 1 (Z.of_nat n)) (fun t => V a t j k)).
  { induction n as [| n IH]; intros Hn.
    - change (1 + Z.of_nat 0)%Z with 1%Z. change (Z.of_nat 0) with 0%Z.
      rewrite (feasible_stock1 dt inst HB a HF j k Hj Hk).
      unfold Qsum. simpl. lra.
    - assert (Hprev : In (1 + Z.of_nat n)%Z (I (mdl inst)))
        by (apply (In_I dt inst HB); lia).
      assert (Hcur : In (1 + Z.of_nat (Datatypes.S n))%Z (I (mdl inst)))
        by (apply (In_I dt inst HB); lia).
      pose proof (feasible_stock dt inst HB a HF _ j k Hcur Hj Hk) as Hrec.
      replace (1 + Z.of_nat (Datatypes.S n) - 1)%Z with (1 + Z.of_nat n)%Z
        in Hrec by lia.
      pose proof (feasible_surplus_deficit dt inst HB a HF _ j k Hprev Hj Hk)
        as Hsplit.
      specialize (IH ltac:(lia)).
      replace (1 + Z.of_nat (Datatypes.S n))%Z
        with (1 + Z.of_nat n + 1)%Z in * by lia.
      replace (Z.of_nat (Datatypes.S n)) with (Z.of_nat n + 1)%Z by lia.
      rewrite (RangeSet_snoc (1 + Z.of_nat n)) by lia.
      rewrite (RangeSet_snoc (Z.of_nat n)) by lia.
      rewrite !Qsum_app. unfold Qsum at 2 4. cbn [fold_right].
      replace (Z.of_nat n + 1)%Z with (1 + Z.of_nat n)%Z by lia.
      rewrite Hrec by lia. lra. }
  pose proof (G (Z.to_nat (i - 1)) ltac:(lia)) as P.
  replace (1 + Z.of_nat (Z.to_nat (i - 1)))%Z with i in P by lia.
  replace (Z.of_nat (Z.to_nat (i - 1))) with (i - 1)%Z in P by lia.
  exact P.
Qed.

Lemma stock_balance_witness :
  exists inst,
    create_instance Examples.two_month_data = Ok inst /\
    S Examples.two_month_plan 2 1 1 ==
    BI Examples.two_month_data 1
    + Qsum (RangeSet 1 2) (fun t => X Examples.two_month_plan t 1)
    - Qsum (RangeSet 1 (2 - 1)) (fun t => V Examples.two_month_plan t 1 1).
Proof.
  destruct (create_instance Examples.two_month_data) as [inst | e] eqn:E.
  - exists inst. split; [reflexivity |].
    apply (stock_balance Examples.two_month_data inst
                         Examples.two_month_plan 2 1 1 E).
    + apply (MultiModel.feasible_by_evaluation Examples.two_month_data);
        [exact E | vm_compute; reflexivity].
    + simpl. lia.
    + simpl. lia.
    + simpl. lia.
  - vm_compute in E. discriminate E.
Defined.

(** X4. In every feasible solution of the multi-product model an order
    is a whole number of units, and it is either nothing or at least
    the minimum order quantity and at most the big-M constant:
    [X[i,k] = 0] or [MOQ[k] <= X[i,k] <= 100000]. *)
Theorem order_zero_or_between_moq_and_bigM dt inst a i k :
  create_instance dt = Ok inst ->
  feasible inst a ->
  (1 <= i <= n_months dt)%Z ->
  (1 <= k <= n_skus dt)%Z ->
  is_integer (X a i k) = true /\
  (X a i k == 0 \/ (MOQ dt k <= X a i k /\ X a i k <= 100000)).
Proof.
  intros E HF Hi Hk. pose proof (create_instance_built _ _ E) as HB.
  apply (In_I dt inst HB) in Hi. apply (In_K dt inst HB) in Hk.
  pose proof (feasible_moq1 dt inst HB a HF i k Hi Hk) as H1.
  pose proof (feasible_moq2 dt inst HB a HF i k Hi Hk) as H2.
  pose proof (feasible_domains2 inst a HF i k Hi Hk) as [HX Hz].
  unfold _bigM in H2. split.
  - simpl in HX. apply andb_true_iff in HX. tauto.
  - apply within_integers_nonneg in HX.
    destruct Hz as [Hz | Hz]; rewrite Hz in *; [left | right]; lra.
Qed.

Lemma order_zero_or_between_moq_and_bigM_witness :
  exists inst,
    create_instance Examples.multi_data = Ok inst /\
    is_integer (X Examples.multi_plan 1 1) = true /\
    (X Examples.multi_plan 1 1 == 0 \/
     (MOQ Examples.multi_data 1 <= X Examples.multi_plan 1 1 /\
      X Examples.multi_plan 1 1 <= 100000)).
Proof.
  destruct (create_instance Examples.multi_data) as [inst | e] eqn:E.
  - exists inst. split; [reflexivity |].
    apply (order_zero_or_between_moq_and_bigM
             Examples.multi_data inst Examples.multi_plan 1 1 E).
    + apply (MultiModel.feasible_by_evaluation Examples.multi_data);
        [exact E | vm_compute; reflexivity].
    + simpl. lia.
    + simpl. lia.
  - vm_compute in E. discriminate E.
Defined.

(** X5. When no SKU sells below its unit cost, the objective of every
    feasible solution of the multi-product model is at most the
    scenario average of the margin on the whole demand,
    [(1/n_scenarios) * sum over i,j,k of (SP[k]-UP[k]) * D[i,j,k]]. *)
Theorem objective_upper_bound dt inst a :
  create_instance dt = Ok inst ->
  feasible inst a ->
  (forall k, (1 <= k <= n_skus dt)%Z -> UP dt k <= SP dt k) ->
  OBJ inst a <=
  Qsum (RangeSet 1 (n_months dt)) (fun i =>
    Qsum (RangeSet 1 (n_scenarios dt)) (fun j =>
      Qsum (RangeSet 1 (n_skus dt)) (fun k =>
        (SP dt k - UP dt k) * D dt i j k)))
  / inject_Z (n_scenarios dt).
Proof.
  intros E HF Hmargin. pose proof (create_instance_built _ _ E) as HB.
  destruct (OBJ_closed_form dt inst a HB) as [Hn Hobj]. rewrite Hobj.
  destruct (valid_values dt inst E) as (_ & Hv & _).
  set (A := Qsum _ (fun i => Qsum _ (fun j => Qsum _ (fun k =>
              (SP dt k - UP dt k) * V a i j k - W dt k * s a i j k
              - O dt k * d a i j k)))).
  set (B := Qsum _ (fun i => Qsum _ (fun j => Qsum _ (fun k =>
              (SP dt k - UP dt k) * D dt i j k)))).
  set (C := Qsum _ (fun i => Qsum _ (fun k => L dt k * z a i k))).
  assert (HAB : A <= B).
  { unfold A, B. apply Qsum_le. intros i Hi. apply Qsum_le. intros j Hj.
    apply Qsum_le. intros k Hk.
    destruct (Hv k (proj1 (In_RangeSet _ _) Hk))
      as (_ & _ & HW & HO & _).
    specialize (Hmargin k (proj1 (In_RangeSet _ _) Hk)).
    apply In_RangeSet in Hi, Hj, Hk.
    apply (In_I dt inst HB) in Hi.
    apply (In_J dt inst HB) in Hj.
    apply (In_K dt inst HB) in Hk.
    pose proof (feasible_domains3 inst a HF i j k Hi Hj Hk)
      as (HV & _ & Hs & Hd).
    pose proof (feasible_volume_bounds_demand dt inst HB a HF i j k Hi Hj Hk)
      as Hsplit.
    assert (0 <= W dt k * s a i j k) by now apply Qmult_le_0_compat.
    assert (0 <= O dt k * d a i j k) by now apply Qmult_le_0_compat.
    assert ((SP dt k - UP dt k) * V a i j k
            <= (SP dt k - UP dt k) * D dt i j k).
    { rewrite !(Qmult_comm (SP dt k - UP dt k)).
      apply Qmult_le_compat_r; lra. }
    lra. }
  assert (HC : 0 <= C).
  { unfold C. apply Qsum_nonneg. intros i Hi. apply Qsum_nonneg.
    intros k Hk.
    destruct (Hv k (proj1 (In_RangeSet _ _) Hk)) as (_ & _ & _ & _ & HL & _).
    apply In_RangeSet in Hi, Hk.
    apply (In_I dt inst HB) in Hi. apply (In_K dt inst HB) in Hk.
    pose proof (feasible_domains2 inst a HF i k Hi Hk) as [_ Hz].
    apply Qmult_le_0_compat; [exact HL |].
    destruct Hz as [-> | ->]; lra. }
  assert (Hinv : 0 <= / inject_Z (n_scenarios dt)).
  { apply Qinv_le_0_compat. pose proof (b_scenarios HB).
    unfold Qle. simpl. lia. }
  assert (A / inject_Z (n_scenarios dt) <= B / inject_Z (n_scenarios dt)).
  { unfold Qdiv. now apply Qmult_le_compat_r. }
  lra.
Qed.

Lemma objective_upper_bound_witness :
  exists inst,
    create_instance Examples.multi_data = Ok inst /\
    OBJ inst Examples.multi_plan <= 50000.
Proof.
  destruct (create_instance Examples.multi_data) as [inst | e] eqn:E.
  - exists inst. split; [reflexivity |].
    assert (HF : feasible inst Examples.multi_plan).
    { apply (MultiModel.feasible_by_evaluation Examples.multi_data);
        [exact E | vm_compute; reflexivity]. }
    apply Qle_trans
      with (1 := objective_upper_bound Examples.multi_data inst
                   Examples.multi_plan E HF
                   ltac:(intros k _; vm_compute; discriminate)).
    vm_compute. discriminate.
  - vm_compute in E. discriminate E.
Defined.

End MultiPlans.

(* ================================================================== *)
(** ** The construction of a multi-product instance                    *)
(* ================================================================== *)

Module MultiConstruction.
Import Py Pyomo PyFacts Multi MultiFacts.

(** *** Validation on data without negative values *)

Lemma Param_pass (q : Q) : 0 <= q -> Param NonNegativeReals q = Ok q.
Proof. intros H. unfold Param. apply within_reals in H. now rewrite H. Qed.

Lemma Param1_pass (A : list Z) (p : Z -> Q) :
  (forall k, 0 <= p k) -> Param1 NonNegativeReals A p = Ok tt.
Proof.
  intros H. unfold Param1.
  replace (forallb (fun k => within NonNegativeReals (p k)) A) with true;
    [reflexivity |].
  symmetry. apply forallb_forall. intros k _. now apply within_reals.
Qed.

Lemma Param3_pass (A B C : list Z) (p : Z -> Z -> Z -> Q) :
  (forall i j k, 0 <= p i j k) -> Param3 NonNegativeReals A B C p = Ok tt.
Proof.
  intros H. unfold Param3.
  match goal with |- (if ?b then _ else _) = _ => replace b with true end;
    [reflexivity |].
  symmetry. apply forallb_forall. intros [[i j] k] _. now apply within_reals.
Qed.

Lemma nonnegative_values dt :
  ~ negative_value dt ->
  ((0 <= n_months dt)%Z /\ (0 <= n_scenarios dt)%Z /\ (0 <= n_skus dt)%Z) /\
  (forall i j k, 0 <= D dt i j k) /\
  (forall k, 0 <= SP dt k /\ 0 <= UP dt k /\ 0 <= W dt k /\ 0 <= O dt k /\
             0 <= L dt k /\ 0 <= MOQ dt k /\ 0 <= BI dt k /\ 0 <= LB dt k) /\
  0 <= UB dt.
Proof.
  unfold negative_value. intros H.
  split; [lia |]. split; [| split].
  - intros i j k. apply Qnot_lt_le. intros Hlt. apply H.
    do 3 right. left. eauto.
  - intros k. repeat split; apply Qnot_lt_le; intros Hlt; apply H;
      do 4 right; left; exists k; tauto.
  - apply Qnot_lt_le. intros Hlt. apply H. tauto.
Qed.

(** The rest of [create_instance] once the validation has passed. *)
Lemma create_instance_validated dt :
  ~ negative_value dt ->
  create_instance dt =
  (let m := mk_model dt (RangeSet 1 (n_months dt))
                     (RangeSet 1 (n_scenarios dt))
                     (RangeSet 1 (n_skus dt)) in
   c_surplus_deficit <-
     Constraint (cross3 (I m) (J m) (K m)) (_const_surplus_deficit m) ;;
   c_stock1 <- Constraint (cross2 (J m) (K m)) (_const_stock1 m) ;;
   c_stock <- Constraint (cross3 (I m) (J m) (K m)) (_const_stock m) ;;
   c_stock_buffer <-
     Constraint (cross3 (I m) (J m) (K m)) (_const_stock_buffer m) ;;
   c_stock_max <- Constraint (cross2 (I m) (J m)) (_const_stock_max m) ;;
   c_volume_bounds_demand <-
     Constraint (cross3 (I m) (J m) (K m)) (_const_volume_bounds_demand m) ;;
   c_moq1 <- Constraint (cross2 (I m) (K m)) (_const_moq1 m) ;;
   c_moq2 <- Constraint (cross2 (I m) (K m)) (_const_moq2 m) ;;
   obj <- obj_expression m ;;
   Ok (mk_instance m c_surplus_deficit c_stock1 c_stock c_stock_buffer
                   c_stock_max c_volume_bounds_demand c_moq1 c_moq2
                   obj maximize)).
Proof.
  intros H. destruct (nonnegative_values dt H)
    as ((Hm & Hs & Hk) & HD & Hv & HUB).
  unfold create_instance.
  rewrite !IntParam_nonneg by assumption. cbn [bind].
  rewrite Param3_pass by exact HD. cbn [bind].
  rewrite !Param1_pass by (intros k; apply (Hv k)). cbn [bind].
  rewrite Param_pass by exact HUB. cbn [bind].
  reflexivity.
Qed.

(** *** Index sets *)

Lemma RangeSet_length (n : Z) : length (RangeSet 1 n) = Z.to_nat n.
Proof.
  unfold RangeSet, range. rewrite length_map, length_seq. lia.
Qed.

Lemma RangeSet_first (n : Z) :
  (1 <= n)%Z -> RangeSet 1 n = 1%Z :: range 2 (n + 1).
Proof.
  intros Hn. unfold RangeSet, range.
  replace (Z.to_nat (n + 1 - 1)) with (Datatypes.S (Z.to_nat (n + 1 - 2)))
    by lia.
  cbn [seq map]. f_equal. rewrite <- seq_shift, map_map.
  apply map_ext. intros x. lia.
Qed.

Lemma cross2_length (A B : list Z) :
  length (cross2 A B) = (length A * length B)%nat.
Proof.
  unfold cross2. induction A as [| i A IH]; simpl; [reflexivity |].
  now rewrite length_app, length_map, IH.
Qed.

Lemma cross3_length (A B C : list Z) :
  length (cross3 A B C) = (length A * length B * length C)%nat.
Proof.
  assert (Hrow : forall i : Z,
             length (flat_map (fun j => map (fun k => (i, j, k)) C) B)
             = (length B * length C)%nat).
  { intros i. induction B as [| j B IH]; simpl; [reflexivity |].
    now rewrite length_app, length_map, IH. }
  unfold cross3. induction A as [| i A IH]; simpl; [reflexivity |].
  rewrite length_app, IH, Hrow. lia.
Qed.

Lemma cross3_nil_m (A C : list Z) : cross3 A [] C = [].
Proof. unfold cross3. induction A; simpl; auto. Qed.

Lemma cross3_nil_r (A B : list Z) : cross3 A B [] = [].
Proof.
  assert (Hrow : forall i : Z,
             flat_map (fun j => map (fun k : Z => (i, j, k)) []) B = []).
  { intros i. induction B; simpl; auto. }
  unfold cross3. induction A as [| i A IH]; cbn [flat_map]; [reflexivity |].
  now rewrite IH, Hrow.
Qed.

(** *** Generation of the constraints of a component *)

Lemma Constraint_generated {A Ix} (keep : Ix -> bool) (indices : list Ix)
      (rule : Ix -> result (option (relexpr A))) :
  (forall ix, In ix indices ->
              if keep ix then exists c, rule ix = Ok (Some c)
              else rule ix = Ok None) ->
  exists cs, Constraint indices rule = Ok cs /\
             map fst cs = filter keep indices.
Proof.
  induction indices as [| ix rest IH]; intros H.
  - exists []. split; reflexivity.
  - destruct IH as (cs & Hcs & Hfst); [intros; apply H; now right |].
    pose proof (H ix (or_introl eq_refl)) as Hix.
    cbn [Constraint filter]. rewrite Hcs.
    destruct (keep ix).
    + destruct Hix as (c & ->). cbn [bind]. eexists. split; [reflexivity |].
      simpl. now rewrite Hfst.
    + rewrite Hix. cbn [bind]. exists cs. split; [reflexivity | exact Hfst].
Qed.

Lemma Constraint_all {A Ix} (indices : list Ix)
      (rule : Ix -> result (option (relexpr A))) :
  (forall ix, In ix indices -> exists c, rule ix = Ok (Some c)) ->
  exists cs, Constraint indices rule = Ok cs /\
             length cs = length indices.
Proof.
  intros H.
  destruct (Constraint_generated (fun _ => true) indices rule H)
    as (cs & Hcs & Hfst).
  exists cs. split; [exact Hcs |].
  rewrite <- (length_map fst), Hfst. f_equal.
  clear. induction indices; simpl; congruence.
Qed.

Lemma Constraint_raises {A Ix} (ix : Ix) (rest : list Ix)
      (rule : Ix -> result (option (relexpr A))) (e : exn) :
  rule ix = Raise e -> Constraint (ix :: rest) rule = Raise e.
Proof. intros H. cbn [Constraint]. now rewrite H. Qed.

Lemma mapM_total {A B} (f : A -> result B) (l : list A) :
  (forall x, In x l -> exists y, f x = Ok y) -> exists ys, mapM f l = Ok ys.
Proof.
  induction l as [| x l IH]; intros H; [exists []; reflexivity |].
  destruct (H x (or_introl eq_refl)) as (y & Hy).
  destruct IH as (ys & Hys); [intros; apply H; now right |].
  exists (y :: ys). cbn [mapM]. now rewrite Hy, Hys.
Qed.

Ltac rule_succeeds :=
  repeat first [ rewrite var3_Ok by assumption
               | rewrite var2_Ok by assumption
               | rewrite par1_Ok by assumption
               | rewrite par3_Ok by assumption ];
  cbn [bind]; eexists; reflexivity.

Section Components.
Variable dt : data.

Let m := mk_model dt (RangeSet 1 (n_months dt))
                  (RangeSet 1 (n_scenarios dt))
                  (RangeSet 1 (n_skus dt)).

Lemma surplus_deficit_generated :
  exists cs,
    Constraint (cross3 (I m) (J m) (K m)) (_const_surplus_deficit m) = Ok cs
    /\ length cs = length (cross3 (I m) (J m) (K m)).
Proof.
  apply Constraint_all. intros [[i j] k] Hin.
  apply In_cross3 in Hin. destruct Hin as (Hi & Hj & Hk).
  unfold _const_surplus_deficit, var_V, var_s, var_S. rule_succeeds.
Qed.

Lemma stock_buffer_generated :
  exists cs,
    Constraint (cross3 (I m) (J m) (K m)) (_const_stock_buffer m) = Ok cs
    /\ length cs = length (cross3 (I m) (J m) (K m)).
Proof.
  apply Constraint_all. intros [[i j] k] Hin.
  apply In_cross3 in Hin. destruct Hin as (Hi & Hj & Hk).
  unfold _const_stock_buffer, var_V, var_S, par_LB. rule_succeeds.
Qed.

Lemma volume_bounds_demand_generated :
  exists cs,
    Constraint (cross3 (I m) (J m) (K m)) (_const_volume_bounds_demand m)
    = Ok cs
    /\ length cs = length (cross3 (I m) (J m) (K m)).
Proof.
  apply Constraint_all. intros [[i j] k] Hin.
  apply In_cross3 in Hin. destruct Hin as (Hi & Hj & Hk).
  unfold _const_volume_bounds_demand, var_V, var_d, par_D. rule_succeeds.
Qed.

Lemma stock_max_generated :
  (1 <= n_skus dt)%Z ->
  exists cs,
    Constraint (cross2 (I m) (J m)) (_const_stock_max m) = Ok cs
    /\ length cs = length (cross2 (I m) (J m)).
Proof.
  intros Hsku. apply Constraint_all. intros [i j] Hin.
  apply In_cross2 in Hin. destruct Hin as (Hi & Hj).
  unfold _const_stock_max.
  rewrite (mapM_Ok _ (fun k (a0 : assignment) =>
                        S a0 i j k * UP (params m) k)).
  - cbn [bind]. unfold m at 2. cbn [K].
    rewrite (RangeSet_first _ Hsku). cbn [map].
    eexists. reflexivity.
  - intros k Hk. unfold var_S, par_UP.
    rewrite var3_Ok, par1_Ok by assumption. reflexivity.
Qed.

Lemma moq1_generated :
  exists cs,
    Constraint (cross2 (I m) (K m)) (_const_moq1 m) = Ok cs
    /\ length cs = length (cross2 (I m) (K m)).
Proof.
  apply Constraint_all. intros [i k] Hin.
  apply In_cross2 in Hin. destruct Hin as (Hi & Hk).
  unfold _const_moq1, var_X, var_z, par_MOQ. rule_succeeds.
Qed.

Lemma moq2_generated :
  exists cs,
    Constraint (cross2 (I m) (K m)) (_const_moq2 m) = Ok cs
    /\ length cs = length (cross2 (I m) (K m)).
Proof.
  apply Constraint_all. intros [i k] Hin.
  apply In_cross2 in Hin. destruct Hin as (Hi & Hk).
  unfold _const_moq2, var_X, var_z. rule_succeeds.
Qed.

Lemma stock_generated :
  exists cs,
    Constraint (cross3 (I m) (J m) (K m)) (_const_stock m) = Ok cs
    /\ map fst cs
       = filter (fun ix : Z * Z * Z => negb (fst (fst ix) <=? 1)%Z)
                (cross3 (I m) (J m) (K m)).
Proof.
  apply Constraint_generated. intros [[i j] k] Hin.
  apply In_cross3 in Hin. destruct Hin as (Hi & Hj & Hk).
  unfold _const_stock. cbn [fst].
  destruct (Z.leb_spec i 1) as [| Hlt]; [reflexivity |]. cbn [negb].
  assert (Hp : In (i - 1)%Z (I m)).
  { unfold m in *. cbn [I] in *. apply In_RangeSet.
    apply In_RangeSet in Hi. lia. }
  unfold var_X, var_s, var_S. rule_succeeds.
Qed.

Lemma stock1_generated :
  (1 <= n_months dt)%Z ->
  exists cs,
    Constraint (cross2 (J m) (K m)) (_const_stock1 m) = Ok cs
    /\ length cs = length (cross2 (J m) (K m)).
Proof.
  intros Hm. apply Constraint_all. intros [j k] Hin.
  apply In_cross2 in Hin. destruct Hin as (Hj & Hk).
  assert (H1 : In 1%Z (I m)).
  { unfold m. cbn [I]. apply In_RangeSet. lia. }
  unfold _const_stock1, var_X, var_S, par_BI. rule_succeeds.
Qed.

Lemma margin_terms_built :
  exists es,
    mapM (fun ix : Z * Z * Z =>
            let '(i, j, k) := ix in
            SP_ <- par_SP m k ;; UP_ <- par_UP m k ;;
            V_ <- var_V m i j k ;;
            W_ <- par_W m k ;; s_ <- var_s m i j k ;;
            O_ <- par_O m k ;; d_ <- var_d m i j k ;;
            Ok ((SP_ - UP_) * V_ - W_ * s_ - O_ * d_)%E)
         (cross3 (I m) (J m) (K m)) = Ok es.
Proof.
  apply mapM_total. intros [[i j] k] Hin.
  apply In_cross3 in Hin. destruct Hin as (Hi & Hj & Hk).
  unfold par_SP, par_UP, par_W, par_O, var_V, var_s, var_d. rule_succeeds.
Qed.

Lemma shipping_terms_built :
  exists es,
    mapM (fun ix : Z * Z =>
            let '(i, k) := ix in
            L_ <- par_L m k ;; z_ <- var_z m i k ;; Ok (L_ * z_)%E)
         (cross2 (I m) (K m)) = Ok es.
Proof.
  apply mapM_total. intros [i k] Hin.
  apply In_cross2 in Hin. destruct Hin as (Hi & Hk).
  unfold par_L, var_z. rule_succeeds.
Qed.
End Components.

(** X6. Without scenarios no instance can be built: when no value of
    the data is negative and [n_scenarios = 0], the construction passes
    the validation, generates the constraints and then fails with a
    division by zero in the objective. *)
Theorem no_scenarios_division_by_zero dt :
  ~ negative_value dt ->
  n_scenarios dt = 0%Z ->
  create_instance dt = Raise ZeroDivisionError.
Proof.
  intros Hv Hs. rewrite (create_instance_validated dt Hv). cbv zeta.
  destruct (moq1_generated dt) as (c7 & H7 & _).
  destruct (moq2_generated dt) as (c8 & H8 & _).
  destruct (margin_terms_built dt) as (es & Hes).
  revert H7 H8 Hes. cbn [I J K]. rewrite Hs.
  change (RangeSet 1 0) with (@nil Z).
  rewrite !cross3_nil_m, MultiModel.cross2_nil_r.
  intros H7 H8 Hes. cbn [Constraint bind cross2 flat_map].
  rewrite H7, H8. cbn [bind].
  unfold obj_expression. cbn [I J K params n_scenarios].
  rewrite cross3_nil_m. cbn [mapM bind]. rewrite Hs. reflexivity.
Qed.

Lemma no_scenarios_division_by_zero_witness :
  create_instance
    (mk_data 1 0 1 (fun _ _ _ => 100) (fun _ => 1300) (fun _ => 800)
             (fun _ => 40) (fun _ => 1000) (fun _ => 1000) (fun _ => 300)
             (fun _ => 0) 999999 (fun _ => 0))
  = Raise ZeroDivisionError.
Proof.
  apply no_scenarios_division_by_zero.
  - unfold negative_value. simpl.
    intros [H | [H | [H | [(i & j & k & H) | [(k & H) | H]]]]];
      try lia; try (vm_compute in H; discriminate).
    repeat (destruct H as [H | H]; [vm_compute in H; discriminate |]).
    vm_compute in H; discriminate.
  - reflexivity.
Defined.

(** X7. Without months, but with scenarios and SKUs, no instance can be
    built either: the rule of the first-period stock reads [S[1,j,k]],
    which is not a valid index, and the construction fails with a
    [KeyError]. *)
Theorem no_months_key_error dt :
  ~ negative_value dt ->
  n_months dt = 0%Z ->
  (1 <= n_scenarios dt)%Z ->
  (1 <= n_skus dt)%Z ->
  create_instance dt = Raise KeyError.
Proof.
  intros Hv Hm Hs Hk. rewrite (create_instance_validated dt Hv). cbv zeta.
  cbn [I J K]. rewrite Hm. change (RangeSet 1 0) with (@nil Z).
  cbn [cross3 flat_map Constraint bind].
  rewrite (RangeSet_first (n_scenarios dt)) by exact Hs.
  rewrite (RangeSet_first (n_skus dt)) by exact Hk.
  cbn [cross2 flat_map map app].
  rewrite (Constraint_raises _ _ _ KeyError); [reflexivity |].
  reflexivity.
Qed.

Lemma no_months_key_error_witness :
  create_instance
    (mk_data 0 1 1 (fun _ _ _ => 100) (fun _ => 1300) (fun _ => 800)
             (fun _ => 40) (fun _ => 1000) (fun _ => 1000) (fun _ => 300)
             (fun _ => 0) 999999 (fun _ => 0))
  = Raise KeyError.
Proof.
  apply no_months_key_error.
  - unfold negative_value. simpl.
    intros [H | [H | [H | [(i & j & k & H) | [(k & H) | H]]]]];
      try lia; try (vm_compute in H; discriminate).
    repeat (destruct H as [H | H]; [vm_compute in H; discriminate |]).
    vm_compute in H; discriminate.
  - reflexivity.
  - simpl. lia.
  - simpl. lia.
Defined.

(** X23. Without SKUs, but with months and scenarios, no instance can
    be built: the rule of the stock-value cap sums over no SKU, its
    comparison [0 <= model.UB] is a plain [bool], and the construction
    fails with a [ValueError], although no value of the data is
    negative. *)
Theorem no_skus_value_error dt :
  ~ negative_value dt ->
  n_skus dt = 0%Z ->
  (1 <= n_months dt)%Z ->
  (1 <= n_scenarios dt)%Z ->
  create_instance dt = Raise ValueError.
Proof.
  intros Hv Hk Hm Hs. rewrite (create_instance_validated dt Hv). cbv zeta.
  cbn [I J K]. rewrite Hk. change (RangeSet 1 0) with (@nil Z).
  rewrite !cross3_nil_r, MultiModel.cross2_nil_r.
  cbn [Constraint bind].
  rewrite (RangeSet_first (n_months dt)) by exact Hm.
  rewrite (RangeSet_first (n_scenarios dt)) by exact Hs.
  cbn [cross2 flat_map map app].
  rewrite (Constraint_raises _ _ _ ValueError); [reflexivity |].
  reflexivity.
Qed.

Lemma no_skus_value_error_witness :
  create_instance
    (mk_data 1 1 0 (fun _ _ _ => 100) (fun _ => 1300) (fun _ => 800)
             (fun _ => 40) (fun _ => 1000) (fun _ => 1000) (fun _ => 300)
             (fun _ => 0) 999999 (fun _ => 0))
  = Raise ValueError.
Proof.
  apply no_skus_value_error.
  - unfold negative_value. simpl.
    intros [H | [H | [H | [(i & j & k & H) | [(k & H) | H]]]]];
      try lia; try (vm_compute in H; discriminate).
    repeat (destruct H as [H | H]; [vm_compute in H; discriminate |]).
    vm_compute in H; discriminate.
  - reflexivity.
  - simpl. lia.
  - simpl. lia.
Defined.

(** C6, amended. The construction checks [n_months] and [n_scenarios]
    against the non-negative integers only: a negative value is rejected
    with a validation error, 0 is not.  On data without negative values,
    [n_scenarios = 0] ends in a division by zero in the objective rule;
    [n_months = 0] with at least one scenario and one SKU ends in a
    [KeyError] in the rule of the first-period stock; and [n_months = 0]
    with no SKUs and at least one scenario produces an instance: it has
    no months, no constraints, and the constant objective 0. *)
Theorem zero_sizes_pass_validation dt :
  ((n_months dt < 0)%Z \/ (n_scenarios dt < 0)%Z ->
   create_instance dt = Raise ValueError) /\
  (~ negative_value dt -> n_scenarios dt = 0%Z ->
   create_instance dt = Raise ZeroDivisionError) /\
  (~ negative_value dt -> n_months dt = 0%Z ->
   (1 <= n_scenarios dt)%Z -> (1 <= n_skus dt)%Z ->
   create_instance dt = Raise KeyError) /\
  (n_months dt = 0%Z -> n_skus dt = 0%Z -> (1 <= n_scenarios dt)%Z ->
   0 <= UB dt ->
   exists inst,
     create_instance dt = Ok inst /\
     I (mdl inst) = [] /\ constraints inst = [] /\
     forall a, OBJ inst a == 0).
Proof.
  split; [| split; [| split]].
  - intros H. unfold create_instance.
    destruct (Z.lt_ge_cases (n_months dt) 0) as [Hm | Hm].
    + now rewrite (MultiModel.IntParam_negative _ Hm).
    + rewrite (IntParam_nonneg _ Hm). simpl.
      destruct H as [H | H]; [lia |].
      now rewrite (MultiModel.IntParam_negative _ H).
  - intros Hv Hs. rewrite (create_instance_validated dt Hv). cbv zeta.
    destruct (moq1_generated dt) as (c7 & H7 & _).
    destruct (moq2_generated dt) as (c8 & H8 & _).
    revert H7 H8. cbn [I J K]. rewrite Hs.
    change (RangeSet 1 0) with (@nil Z).
    rewrite !cross3_nil_m, MultiModel.cross2_nil_r.
    intros H7 H8. cbn [Constraint bind cross2 flat_map].
    rewrite H7, H8. cbn [bind].
    unfold obj_expression. cbn [I J K params n_scenarios].
    rewrite cross3_nil_m. cbn [mapM bind]. rewrite Hs. reflexivity.
  - intros Hv Hm Hs Hk. rewrite (create_instance_validated dt Hv). cbv zeta.
    cbn [I J K]. rewrite Hm. change (RangeSet 1 0) with (@nil Z).
    cbn [cross3 flat_map Constraint bind].
    rewrite (RangeSet_first (n_scenarios dt)) by exact Hs.
    rewrite (RangeSet_first (n_skus dt)) by exact Hk.
    cbn [cross2 flat_map map app].
    rewrite (Constraint_raises _ _ _ KeyError); [reflexivity |].
    reflexivity.
  - intros Hm Hk Hs HUB. unfold create_instance.
    rewrite Hm, Hk. simpl.
    rewrite (IntParam_nonneg (n_scenarios dt)) by lia. simpl.
    unfold Param3, Param1, Param. rewrite MultiModel.cross2_nil_r. simpl.
    apply Qle_bool_iff in HUB. rewrite HUB. simpl.
    unfold obj_expression. simpl. unfold ediv.
    destruct (Z.eqb_spec (n_scenarios dt) 0) as [| Hn]; [lia |]. simpl.
    eexists. split; [reflexivity |].
    split; [reflexivity |]. split; [reflexivity |].
    intros a. simpl. unfold esub, esum. simpl.
    unfold Qdiv. ring.
Qed.

Lemma zero_sizes_pass_validation_witness :
  exists inst,
    create_instance Examples.empty_data = Ok inst /\
    I (mdl inst) = [] /\ constraints inst = [] /\
    forall a, OBJ inst a == 0.
Proof.
  apply (zero_sizes_pass_validation Examples.empty_data).
  - reflexivity.
  - reflexivity.
  - simpl. lia.
  - unfold Qle. simpl. lia.
Defined.

Lemma filter_all {A} (f : A -> bool) (l : list A) :
  (forall x, In x l -> f x = true) -> filter f l = l.
Proof.
  induction l as [| x l IH]; simpl; intros H; [reflexivity |].
  rewrite (H x) by now left. f_equal. apply IH. intros; apply H; now right.
Qed.

Lemma filter_none {A} (f : A -> bool) (l : list A) :
  (forall x, In x l -> f x = false) -> filter f l = [].
Proof.
  induction l as [| x l IH]; simpl; intros H; [reflexivity |].
  rewrite (H x) by now left. apply IH. intros; apply H; now right.
Qed.

Lemma cross3_cons (i : Z) (A B C : list Z) :
  cross3 (i :: A) B C = cross3 [i] B C ++ cross3 A B C.
Proof. unfold cross3. cbn [flat_map]. now rewrite app_nil_r. Qed.

(** The recursion constraint is generated at every index tuple but
    those of the first month. *)
Lemma stock_window_length (nm : Z) (B C : list Z) :
  (1 <= nm)%Z ->
  length (filter (fun ix : Z * Z * Z => negb (fst (fst ix) <=? 1)%Z)
                 (cross3 (RangeSet 1 nm) B C))
  = ((Z.to_nat nm - 1) * length B * length C)%nat.
Proof.
  intros Hn. rewrite (RangeSet_first nm Hn).
  rewrite cross3_cons.
  rewrite filter_app, filter_none, filter_all.
  - cbn [app]. rewrite cross3_length, NumpyFacts.range_length. f_equal. f_equal. lia.
  - intros [[i j] k] Hin. apply In_cross3 in Hin. destruct Hin as (Hi & _).
    apply In_range in Hi. cbn [fst].
    destruct (Z.leb_spec i 1); [lia | reflexivity].
  - intros [[i j] k] Hin. apply In_cross3 in Hin.
    destruct Hin as ([<- | []] & _). reflexivity.
Qed.

(** X8. With at least one month, one scenario and one SKU and no
    negative value in the data, the construction succeeds, and the
    instance has one stock-split, one buffer and one demand-split
    constraint per month, scenario and SKU; one first-period constraint
    per scenario and SKU; one recursion constraint per scenario and SKU
    for every month but the first; one value cap per month and
    scenario; and two order-size constraints per month and SKU. *)
Theorem construction_succeeds dt :
  ~ negative_value dt ->
  (1 <= n_months dt)%Z ->
  (1 <= n_scenarios dt)%Z ->
  (1 <= n_skus dt)%Z ->
  exists inst,
    create_instance dt = Ok inst /\
    let nm := Z.to_nat (n_months dt) in
    let ns := Z.to_nat (n_scenarios dt) in
    let nk := Z.to_nat (n_skus dt) in
    length (const_surplus_deficit inst) = (nm * ns * nk)%nat /\
    length (const_stock1 inst) = (ns * nk)%nat /\
    length (const_stock inst) = ((nm - 1) * ns * nk)%nat /\
    length (const_stock_buffer inst) = (nm * ns * nk)%nat /\
    length (const_stock_max inst) = (nm * ns)%nat /\
    length (const_volume_bounds_demand inst) = (nm * ns * nk)%nat /\
    length (const_moq1 inst) = (nm * nk)%nat /\
    length (const_moq2 inst) = (nm * nk)%nat.
Proof.
  intros Hv Hm Hs Hk. rewrite (create_instance_validated dt Hv). cbv zeta.
  destruct (surplus_deficit_generated dt) as (c1 & H1 & L1).
  destruct (stock1_generated dt Hm) as (c2 & H2 & L2).
  destruct (stock_generated dt) as (c3 & H3 & L3).
  destruct (stock_buffer_generated dt) as (c4 & H4 & L4).
  destruct (stock_max_generated dt Hk) as (c5 & H5 & L5).
  destruct (volume_bounds_demand_generated dt) as (c6 & H6 & L6).
  destruct (moq1_generated dt) as (c7 & H7 & L7).
  destruct (moq2_generated dt) as (c8 & H8 & L8).
  destruct (margin_terms_built dt) as (es & Hes).
  destruct (shipping_terms_built dt) as (fs & Hfs).
  rewrite H1, H2, H3, H4, H5, H6, H7, H8. cbn [bind].
  unfold obj_expression. rewrite Hes. cbn [bind params].
  unfold ediv. destruct (Z.eqb_spec (n_scenarios dt) 0) as [| _]; [lia |].
  cbn [bind]. rewrite Hfs. cbn [bind].
  eexists. split; [reflexivity |].
  cbn [const_surplus_deficit const_stock1 const_stock const_stock_buffer
       const_stock_max const_volume_bounds_demand const_moq1 const_moq2].
  cbn [I J K] in *.
  apply (f_equal (@length _)) in L3. rewrite length_map in L3.
  rewrite stock_window_length in L3 by exact Hm.
  rewrite cross3_length in L1, L4, L6. rewrite cross2_length in L2, L5, L7, L8.
  rewrite !RangeSet_length in *.
  repeat split; assumption.
Qed.

Lemma construction_succeeds_witness :
  exists inst,
    create_instance Examples.two_month_data = Ok inst /\
    length (const_surplus_deficit inst) = 2%nat /\
    length (const_stock1 inst) = 1%nat /\
    length (const_stock inst) = 1%nat /\
    length (const_stock_buffer inst) = 2%nat /\
    length (const_stock_max inst) = 2%nat /\
    length (const_volume_bounds_demand inst) = 2%nat /\
    length (const_moq1 inst) = 2%nat /\
    length (const_moq2 inst) = 2%nat.
Proof.
  apply (construction_succeeds Examples.two_month_data).
  - unfold negative_value. simpl.
    intros [H | [H | [H | [(i & j & k & H) | [(k & H) | H]]]]];
      try lia; try (vm_compute in H; discriminate).
    repeat (destruct H as [H | H]; [vm_compute in H; discriminate |]).
    vm_compute in H; discriminate.
  - simpl. lia.
  - simpl. lia.
  - simpl. lia.
Defined.

End MultiConstruction.

(* ================================================================== *)
(** ** Further properties of the single-product model                  *)
(* ================================================================== *)

Module SinglePlans.
Import Py Pyomo PyFacts Single SingleFacts.

(** X9. In every feasible solution of the single-product model the
    stock of the first month is the first order plus the beginning
    inventory; from the second month on it is the order plus what the
    month before left unsold, [S[i,j] = X[i] + S[i-1,j] - V[i-1,j]];
    the stock stays between the buffer and the cap,
    [LB <= S[i,j] <= UB]; and the recursion constraint is generated at
    exactly the months [2..n_months]. *)
Theorem single_stock_recursion dt inst a :
  create_instance dt = Ok inst ->
  feasible inst a ->
  (forall j, (1 <= j <= n_scenarios dt)%Z -> S a 1 j == X a 1 + BI dt) /\
  (forall i j,
      (2 <= i <= n_months dt)%Z -> (1 <= j <= n_scenarios dt)%Z ->
      S a i j == X a i + S a (i - 1) j - V a (i - 1) j) /\
  (forall i j,
      (1 <= i <= n_months dt)%Z -> (1 <= j <= n_scenarios dt)%Z ->
      LB dt <= S a i j /\ S a i j <= UB dt) /\
  (forall i j,
      In (i, j) (map fst (const_stock inst)) <->
      (2 <= i <= n_months dt)%Z /\ (1 <= j <= n_scenarios dt)%Z).
Proof.
  intros E HF. pose proof (single_create_instance_built _ _ E) as HB.
  split; [| split; [| split]].
  - intros j Hj. apply (single_feasible_stock1 dt inst HB a HF).
    now apply (single_In_J dt inst HB).
  - intros i j Hi Hj. apply (single_feasible_stock dt inst HB a HF).
    + apply (single_In_I dt inst HB). lia.
    + now apply (single_In_J dt inst HB).
    + lia.
  - intros i j Hi Hj. apply (single_feasible_stock_bounds dt inst HB a HF).
    + now apply (single_In_I dt inst HB).
    + now apply (single_In_J dt inst HB).
  - intros i j.
    rewrite (Constraint_indices _ _ _ _ _ (i, j) (b_stock HB)).
    rewrite In_cross2, (single_In_I dt inst HB), (single_In_J dt inst HB).
    split.
    + intros ((Hi & Hj) & c & Hc). unfold _const_stock in Hc.
      destruct (Z.leb_spec i 1); [discriminate | lia].
    + intros (Hi & Hj). split; [lia |].
      unfold _const_stock, var_S, var_X, var_V.
      destruct (Z.leb_spec i 1); [lia |].
      rewrite !var2_Ok, var1_Ok;
        try (apply (single_In_I dt inst HB); lia);
        try (apply (single_In_J dt inst HB); lia).
      eexists. reflexivity.
Qed.

Lemma single_stock_recursion_witness :
  exists inst,
    create_instance Examples.single_data = Ok inst /\
    S Examples.single_plan 1 1
    == X Examples.single_plan 1 + BI Examples.single_data /\
    LB Examples.single_data <= S Examples.single_plan 1 1 /\
    S Examples.single_plan 1 1 <= UB Examples.single_data.
Proof.
  destruct (create_instance Examples.single_data) as [inst | e] eqn:E.
  - exists inst. split; [reflexivity |].
    assert (HF : feasible inst Examples.single_plan).
    { apply (SingleModel.single_feasible_by_evaluation Examples.single_data);
        [exact E | vm_compute; reflexivity]. }
    destruct (single_stock_recursion Examples.single_data inst
                                     Examples.single_plan E HF)
      as (H1 & _ & H3 & _).
    split; [apply H1; simpl; lia |].
    apply (H3 1%Z 1%Z); simpl; lia.
  - vm_compute in E. discriminate E.
Defined.

(** X10. Inventory balance.  In every feasible solution of the
    single-product model the stock of month [i] is the beginning
    inventory plus everything ordered up to month [i] minus everything
    sold before month [i], the same closed form as in the multi-product
    model. *)
Theorem single_stock_balance dt inst a i j :
  create_instance dt = Ok inst ->
  feasible inst a ->
  (1 <= i <= n_months dt)%Z ->
  (1 <= j <= n_scenarios dt)%Z ->
  S a i j ==
  BI dt + Qsum (RangeSet 1 i) (fun t => X a t)
  - Qsum (RangeSet 1 (i - 1)) (fun t => V a t j).
Proof.
  intros E HF Hi Hj. pose proof (single_create_instance_built _ _ E) as HB.
  apply (single_In_J dt inst HB) in Hj.
  assert (G : forall n : nat,
             (1 + Z.of_nat n <= n_months dt)%Z ->
             S a (1 + Z.of_nat n) j ==
             BI dt + Qsum (RangeSet 1 (1 + Z.of_nat n)) (fun t => X a t)
             - Qsum (RangeSet 1 (Z.of_nat n)) (fun t => V a t j)).
  { induction n as [| n IH]; intros Hn.
    - change (1 + Z.of_nat 0)%Z with 1%Z. change (Z.of_nat 0) with 0%Z.
      rewrite (single_feasible_stock1 dt inst HB a HF j Hj).
      unfold Qsum. simpl. lra.
    - assert (Hcur : In (1 + Z.of_nat (Datatypes.S n))%Z (I (mdl inst)))
        by (apply (single_In_I dt inst HB); lia).
      pose proof (single_feasible_stock dt inst HB a HF _ j Hcur Hj) as Hrec.
      replace (1 + Z.of_nat (Datatypes.S n) - 1)%Z with (1 + Z.of_nat n)%Z
        in Hrec by lia.
      specialize (IH ltac:(lia)).
      replace (1 + Z.of_nat (Datatypes.S n))%Z
        with (1 + Z.of_nat n + 1)%Z in * by lia.
      replace (Z.of_nat (Datatypes.S n)) with (Z.of_nat n + 1)%Z by lia.
      rewrite (MultiPlans.RangeSet_snoc (1 + Z.of_nat n)) by lia.
      rewrite (MultiPlans.RangeSet_snoc (Z.of_nat n)) by lia.
      rewrite !MultiPlans.Qsum_app. unfold Qsum at 2 4. cbn [fold_right].
      replace (Z.of_nat n + 1)%Z with (1 + Z.of_nat n)%Z by lia.
      rewrite Hrec by lia. lra. }
  pose proof (G (Z.to_nat (i - 1)) ltac:(lia)) as P.
  replace (1 + Z.of_nat (Z.to_nat (i - 1)))%Z with i in P by lia.
  replace (Z.of_nat (Z.to_nat (i - 1))) with (i - 1)%Z in P by lia.
  exact P.
Qed.

Lemma single_stock_balance_witness :
  exists inst,
    create_instance Examples.single_data = Ok inst /\
    S Examples.single_plan 1 1 ==
    BI Examples.single_data
    + Qsum (RangeSet 1 1) (fun t => X Examples.single_plan t)
    - Qsum (RangeSet 1 (1 - 1)) (fun t => V Examples.single_plan t 1).
Proof.
  destruct (create_instance Examples.single_data) as [inst | e] eqn:E.
  - exists inst. split; [reflexivity |].
    apply (single_stock_balance Examples.single_data inst
                                Examples.single_plan 1 1 E).
    + apply (SingleModel.single_feasible_by_evaluation Examples.single_data);
        [exact E | vm_compute; reflexivity].
    + simpl. lia.
    + simpl. lia.
  - vm_compute in E. discriminate E.
Defined.

(** X11. In every feasible solution of the single-product model
    [MOQ * z[i] <= X[i] <= 100000 * z[i]]: an order is either nothing
    or at least the minimum order quantity and at most the big-M
    constant, and a positive order switches [z[i]] on. *)
Theorem single_order_size dt inst a i :
  create_instance dt = Ok inst ->
  feasible inst a ->
  (1 <= i <= n_months dt)%Z ->
  (MOQ dt * z a i <= X a i /\ X a i <= 100000 * z a i) /\
  (X a i == 0 \/ (MOQ dt <= X a i /\ X a i <= 100000)) /\
  (0 < X a i -> z a i == 1).
Proof.
  intros E HF Hi. pose proof (single_create_instance_built _ _ E) as HB.
  apply (single_In_I dt inst HB) in Hi.
  pose proof (single_feasible_moq1 dt inst HB a HF i Hi) as H1.
  pose proof (single_feasible_moq2 dt inst HB a HF i Hi) as H2.
  pose proof (single_feasible_domains1 inst a HF i Hi) as [HX Hz].
  unfold _bigM in H2.
  split; [split; assumption |].
  destruct Hz as [Hz | Hz]; rewrite Hz in *; split;
    try (left; lra); try (right; lra); intros; lra.
Qed.

Lemma single_order_size_witness :
  exists inst,
    create_instance Examples.single_data = Ok inst /\
    z Examples.single_plan 1 == 1.
Proof.
  destruct (create_instance Examples.single_data) as [inst | e] eqn:E.
  - exists inst. split; [reflexivity |].
    assert (HF : feasible inst Examples.single_plan).
    { apply (SingleModel.single_feasible_by_evaluation Examples.single_data);
        [exact E | vm_compute; reflexivity]. }
    destruct (single_order_size Examples.single_data inst
                                Examples.single_plan 1 E HF)
      as (_ & _ & H); [simpl; lia |].
    apply H. reflexivity.
  - vm_compute in E. discriminate E.
Defined.

(** X12. The objective of the single-product model is, at every
    assignment, [(1/n_scenarios)] times the sum over all months and
    scenarios of [CM*V[i,j] - W*s[i,j] - O*d[i,j]], minus the sum over
    all months of [L*z[i]]; and the model maximises it. *)
Theorem single_objective_is_expected_margin dt inst :
  create_instance dt = Ok inst ->
  OBJ_sense inst = maximize /\
  forall a, OBJ inst a == spec_objective dt a.
Proof.
  intros E. pose proof (single_create_instance_built _ _ E) as HB.
  split; [exact (b_sense HB) |].
  intros a. destruct (single_OBJ_closed_form dt inst a HB) as [_ H].
  rewrite H. unfold spec_objective, Qdiv. ring.
Qed.

Lemma single_objective_is_expected_margin_witness :
  exists inst,
    create_instance Examples.single_data = Ok inst /\
    OBJ_sense inst = maximize /\
    OBJ inst Examples.single_plan
    == spec_objective Examples.single_data Examples.single_plan.
Proof.
  destruct (create_instance Examples.single_data) as [inst | e] eqn:E.
  - exists inst. split; [reflexivity |].
    destruct (single_objective_is_expected_margin Examples.single_data inst E)
      as [H1 H2].
    split; [exact H1 | apply H2].
  - vm_compute in E. discriminate E.
Defined.

End SinglePlans.

(* ================================================================== *)
(** ** The construction of a single-product instance                   *)
(* ================================================================== *)

Module SingleConstruction.
Import Py Pyomo PyFacts Single SingleFacts.

Lemma Param_in_domain (dom : domain) (q : Q) :
  within dom q = true -> Param dom q = Ok q.
Proof. intros H. unfold Param. now rewrite H. Qed.

Lemma Param2_in_domain (dom : domain) (A B : list Z) (p : Z -> Z -> Q) :
  (forall i j, within dom (p i j) = true) -> Param2 dom A B p = Ok tt.
Proof.
  intros H. unfold Param2.
  match goal with |- (if ?b then _ else _) = _ => replace b with true end;
    [reflexivity |].
  symmetry. apply forallb_forall. intros [i j] _. apply H.
Qed.

(** The rest of [create_instance] once the validation has passed. *)
Lemma single_create_instance_validated dt :
  (0 <= n_months dt)%Z -> (0 <= n_scenarios dt)%Z ->
  values_in_domain dt ->
  create_instance dt =
  (let m := mk_model dt (RangeSet 1 (n_months dt))
                     (RangeSet 1 (n_scenarios dt)) in
   c_surplus_deficit <-
     Constraint (cross2 (I m) (J m)) (_const_surplus_deficit m) ;;
   c_stock1 <- Constraint (J m) (_const_stock1 m) ;;
   c_stock <- Constraint (cross2 (I m) (J m)) (_const_stock m) ;;
   c_stock_bounds <- Constraint (cross2 (I m) (J m)) (_const_stock_bounds m) ;;
   c_volume_bounds <-
     Constraint (cross2 (I m) (J m)) (_const_volume_bounds m) ;;
   c_moq1 <- Constraint (I m) (_const_moq1 m) ;;
   c_moq2 <- Constraint (I m) (_const_moq2 m) ;;
   obj <- obj_expression m ;;
   Ok (mk_instance m c_surplus_deficit c_stock1 c_stock c_stock_bounds
                   c_volume_bounds c_moq1 c_moq2 obj maximize)).
Proof.
  intros Hm Hs (HD & HCM & HW & HO & HL & HMOQ & HBI & HUB & HLB).
  unfold create_instance.
  rewrite !IntParam_nonneg by assumption. cbn [bind].
  rewrite Param2_in_domain by exact HD. cbn [bind].
  rewrite !Param_in_domain by assumption. cbn [bind].
  reflexivity.
Qed.



(** X14. With every value in its domain, an empty index set makes the
    construction of the single-product model fail, never with a
    validation error: without scenarios the objective divides by zero,
    and without months (but with a scenario) the rule of the
    first-period stock reads [S[1,j]], which is not a valid index. *)
Theorem single_empty_sets_fail dt :
  values_in_domain dt ->
  ((0 <= n_months dt)%Z -> n_scenarios dt = 0%Z ->
   create_instance dt = Raise ZeroDivisionError) /\
  (n_months dt = 0%Z -> (1 <= n_scenarios dt)%Z ->
   create_instance dt = Raise KeyError).
Proof.
  intros Hv. split.
  - intros Hm Hs.
    rewrite (single_create_instance_validated dt) by (auto; lia).
    cbv zeta. cbn [I J]. rewrite Hs. change (RangeSet 1 0) with (@nil Z).
    rewrite MultiModel.cross2_nil_r. cbn [Constraint bind].
    destruct (MultiConstruction.Constraint_all
                (RangeSet 1 (n_months dt))
                (_const_moq1 (mk_model dt (RangeSet 1 (n_months dt)) [])))
      as (c6 & H6 & _).
    { intros i Hi. unfold _const_moq1, var_X, var_z. cbn [I].
      rewrite !var1_Ok by assumption. cbn [bind]. eexists. reflexivity. }
    destruct (MultiConstruction.Constraint_all
                (RangeSet 1 (n_months dt))
                (_const_moq2 (mk_model dt (RangeSet 1 (n_months dt)) [])))
      as (c7 & H7 & _).
    { intros i Hi. unfold _const_moq2, var_X, var_z. cbn [I].
      rewrite !var1_Ok by assumption. cbn [bind]. eexists. reflexivity. }
    rewrite H6, H7. cbn [bind].
    unfold obj_expression. cbn [I J params].
    rewrite MultiModel.cross2_nil_r. cbn [mapM bind]. rewrite Hs.
    reflexivity.
  - intros Hm Hs.
    rewrite (single_create_instance_validated dt) by (auto; lia).
    cbv zeta. cbn [I J]. rewrite Hm. change (RangeSet 1 0) with (@nil Z).
    cbn [cross2 flat_map Constraint bind].
    rewrite (MultiConstruction.RangeSet_first (n_scenarios dt)) by exact Hs.
    rewrite (MultiConstruction.Constraint_raises _ _ _ KeyError);
      reflexivity.
Qed.

Lemma single_empty_sets_fail_witness :
  create_instance
    (mk_data 0 1 (fun _ _ => 100) 500 40 1000 1000 300 0 999999 0)
  = Raise KeyError.
Proof.
  apply (single_empty_sets_fail
           (mk_data 0 1 (fun _ _ => 100) 500 40 1000 1000 300 0 999999 0)).
  - unfold values_in_domain. simpl.
    repeat split; try (intros; vm_compute; reflexivity).
  - reflexivity.
  - simpl. lia.
Defined.

End SingleConstruction.

(* ================================================================== *)
(** ** Further properties of the conversions of utils.py               *)
(* ================================================================== *)

Module ConversionMore.
Import Py Numpy Utils PyFacts NumpyFacts UtilsFacts.

(** *** Lookup in a dictionary *)

Lemma dict_get_In {K V} (eqb : K -> K -> bool) (d : dict K V) (k : K) (v : V) :
  (forall a b, eqb a b = true <-> a = b) ->
  NoDup (keys d) -> In (k, v) d -> dict_get eqb k d = Some v.
Proof.
  intros Heq. unfold dict_get, keys.
  induction d as [| [k' v'] d IH]; simpl; intros Hnd Hin; [destruct Hin |].
  inversion Hnd as [| ? ? Hk' Hnd']; subst.
  destruct (eqb k' k) eqn:E.
  - apply Heq in E. subst k'. destruct Hin as [Hin | Hin].
    + inversion Hin. reflexivity.
    + exfalso. apply Hk'. apply in_map_iff. exists (k, v). auto.
  - destruct Hin as [Hin | Hin].
    + inversion Hin; subst. assert (eqb k k = true) by now apply Heq.
      congruence.
    + now apply IH.
Qed.

(** *** The entries of [array_to_dok] *)

Lemma index_key_inj (n : nat) (sh : list nat) (t u : list Z) :
  length sh = n -> (1 <= n)%nat ->
  in_bounds sh t -> in_bounds sh u ->
  index_key n t = index_key n u -> t = u.
Proof.
  intros Hn Hpos Ht Hu. unfold index_key.
  destruct (Nat.ltb_spec 1 n) as [Hgt | Hle]; intros Heq.
  - inversion Heq as [Hm].
    apply (f_equal (map (fun x => x + -1)%Z)) in Hm.
    now rewrite !Conversion.shift_back in Hm.
  - destruct sh as [| n0 [| n1 sh]]; simpl in Hn; try lia.
    inversion Ht as [| ? t0 ? t' ? Ht']; subst. inversion Ht'; subst.
    inversion Hu as [| ? u0 ? u' ? Hu']; subst. inversion Hu'; subst.
    simpl in Heq. inversion Heq. f_equal. lia.
Qed.

Lemma array_to_dok_explicit (sh : list nat) (cells : list cell) :
  (1 <= length sh)%nat ->
  length cells = size_of sh ->
  array_to_dok (mk_ndarray sh cells)
  = Ok (map (fun tv => (index_key (length sh) (fst tv), snd tv))
            (combine (product (map (fun n => range 0 (Z.of_nat n)) sh))
                     cells)).
Proof.
  intros Hdim Hlen.
  pose proof (Conversion.rows_length sh) as Hrows.
  pose proof (Conversion.rows_NoDup sh) as Hnd.
  assert (Hkeys : NoDup
                    (map fst
                       (map (fun tv => (index_key (length sh) (fst tv),
                                        snd tv))
                            (combine
                               (product
                                  (map (fun n => range 0 (Z.of_nat n)) sh))
                               cells)))).
  { rewrite map_map. cbn [fst].
    rewrite <- (map_map fst (index_key (length sh))).
    rewrite Conversion.map_fst_combine by congruence.
    apply NoDup_map_on; [| exact Hnd].
    intros t u Ht Hu. apply In_product_ranges in Ht, Hu.
    now apply (index_key_inj (length sh) sh). }
  revert Hkeys.
  unfold array_to_dok, ndim, ravel, index_key. cbn [shape data].
  set (rows := product (map (fun n => range 0 (Z.of_nat n)) sh)) in *.
  destruct (Nat.ltb_spec 1 (length sh)) as [Hnd2 | H1d]; intros Hkeys.
  - replace (map (fun i => range 1 (Z.of_nat i + 1)) sh)
      with (map (map (fun x => x + 1)%Z)
                (map (fun n => range 0 (Z.of_nat n)) sh)).
    2:{ rewrite map_map. apply map_ext. intros n.
        now rewrite range_shift. }
    rewrite product_map. fold rows.
    rewrite map_map, Conversion.combine_map_l.
    rewrite dict_of_NoDup; [reflexivity | exact key_eqb_eq | exact Hkeys].
  - destruct sh as [| n [| n' sh']]; simpl in Hdim, H1d; try lia.
    unfold rows in *. cbn [map] in Hkeys |- *.
    rewrite product_single in Hkeys |- *.
    assert (Hn : length cells = n) by (simpl in Hlen; lia).
    unfold enumerate. rewrite Hn.
    assert (Heq : map (fun tv : list Z * cell =>
                         (KInt (hd 0%Z (fst tv) + 1), snd tv))
                      (combine (map (fun x => [x]) (range 0 (Z.of_nat n)))
                               cells)
                  = map (fun iv : Z * cell => (KInt (fst iv + 1), snd iv))
                        (combine (range 0 (Z.of_nat n)) cells)).
    { rewrite Conversion.combine_map_l, map_map. reflexivity. }
    rewrite Heq in Hkeys |- *.
    rewrite dict_of_NoDup; [reflexivity | exact key_eqb_eq | exact Hkeys].
Qed.

Lemma nth_error_combine {A B} (l : list A) (m : list B) (p : nat)
      (a : A) (b : B) :
  nth_error l p = Some a -> nth_error m p = Some b ->
  nth_error (combine l m) p = Some (a, b).
Proof.
  revert l m. induction p as [| p IH]; intros [| x l] [| y m] Ha Hb;
    simpl in *; try discriminate.
  - inversion Ha; inversion Hb; reflexivity.
  - now apply IH.
Qed.

(** The cell of an index tuple is paired with the tuple in the
    row-major enumeration. *)
Lemma cell_in_rows (sh : list nat) (cells : list cell) (idx : list Z)
      (c : cell) :
  length cells = size_of sh ->
  in_bounds sh idx ->
  nth_error cells (offset_of sh idx) = Some c ->
  In (idx, c) (combine (product (map (fun n => range 0 (Z.of_nat n)) sh))
                       cells).
Proof.
  intros Hlen Hb Hc.
  pose proof (offset_of_product sh) as Hoff.
  set (rows := product (map (fun n => range 0 (Z.of_nat n)) sh)) in *.
  assert (Hin : In idx rows) by now apply In_product_ranges.
  destruct (In_nth_error rows idx Hin) as (p & Hp).
  assert (Hq : nth_error (map (offset_of sh) rows) p
               = Some (offset_of sh idx))
    by (rewrite nth_error_map, Hp; reflexivity).
  rewrite Hoff in Hq.
  assert (Hlt : (p < size_of sh)%nat).
  { assert (Hs : nth_error (seq 0 (size_of sh)) p <> None) by congruence.
    apply nth_error_Some in Hs. now rewrite length_seq in Hs. }
  rewrite nth_error_seq in Hq.
  destruct (Nat.ltb_spec p (size_of sh)); [| lia].
  inversion Hq as [Hpq]. simpl in Hpq. rewrite <- Hpq in Hc.
  apply (nth_error_In _ p). now apply nth_error_combine.
Qed.

Lemma array_to_dok_contents (sh : list nat) (cells : list cell) :
  (1 <= length sh)%nat ->
  length cells = size_of sh ->
  exists d,
    array_to_dok (mk_ndarray sh cells) = Ok d /\
    length d = size_of sh /\
    NoDup (keys d) /\
    (forall idx, in_bounds sh idx ->
                 exists c, getitem (mk_ndarray sh cells) idx = Ok c /\
                           dict_get key_eqb (index_key (length sh) idx) d
                           = Some c) /\
    (forall k, In k (keys d) ->
               exists idx, in_bounds sh idx /\ k = index_key (length sh) idx).
Proof.
  intros Hdim Hwf.
  pose proof (Conversion.rows_length sh) as Hrows.
  pose proof (Conversion.rows_NoDup sh) as Hnd.
  rewrite (array_to_dok_explicit sh cells Hdim Hwf).
  set (rows := product (map (fun n => range 0 (Z.of_nat n)) sh)) in *.
  set (d := map (fun tv => (index_key (length sh) (fst tv), snd tv))
                (combine rows cells)).
  assert (Hkeys : keys d = map (index_key (length sh)) rows).
  { unfold d, keys. rewrite map_map. cbn [fst].
    rewrite <- (map_map fst (index_key (length sh))).
    now rewrite Conversion.map_fst_combine by congruence. }
  assert (Hkd : NoDup (keys d)).
  { rewrite Hkeys. apply NoDup_map_on; [| exact Hnd].
    intros t u Ht Hu. apply In_product_ranges in Ht, Hu.
    now apply (index_key_inj (length sh) sh). }
  exists d. split; [reflexivity |]. split; [| split; [exact Hkd | split]].
  - unfold d. rewrite length_map, length_combine. lia.
  - intros idx Hb.
    pose proof (offset_of_lt sh idx Hb) as Hlt. rewrite <- Hwf in Hlt.
    destruct (nth_error cells (offset_of sh idx)) as [c |] eqn:Hc.
    2:{ apply nth_error_None in Hc. lia. }
    exists c. split.
    + unfold getitem. cbn [shape data].
      rewrite ravel_index_in_bounds by exact Hb. cbn [bind].
      now rewrite Hc.
    + apply dict_get_In; [exact key_eqb_eq | exact Hkd |].
      unfold d. apply in_map_iff. exists (idx, c). split; [reflexivity |].
      now apply cell_in_rows.
  - intros k Hk. rewrite Hkeys in Hk. apply in_map_iff in Hk.
    destruct Hk as (idx & <- & Hidx). exists idx.
    split; [now apply In_product_ranges | reflexivity].
Qed.

(** X15. [array_to_dok] cannot convert a 0-dimensional array (a
    [TypeError]).  For an array of one or more dimensions it returns a
    map with one entry per cell and pairwise distinct keys, in which
    the cell with the 0-based index tuple [idx] is found under its
    1-based key: the tuple [idx + 1], or the bare integer when the array
    has one dimension; and it has no other keys. *)
Theorem array_to_dok_lookup (X : ndarray) :
  (ndim X = 0%nat -> array_to_dok X = Raise TypeError) /\
  ((1 <= ndim X)%nat -> well_formed X ->
   exists d,
     array_to_dok X = Ok d /\
     length d = size_of (shape X) /\
     NoDup (keys d) /\
     (forall idx, in_bounds (shape X) idx ->
                  exists c, getitem X idx = Ok c /\
                            dict_get key_eqb (index_key (ndim X) idx) d
                            = Some c) /\
     (forall k, In k (keys d) ->
                exists idx, in_bounds (shape X) idx /\
                            k = index_key (ndim X) idx)).
Proof.
  destruct X as [sh cells]. unfold ndim, well_formed. cbn [shape data].
  split.
  - intros H0. destruct sh; [reflexivity | discriminate].
  - intros Hdim Hwf. now apply array_to_dok_contents.
Qed.

Lemma array_to_dok_lookup_witness :
  exists d,
    array_to_dok (mk_ndarray [2; 2]%nat [Num 1; Num 2; Num 3; Num 4]) = Ok d /\
    length d = 4%nat /\
    dict_get key_eqb (KTuple [2; 1]%Z) d = Some (Num 3).
Proof.
  destruct (array_to_dok_lookup
              (mk_ndarray [2; 2]%nat [Num 1; Num 2; Num 3; Num 4]))
    as (_ & H).
  destruct H as (d & Hd & Hlen & _ & Hget & _).
  - unfold ndim. simpl. lia.
  - reflexivity.
  - exists d. split; [exact Hd |]. split; [exact Hlen |].
    destruct (Hget [1; 0]%Z) as (c & Hc & Hk).
    + repeat constructor; simpl; lia.
    + vm_compute in Hc. inversion Hc; subst c. exact Hk.
Defined.

(** *** The loop that builds [dok_adj], in general *)

Lemma adjust_key_arity (off : Z) (k : key) :
  match key_arity k with
  | Some n => exists t, adjust_key off k = Ok t /\ length t = n
  | None => adjust_key off k = Raise TypeError
  end.
Proof.
  destruct k; simpl; try reflexivity.
  - eexists. split; reflexivity.
  - eexists. split; [reflexivity | apply length_map].
Qed.

Lemma dict_set_keys (k : list Z) (v : cell) (d : dict (list Z) cell)
      (t : list Z) :
  In t (keys (dict_set tuple_eqb k v d)) <-> t = k \/ In t (keys d).
Proof.
  unfold keys. induction d as [| [k' v'] d IH]; simpl.
  - intuition congruence.
  - destruct (tuple_eqb k' k) eqn:E; simpl.
    + apply tuple_eqb_eq in E. subst k'. intuition congruence.
    + rewrite IH. intuition congruence.
Qed.

Lemma adjust_loop_raises (off : Z) (d : dok) (acc : dict (list Z) cell) :
  (exists k, In k (keys d) /\ key_arity k = None) ->
  foldM (fun acc kv =>
           k' <- adjust_key off (fst kv) ;;
           Ok (dict_set tuple_eqb k' (snd kv) acc)) d acc
  = Raise TypeError.
Proof.
  revert acc. induction d as [| [k v] d IH]; intros acc (k0 & Hin & Hk0).
  - destruct Hin.
  - cbn [foldM fst snd].
    pose proof (adjust_key_arity off k) as Hk.
    destruct (key_arity k) as [n |] eqn:Ek.
    + destruct Hk as (t & -> & _). cbn [bind]. apply IH.
      destruct Hin as [Heq | Hin]; [simpl in Heq; congruence |].
      exists k0. auto.
    + now rewrite Hk.
Qed.

Lemma adjust_loop_general (off : Z) (d : dok) (acc : dict (list Z) cell) :
  (forall k, In k (keys d) -> key_arity k <> None) ->
  exists adj,
    foldM (fun acc kv =>
             k' <- adjust_key off (fst kv) ;;
             Ok (dict_set tuple_eqb k' (snd kv) acc)) d acc
    = Ok adj /\
    forall t, In t (keys adj) <->
              In t (keys acc) \/
              exists k, In k (keys d) /\ adjust_key off k = Ok t.
Proof.
  revert acc. induction d as [| [k v] d IH]; intros acc Hall.
  - exists acc. split; [reflexivity |]. intros t. split; [auto |].
    intros [H | (k & [] & _)]. exact H.
  - cbn [foldM fst snd].
    pose proof (adjust_key_arity off k) as Hk.
    destruct (key_arity k) as [n |] eqn:Ek.
    2:{ exfalso. apply (Hall k); [now left | exact Ek]. }
    destruct Hk as (t0 & Ht0 & _). rewrite Ht0. cbn [bind].
    destruct (IH (dict_set tuple_eqb t0 v acc)) as (adj & Hadj & Hkeys).
    { intros k' Hk'. apply Hall. now right. }
    exists adj. split; [exact Hadj |]. intros t.
    rewrite Hkeys, dict_set_keys. split.
    + intros [[-> | H] | (k' & Hk' & Hadj')].
      * right. exists k. split; [now left | exact Ht0].
      * now left.
      * right. exists k'. split; [now right | exact Hadj'].
    + intros [H | (k' & [Heq | Hk'] & Hadj')].
      * left. now right.
      * simpl in Heq. subst k'. left. left. congruence.
      * right. exists k'. auto.
Qed.

(** *** [max_axis0] on tables that are not rectangles *)

Lemma max_axis0_loop_lengths (rs : list (list Z)) (acc : list Z) :
  match foldM (fun acc row =>
                 if (length row =? length acc)%nat
                 then Ok (map2 Z.max acc row)
                 else Raise ValueError) rs acc with
  | Ok m => length m = length acc /\
            forall row, In row rs -> length row = length acc
  | Raise e => e = ValueError
  end.
Proof.
  revert acc. induction rs as [| row rs IH]; intros acc; cbn [foldM].
  - split; [reflexivity | intros _ []].
  - destruct (Nat.eqb_spec (length row) (length acc)) as [Heq | Hne];
      cbn [bind]; [| reflexivity].
    specialize (IH (map2 Z.max acc row)).
    destruct (foldM _ rs (map2 Z.max acc row)) as [m | e]; [| exact IH].
    rewrite map2_length in IH by congruence.
    destruct IH as [Hm Hrs]. split; [exact Hm |].
    intros row' [<- | Hin]; [exact Heq | now apply Hrs].
Qed.

Lemma max_axis0_lengths (rows : list (list Z)) :
  match max_axis0 rows with
  | Ok m => rows <> [] /\ forall row, In row rows -> length row = length m
  | Raise e => e = ValueError
  end.
Proof.
  destruct rows as [| r rs]; [reflexivity |]. cbn [max_axis0].
  pose proof (max_axis0_loop_lengths rs r) as H.
  destruct (foldM _ rs r) as [m | e]; [| exact H].
  destruct H as [Hm Hrs]. split; [discriminate |].
  intros row [<- | Hin]; [congruence | rewrite Hm; now apply Hrs].
Qed.

(** X16. [dok_to_array] raises a [TypeError] as soon as one key of the
    map is [None] or a string: such a key cannot be shifted by the
    offset. *)
Theorem dok_to_array_rejects_non_index_keys (d : dok) (off : Z) (k : key) :
  In k (keys d) ->
  key_arity k = None ->
  dok_to_array d off = Raise TypeError.
Proof.
  intros Hin Hk. unfold dok_to_array.
  rewrite adjust_loop_raises; [reflexivity |]. eauto.
Qed.

Lemma dok_to_array_rejects_non_index_keys_witness :
  dok_to_array [(KInt 1, Num 5); (KStr "n_months", Num 7)] (-1)
  = Raise TypeError.
Proof.
  apply (dok_to_array_rejects_non_index_keys _ _ (KStr "n_months")).
  - simpl. auto.
  - reflexivity.
Defined.

(** X17. [dok_to_array] raises a [ValueError] on the empty map, and it
    returns no array for a map of integer and tuple keys in which two
    keys differ in their number of coordinates: the keys do not form a
    table of which the column maxima could be taken. *)
Theorem dok_to_array_rejects_empty_and_ragged (d : dok) (off : Z) :
  (d = [] -> dok_to_array d off = Raise ValueError) /\
  ((forall k, In k (keys d) -> key_arity k <> None) ->
   (exists k1 k2, In k1 (keys d) /\ In k2 (keys d) /\
                  key_arity k1 <> key_arity k2) ->
   forall res, dok_to_array d off <> Ok res).
Proof.
  split.
  - intros ->. reflexivity.
  - intros Hall (k1 & k2 & H1 & H2 & Hne) res. unfold dok_to_array.
    destruct (adjust_loop_general off d [] Hall) as (adj & -> & Hkeys).
    cbn [bind].
    pose proof (max_axis0_lengths (keys adj)) as Hmax.
    destruct (max_axis0 (keys adj)) as [m | e]; [| discriminate].
    exfalso. destruct Hmax as [_ Hlen].
    pose proof (adjust_key_arity off k1) as A1.
    pose proof (adjust_key_arity off k2) as A2.
    destruct (key_arity k1) as [n1 |] eqn:E1;
      [| now apply (Hall k1 H1)].
    destruct (key_arity k2) as [n2 |] eqn:E2;
      [| now apply (Hall k2 H2)].
    destruct A1 as (t1 & Ht1 & L1). destruct A2 as (t2 & Ht2 & L2).
    assert (In t1 (keys adj)) by (apply Hkeys; right; eauto).
    assert (In t2 (keys adj)) by (apply Hkeys; right; eauto).
    apply Hne. f_equal.
    rewrite <- L1, <- L2, (Hlen t1), (Hlen t2); auto.
Qed.

Lemma dok_to_array_rejects_empty_and_ragged_witness :
  match dok_to_array [(KTuple [1; 2]%Z, Num 5); (KInt 3, Num 7)] (-1) with
  | Ok _ => False
  | Raise _ => True
  end.
Proof.
  destruct (dok_to_array [(KTuple [1; 2]%Z, Num 5); (KInt 3, Num 7)] (-1))
    as [res | e] eqn:E; [| exact I].
  refine (proj2 (dok_to_array_rejects_empty_and_ragged
                   [(KTuple [1; 2]%Z, Num 5); (KInt 3, Num 7)] (-1))
                _ _ res E).
  - intros k [<- | [<- | []]]; discriminate.
  - exists (KTuple [1; 2]%Z), (KInt 3). simpl.
    repeat split; auto. discriminate.
Defined.

(** *** Assignment through an index tuple that is out of bounds *)

Lemma ravel_index_Raise (sh : list nat) (idx : list Z) (e : exn) :
  ravel_index sh idx = Raise e -> e = IndexError.
Proof.
  revert idx. induction sh as [| n sh IH]; intros [| i idx]; simpl;
    try (intros H; inversion H; reflexivity).
  unfold norm_index.
  destruct ((0 <=? i) && (i <? Z.of_nat n))%Z; cbn [bind].
  - destruct (ravel_index sh idx) as [p |] eqn:E; cbn [bind];
      [discriminate |]. intros H. inversion H; subst. now apply (IH idx).
  - destruct ((- Z.of_nat n <=? i) && (i <? 0))%Z; cbn [bind].
    + destruct (ravel_index sh idx) as [p |] eqn:E; cbn [bind];
        [discriminate |]. intros H. inversion H; subst. now apply (IH idx).
    + intros H. inversion H. reflexivity.
Qed.

Lemma mapM_length {A B} (f : A -> result B) (l : list A) (ys : list B) :
  mapM f l = Ok ys -> length ys = length l.
Proof.
  revert ys. induction l as [| x l IH]; intros ys H; cbn [mapM] in H.
  - inversion H. reflexivity.
  - destruct (f x) as [y |]; cbn [bind] in H; [| discriminate].
    destruct (mapM f l) as [ys' |]; cbn [bind] in H; [| discriminate].
    inversion H. simpl. f_equal. now apply IH.
Qed.

Lemma setitem_raises (sh : list nat) (idxs : list (list Z))
      (vals cells : list cell) (t : list Z) :
  length vals = length idxs ->
  In t idxs ->
  ravel_index sh t = Raise IndexError ->
  setitem (mk_ndarray sh cells) idxs vals = Raise IndexError.
Proof.
  unfold setitem. revert vals cells.
  induction idxs as [| t' idxs IH]; intros vals cells Hlen Hin Ht;
    [destruct Hin |].
  destruct vals as [| v vals]; [discriminate |].
  cbn [combine foldM fst snd shape data].
  destruct (ravel_index sh t') as [p | e] eqn:E; cbn [bind].
  - apply IH; [simpl in Hlen; lia | | exact Ht].
    destruct Hin as [Heq | Hin]; [| exact Hin]. subst t'. congruence.
  - apply ravel_index_Raise in E. now subst e.
Qed.

(** X18. With an index offset of 0 or more [dok_to_array] never returns
    an array, whatever the map (the map whose key is the empty tuple
    apart): the largest adjusted coordinate along the first axis equals
    or exceeds the length that the shape gives this axis. *)
Theorem dok_to_array_needs_negative_offset (d : dok) (off : Z) :
  (0 <= off)%Z ->
  ~ In (KTuple []) (keys d) ->
  forall res, dok_to_array d off <> Ok res.
Proof.
  intros Hoff Hnil res.
  assert (Hdec : (forall k, In k (keys d) -> key_arity k <> None) \/
                 (exists k, In k (keys d) /\ key_arity k = None)).
  { clear. unfold keys. induction d as [| [k v] d IH]; [left; intros _ [] |].
    destruct (key_arity k) eqn:Ek.
    - destruct IH as [IH | (k' & Hk' & Hn)].
      + left. intros k' [<- | H]; [simpl; congruence | now apply IH].
      + right. exists k'. split; [now right | exact Hn].
    - right. exists k. split; [now left | exact Ek]. }
  destruct Hdec as [Hall | (k & Hk & Hn)].
  2:{ unfold dok_to_array.
      rewrite adjust_loop_raises by eauto. discriminate. }
  unfold dok_to_array.
  destruct (adjust_loop_general off d [] Hall) as (adj & -> & Hkeys).
  cbn [bind].
  pose proof (max_axis0_lengths (keys adj)) as Hmax.
  destruct (max_axis0 (keys adj)) as [m | e] eqn:Em; [| discriminate].
  cbn [bind]. destruct Hmax as [Hne Hlen].
  destruct (max_axis0_spec (length m) (keys adj) Hne)
    as (m' & Hm' & _ & _ & Hatt).
  { apply Forall_forall. exact Hlen. }
  rewrite Em in Hm'. inversion Hm'; subst m'. clear Hm'.
  destruct (Hatt 0%nat) as (t & Ht & Hnth).
  assert (Hpos : (1 <= length t)%nat).
  { apply Hkeys in Ht. destruct Ht as [[] | (k & Hk & Hadj)].
    pose proof (adjust_key_arity off k) as Ha.
    destruct k; simpl in *; try discriminate;
      inversion Hadj; subst; simpl; try lia.
    rewrite length_map. destruct t0; [tauto | simpl; lia]. }
  pose proof (Hlen t Ht) as Hlt.
  destruct m as [| m0 m]; [simpl in Hlt; lia |].
  destruct t as [| t0 t]; [simpl in Hpos; lia |].
  simpl in Hnth. subst t0.
  unfold full. cbn [map forallb].
  destruct (Z.leb_spec 0 (m0 - off)) as [Hm0 |]; cbn [andb];
    [| discriminate].
  destruct (forallb _ _); [| discriminate]. cbn [bind].
  destruct (mapM as_float64 (values adj)) as [vals | e] eqn:Ev;
    [| discriminate].
  cbn [bind].
  rewrite (setitem_raises _ _ _ _ (m0 :: t)); [discriminate | | exact Ht |].
  { apply mapM_length in Ev. rewrite Ev. unfold keys, values.
    now rewrite !length_map. }
  cbn [ravel_index]. unfold norm_index.
  destruct (Z.leb_spec 0 m0); [| lia].
  destruct (Z.ltb_spec m0 (Z.of_nat (Z.to_nat (m0 - off)))); [lia |].
  cbn [andb]. destruct (Z.ltb_spec m0 0); [lia |].
  rewrite andb_false_r. reflexivity.
Qed.

Lemma dok_to_array_needs_negative_offset_witness :
  match dok_to_array [(KTuple [1; 1]%Z, Num 5); (KTuple [2; 1]%Z, Num 7)] 1
  with
  | Ok _ => False
  | Raise _ => True
  end.
Proof.
  destruct (dok_to_array [(KTuple [1; 1]%Z, Num 5); (KTuple [2; 1]%Z, Num 7)]
                         1) as [res | e] eqn:E; [| exact I].
  refine (dok_to_array_needs_negative_offset
            [(KTuple [1; 1]%Z, Num 5); (KTuple [2; 1]%Z, Num 7)] 1 _ _ res E).
  - lia.
  - simpl. intros [H | [H | []]]; discriminate.
Defined.

(** *** The array of a keyed map, cell by cell *)

Lemma dok_to_array_contents (d : dok) (off : Z) (r : nat) :
  d <> [] ->
  (off < 0)%Z ->
  (forall k, In k (keys d) ->
             exists t, adjust_key off k = Ok t /\ length t = r /\
                       Forall (fun c => 0 <= c)%Z t) ->
  NoDup (map (adjust_key off) (keys d)) ->
  (forall v, In v (values d) -> exists c, as_float64 v = Ok c) ->
  exists res,
    dok_to_array d off = Ok res /\
    length (shape res) = r /\
    well_formed res /\
    Forall (in_bounds (shape res)) (map fst (adjusted off d)) /\
    (forall t c, In (t, c) (stored off d) -> getitem res t = Ok c) /\
    (forall idx, in_bounds (shape res) idx ->
                 ~ In idx (map fst (adjusted off d)) ->
                 getitem res idx = Ok NaN).
Proof.
  intros Hne Hoff Hkeys Hnd Hvals.
  destruct (dok_to_array_result d off r Hne Hoff Hkeys Hnd Hvals)
    as (m & Hlen & _ & _ & Hnd' & Hb & Hrun).
  cbv zeta in *.
  set (sh := map Z.to_nat (map (fun x => (x - off)%Z) m)) in *.
  set (pvs := map (fun tv => (offset_of sh (fst tv), snd tv))
                  (stored off d)) in *.
  assert (Hfst : map fst pvs = map (offset_of sh) (map fst (adjusted off d))).
  { unfold pvs. rewrite <- stored_keys, !map_map. reflexivity. }
  assert (Hpnd : NoDup (map fst pvs)).
  { rewrite Hfst. apply NoDup_map_on; [| exact Hnd'].
    rewrite Forall_forall in Hb.
    intros x y Hx Hy. apply offset_of_inj; auto. }
  exists (mk_ndarray sh (fold_left assign pvs (repeat NaN (size_of sh)))).
  split; [exact Hrun |]. cbn [shape].
  split; [unfold sh; rewrite !length_map; exact Hlen |].
  split; [| split; [exact Hb | split]].
  - unfold well_formed. cbn [shape data].
    rewrite assign_all_length. apply repeat_length.
  - intros t c Hitem.
    assert (Hbt : in_bounds sh t).
    { rewrite Forall_forall in Hb. apply Hb. rewrite <- stored_keys.
      apply (in_map fst) in Hitem. exact Hitem. }
    unfold getitem. cbn [shape data].
    rewrite ravel_index_in_bounds by exact Hbt. cbn [bind].
    rewrite (assign_all_hit pvs _ (offset_of sh t) c); auto.
    + apply Forall_forall. intros [p w] Hp. simpl.
      rewrite repeat_length. unfold pvs in Hp. apply in_map_iff in Hp.
      destruct Hp as ([t' w'] & Heq & Hin'). inversion Heq; subst.
      apply offset_of_lt. rewrite Forall_forall in Hb. apply Hb.
      rewrite <- stored_keys.
      apply (in_map fst) in Hin'. exact Hin'.
    + unfold pvs. apply in_map_iff. exists (t, c). auto.
  - intros idx Hidx Hfree.
    unfold getitem. cbn [shape data].
    rewrite ravel_index_in_bounds by exact Hidx. cbn [bind].
    rewrite assign_all_other.
    + rewrite nth_error_repeat by now apply offset_of_lt. reflexivity.
    + rewrite Hfst. intros Hin. apply in_map_iff in Hin.
      destruct Hin as (t & Heq & Ht).
      assert (t = idx).
      { rewrite Forall_forall in Hb. apply (offset_of_inj sh); auto. }
      subst t. exact (Hfree Ht).
Qed.

Lemma shift_forth (t : list Z) :
  map (fun x => x + 1)%Z (map (fun x => x + -1)%Z t) = t.
Proof.
  rewrite map_map. rewrite <- (map_id t) at 2. apply map_ext. intros; lia.
Qed.

(** The key under which [array_to_dok] files the cell that a key of the
    map addresses. *)
Lemma index_key_of_adjusted (k : key) (t : list Z) :
  adjust_key (-1) k = Ok t ->
  (1 <= length t)%nat ->
  index_key (length t) t = canonical_key k.
Proof.
  destruct k as [| s | n | t0]; simpl; try discriminate.
  - intros H _. inversion H; subst. unfold index_key. simpl.
    f_equal. lia.
  - intros H Hpos. inversion H; subst. unfold index_key.
    rewrite length_map in *.
    destruct t0 as [| n [| n' t0]]; simpl in Hpos; try lia.
    + simpl. f_equal. lia.
    + destruct (Nat.ltb_spec 1 (length (n :: n' :: t0)));
        [| simpl in *; lia].
      now rewrite shift_forth.
Qed.

(** X19. The other round trip.  For a non-empty map with 1-based keys
    of one arity (pairwise distinct as tuples) and values that convert
    to [float64], [array_to_dok(dok_to_array(d))] has one entry for
    every cell of the array; it keeps every entry of [d], with the value
    converted to [float64] and a 1-tuple key coming back as the bare
    integer; and every entry it adds holds NaN. *)
Theorem dok_roundtrip_entries (d : dok) (r : nat) :
  d <> [] ->
  (1 <= r)%nat ->
  (forall k, In k (keys d) ->
             exists t, adjust_key default_index_offset k = Ok t /\
                       length t = r /\ Forall (fun c => 0 <= c)%Z t) ->
  NoDup (map (adjust_key default_index_offset) (keys d)) ->
  (forall v, In v (values d) -> exists c, as_float64 v = Ok c) ->
  exists res d',
    dok_to_array d default_index_offset = Ok res /\
    array_to_dok res = Ok d' /\
    length d' = size_of (shape res) /\
    (forall k v c, In (k, v) d -> as_float64 v = Ok c ->
                   dict_get key_eqb (canonical_key k) d' = Some c) /\
    (forall k' c', In (k', c') d' ->
                   c' = NaN \/
                   exists k v, In (k, v) d /\ as_float64 v = Ok c' /\
                               canonical_key k = k').
Proof.
  unfold default_index_offset. intros Hne Hr Hkeys Hnd Hvals.
  assert (Hk' : forall k, In k (keys d) ->
                          exists t, adjust_key (-1) k = Ok t).
  { intros k Hk. destruct (Hkeys k Hk) as (t & Ht & _). eauto. }
  destruct (dok_to_array_contents d (-1) r Hne ltac:(lia) Hkeys Hnd Hvals)
    as ([sh cells] & Hres & Hlen & Hwf & Hb & Hhit & Hother).
  cbn [shape] in *. unfold well_formed in Hwf. cbn [shape data] in Hwf.
  destruct (array_to_dok_contents sh cells ltac:(lia) Hwf)
    as (d' & Hd' & Hsize & Hkd & Hget & Hkeys').
  exists (mk_ndarray sh cells), d'.
  split; [exact Hres |]. split; [exact Hd' |]. split; [exact Hsize |].
  split.
  - intros k v c0 Hin Hc0.
    assert (Hk : In k (keys d)) by (apply Conversion.keys_In; eauto).
    destruct (Hkeys k Hk) as (t & Ht & Hlt & _).
    pose proof (stored_In (-1) d k v c0 t Hin Ht Hc0) as Hitem.
    assert (Hbt : in_bounds sh t).
    { rewrite Forall_forall in Hb. apply Hb. rewrite <- stored_keys.
      apply (in_map fst) in Hitem. exact Hitem. }
    destruct (Hget t Hbt) as (c & Hc & Hlook).
    rewrite (Hhit t c0 Hitem) in Hc. inversion Hc; subst c.
    rewrite <- (index_key_of_adjusted k t Ht) by lia.
    rewrite Hlt, <- Hlen. exact Hlook.
  - intros k' v' Hin'.
    assert (Hkin : In k' (keys d')).
    { unfold keys. apply in_map_iff. exists (k', v'). auto. }
    destruct (Hkeys' k' Hkin) as (idx & Hidx & ->).
    destruct (Hget idx Hidx) as (c & Hc & Hlook).
    rewrite (dict_get_In key_eqb d' _ v' key_eqb_eq Hkd Hin') in Hlook.
    inversion Hlook; subst c.
    destruct (in_dec (list_eq_dec Z.eq_dec) idx (map fst (adjusted (-1) d)))
      as [Hyes | Hno].
    + right. destruct (adjusted_row (-1) d Hk' idx Hyes) as (k & Hk & Hadj).
      pose proof Hk as Hk2.
      apply Conversion.keys_In in Hk. destruct Hk as (v & Hv).
      assert (Hvin : In v (values d)).
      { unfold values. apply in_map_iff. exists (k, v). auto. }
      destruct (Hvals v Hvin) as (c0 & Hc0).
      pose proof (stored_In (-1) d k v c0 idx Hv Hadj Hc0) as Hitem.
      rewrite (Hhit idx c0 Hitem) in Hc. inversion Hc; subst v'.
      exists k, v. split; [exact Hv |]. split; [exact Hc0 |].
      rewrite <- (index_key_of_adjusted k idx Hadj).
      * f_equal. rewrite Hlen.
        destruct (Hkeys k Hk2) as (t & Ht & Hlt & _).
        rewrite Hadj in Ht. inversion Ht; subst. exact Hlt.
      * rewrite (in_bounds_length sh idx Hidx). lia.
    + left. rewrite (Hother idx Hidx Hno) in Hc. now inversion Hc.
Qed.

Lemma dok_roundtrip_entries_witness :
  exists res d',
    dok_to_array [(KTuple [2]%Z, Num 7)] default_index_offset = Ok res /\
    array_to_dok res = Ok d' /\
    length d' = 2%nat /\
    dict_get key_eqb (KInt 2) d' = Some (Num 7).
Proof.
  destruct (dok_roundtrip_entries [(KTuple [2]%Z, Num 7)] 1)
    as (res & d' & Hres & Hd' & Hlen & Hkeep & _).
  - discriminate.
  - lia.
  - intros k [<- | []]. eexists. split; [reflexivity |].
    split; [reflexivity |]. repeat constructor. simpl. lia.
  - simpl. repeat constructor. simpl. tauto.
  - intros v [<- | []]. eexists. vm_compute. reflexivity.
  - exists res, d'. split; [exact Hres |]. split; [exact Hd' |]. split.
    + rewrite Hlen. vm_compute in Hres. inversion Hres. reflexivity.
    + apply (Hkeep (KTuple [2]%Z) (Num 7)); [simpl; auto |].
      vm_compute. reflexivity.
Defined.

End ConversionMore.

(* ================================================================== *)
(** ** The conversion to float64                                       *)
(* ================================================================== *)

Module Float64Facts.
Import Py Numpy.

Lemma round_half_even_Z (q : Q) (n : Z) :
  q == inject_Z n -> round_half_even q = n.
Proof.
  intros Hq. unfold round_half_even.
  assert (Hf : Qfloor q = n) by (rewrite Hq; apply Qfloor_Z).
  rewrite Hf.
  assert (Hc : Qcompare (q - inject_Z n) (1 # 2) = Lt).
  { apply -> Qlt_alt. rewrite Hq. lra. }
  now rewrite Hc.
Qed.

Lemma pow2_nonneg (e : Z) : (0 <= e)%Z -> pow2 e = inject_Z (2 ^ e).
Proof.
  intros He. unfold pow2. destruct (Z.leb_spec 0 e); [reflexivity | lia].
Qed.

Lemma pow2_neg (e : Z) : (e < 0)%Z -> pow2 e = / inject_Z (2 ^ (- e)).
Proof.
  intros He. unfold pow2. destruct (Z.leb_spec 0 e); [lia | reflexivity].
Qed.

Lemma binade_Z (n : Z) : (0 < n)%Z -> binade (inject_Z n) = Z.log2 n.
Proof.
  intros Hn. unfold binade. cbn [Qnum Qden inject_Z].
  change (Z.log2 1) with 0%Z. rewrite Z.sub_0_r.
  rewrite pow2_nonneg by apply Z.log2_nonneg.
  assert (H : Qle_bool (inject_Z (2 ^ Z.log2 n)) (inject_Z n) = true).
  { apply Qle_bool_iff. rewrite <- Zle_Qle. now apply Z.log2_spec. }
  now rewrite H.
Qed.

(** The significand of a positive integer below [2^53], scaled to its
    binade, is an integer, and scaling back gives the integer again. *)
Lemma scaled_Z (n : Z) :
  (0 < n <= 2 ^ 53)%Z ->
  exists m : Z,
    inject_Z n / pow2 (Z.max (Z.log2 n - 52) (-1074)) == inject_Z m /\
    inject_Z m * pow2 (Z.max (Z.log2 n - 52) (-1074)) == inject_Z n.
Proof.
  intros [Hpos Hle].
  assert (HL : (0 <= Z.log2 n <= 53)%Z).
  { split; [apply Z.log2_nonneg |].
    change 53%Z with (Z.log2 (2 ^ 53)). now apply Z.log2_le_mono. }
  rewrite Z.max_l by lia.
  destruct (Z.lt_ge_cases (Z.log2 n - 52) 0) as [Hneg | Hnn].
  - rewrite pow2_neg by exact Hneg.
    set (k := (2 ^ (- (Z.log2 n - 52)))%Z).
    assert (Hk : (0 < k)%Z) by (apply Z.pow_pos_nonneg; lia).
    clearbody k.
    assert (Hk' : ~ inject_Z k == 0).
    { intros H. unfold Qeq in H. cbn [inject_Z Qnum Qden] in H. lia. }
    exists (n * k)%Z. rewrite inject_Z_mult. split; field; exact Hk'.
  - assert (Hcase : Z.log2 n = 52%Z \/ Z.log2 n = 53%Z) by lia.
    destruct Hcase as [H52 | H53].
    + rewrite H52. exists n. change (pow2 (52 - 52)) with 1. split; field.
    + assert (Hn : n = (2 ^ 53)%Z).
      { pose proof (Z.log2_spec n Hpos) as [Hlo _]. rewrite H53 in Hlo. lia. }
      subst n. rewrite H53. exists (2 ^ 52)%Z.
      split; vm_compute; reflexivity.
Qed.

Lemma Qred_inject_Z (z : Z) : Qred (inject_Z z) = inject_Z z.
Proof.
  unfold Qred, inject_Z.
  pose proof (Z.ggcd_gcd z 1) as Hg.
  pose proof (Z.ggcd_correct_divisors z 1) as Hd.
  destruct (Z.ggcd z 1) as (g, (aa, bb)). cbn [fst snd] in *.
  rewrite Z.gcd_1_r in Hg. subst g. destruct Hd as [Ha Hb].
  replace aa with z by lia. replace bb with 1%Z by lia. reflexivity.
Qed.

(** X24. The conversion to [float64] leaves every integer of magnitude
    at most [2^53] as it is: these cells are [float64] values, and
    [dok_to_array] stores them unchanged.  The bound is sharp: the
    integer [2^53 + 1] is stored as [2^53]. *)
Theorem integers_are_float64 (z : Z) :
  ((Z.abs z <= 2 ^ 53)%Z -> is_float64 (Num (inject_Z z))) /\
  as_float64 (Num (inject_Z (2 ^ 53 + 1))) = Ok (Num (inject_Z (2 ^ 53))).
Proof.
  split; [| vm_compute; reflexivity].
  intros Hz. unfold is_float64, as_float64, float64.
  destruct (Z.eq_dec z 0) as [-> | Hnz]; [reflexivity |].
  replace (Qeq_bool (inject_Z z) 0) with false.
  2:{ symmetry. apply not_true_is_false. intros H. apply Qeq_bool_iff in H.
      unfold Qeq in H. cbn [inject_Z Qnum Qden] in H. lia. }
  assert (Ha : (if Qle_bool 0 (inject_Z z) then inject_Z z
                else - inject_Z z) = inject_Z (Z.abs z)).
  { destruct (Qle_bool 0 (inject_Z z)) eqn:E.
    - apply Qle_bool_iff in E. change 0 with (inject_Z 0) in E.
      rewrite <- Zle_Qle in E. now rewrite Z.abs_eq.
    - assert (Hneg : (z < 0)%Z).
      { apply Z.lt_nge. intros H. apply not_true_iff_false in E. apply E.
        apply Qle_bool_iff. change 0 with (inject_Z 0).
        now rewrite <- Zle_Qle. }
      rewrite Z.abs_neq by lia. reflexivity. }
  rewrite Ha. rewrite binade_Z by lia.
  destruct (scaled_Z (Z.abs z)) as (m & Hm & Hback); [lia |].
  rewrite (round_half_even_Z _ m Hm).
  replace (Qle_bool (pow2 1024)
                    (inject_Z m * pow2 (Z.max (Z.log2 (Z.abs z) - 52) (-1074))))
    with false.
  2:{ symmetry. apply not_true_is_false. intros H. apply Qle_bool_iff in H.
      rewrite Hback in H. rewrite pow2_nonneg in H by lia.
      rewrite <- Zle_Qle in H.
      assert (2 ^ 53 < 2 ^ 1024)%Z by (apply Z.pow_lt_mono_r; lia). lia. }
  cbn [bind]. do 2 f_equal.
  rewrite (Qred_complete _ (inject_Z z)); [apply Qred_inject_Z |].
  destruct (Qle_bool 0 (inject_Z z)) eqn:E.
  - apply Qeq_trans with (1 := Hback).
    apply Qle_bool_iff in E. change 0 with (inject_Z 0) in E.
    rewrite <- Zle_Qle in E. now rewrite Z.abs_eq.
  - apply Qeq_trans with (- inject_Z (Z.abs z));
      [apply Qopp_comp; exact Hback |].
    assert (Hneg : (z < 0)%Z).
    { apply Z.lt_nge. intros H. apply not_true_iff_false in E. apply E.
      apply Qle_bool_iff. change 0 with (inject_Z 0).
      now rewrite <- Zle_Qle. }
    rewrite Z.abs_neq by lia. rewrite inject_Z_opp. ring.
Qed.

Lemma integers_are_float64_witness :
  is_float64 (Num (inject_Z (-300))).
Proof.
  apply (proj1 (integers_are_float64 (-300))). simpl. lia.
Defined.

End Float64Facts.
